(** * G-Maa speech engine: phrase segmenter, ordered playback queue,
      mute coordination and conversation history ([src/llm_engine.py])

    The development embeds [SmartPhraseBuffer] and [G_Maa_Engine] as
    functions over an explicit engine state.  Coroutines are cut at their
    [await] points: every block of code that runs without suspension is
    one state transformer, and the interleaving of the playback worker
    with token ingestion, generation tasks and [interrupt] is a run over
    a list of events.

    What the model leaves to the environment: the tokens of the LLM and
    whether its stream raises, the outcome of each TTS call and the size
    of the file written, the outcome of the player process, and the
    moment at which each of these happens.  What it assumes: the two
    hooks return when called; [task.cancel()] on a pending task leaves it
    cancelled; removing a file succeeds.  The restart of the worker by
    [_playback_supervisor] is not part of the model, since without a
    raising hook nothing escapes the worker. *)

From Stdlib Require Import Ascii String.
From stdpp Require Import base list sorting gmap strings.

Local Open Scope string_scope.
Local Open Scope nat_scope.
Local Open Scope list_scope.
Local Open Scope stdpp_scope.

(** ** Python strings

    A [str] is a [string] whose characters are the code points 0..255;
    the operations below agree with Python on that range. *)
Module Py.

Definition code (c : ascii) : nat := nat_of_ascii c.

Definition between (lo hi n : nat) : bool := ((lo <=? n) && (n <=? hi))%nat.

(** [str.isspace] on one character: TAB..CR, FS..US, SPACE, NEL, NBSP. *)
Definition isspace (c : ascii) : bool :=
  let n := code c in
  between 9 13 n || between 28 32 n || (n =? 133)%nat || (n =? 160)%nat.

(** [str.isupper] on one character: A-Z and the Latin-1 capitals. *)
Definition isupper (c : ascii) : bool :=
  let n := code c in
  between 65 90 n || between 192 214 n || between 216 222 n.

Definition lower_char (c : ascii) : ascii :=
  if isupper c then ascii_of_nat (code c + 32) else c.

(** [s.lower()] *)
Fixpoint lower (s : string) : string :=
  match s with
  | EmptyString => EmptyString
  | String c s' => String (lower_char c) (lower s')
  end.

Definition is_empty (s : string) : bool :=
  match s with EmptyString => true | String _ _ => false end.

Fixpoint lstrip (s : string) : string :=
  match s with
  | EmptyString => EmptyString
  | String c s' => if isspace c then lstrip s' else s
  end.

Fixpoint rstrip (s : string) : string :=
  match s with
  | EmptyString => EmptyString
  | String c s' =>
      let r := rstrip s' in
      if isspace c && is_empty r then EmptyString else String c r
  end.

(** [s.strip()] *)
Definition strip (s : string) : string := rstrip (lstrip s).

(** [s.split()]: maximal runs of non-whitespace characters.  [w] is the
    word being read. *)
Fixpoint split_from (w s : string) : list string :=
  match s with
  | EmptyString => if is_empty w then [] else [w]
  | String c s' =>
      if isspace c
      then (if is_empty w then split_from EmptyString s'
            else w :: split_from EmptyString s')
      else split_from (w +:+ String c EmptyString) s'
  end.

Definition split (s : string) : list string := split_from EmptyString s.

(** [sep.join(ws)] *)
Definition join (sep : string) (ws : list string) : string :=
  String.concat sep ws.

(** [s[0]] and [s[-1]]; [None] where Python raises IndexError. *)
Definition first_char (s : string) : option ascii :=
  match s with EmptyString => None | String c _ => Some c end.

Fixpoint last_char (s : string) : option ascii :=
  match s with
  | EmptyString => None
  | String c EmptyString => Some c
  | String _ s' => last_char s'
  end.

(** [s.replace(a, b)] for one-character [a] and [b]. *)
Fixpoint replace_char (a b : ascii) (s : string) : string :=
  match s with
  | EmptyString => EmptyString
  | String c s' => String (if Ascii.eqb c a then b else c) (replace_char a b s')
  end.

(** [x in xs] for a string [x] and a list or set of strings. *)
Definition mem (x : string) (xs : list string) : bool :=
  bool_decide (x ∈ xs).

(** [c in s] for a one-character [c]. *)
Fixpoint char_in (c : ascii) (s : string) : bool :=
  match s with
  | EmptyString => false
  | String d s' => Ascii.eqb c d || char_in c s'
  end.

(** [ws[-k:]] *)
Definition last_n {A} (k : nat) (ws : list A) : list A :=
  drop (length ws - k) ws.

End Py.

(** ** Exceptions *)

Inductive exn := IndexError | TypeError | LLMError.

Inductive result (A : Type) :=
| Ok (a : A)
| Raise (x : exn).
Arguments Ok {A} a.
Arguments Raise {A} x.

Definition rbind {A B} (m : result A) (k : A → result B) : result B :=
  match m with
  | Ok a => k a
  | Raise x => Raise x
  end.

Definition index_or_raise {A} (o : option A) : result A :=
  match o with
  | Some a => Ok a
  | None => Raise IndexError
  end.

Declare Scope result_scope.
Delimit Scope result_scope with result.
Notation "'let?' x := m 'in' k" := (rbind m (λ x, k))
  (at level 10, x name, m at level 100, k at level 200) : result_scope.

(** ** [SmartPhraseBuffer._find_safe_split_point] *)

Definition split_conjunctions : list string := ["and"; "but"; "or"].
Definition split_prepositions : list string :=
  ["in"; "at"; "to"; "from"; "of"; "on"].

Local Open Scope result_scope.

(** One pass of the loop body at index [i]: [Some k] when the body
    executes [return k], [None] when it falls through. *)
Definition split_at (words : list string) (i : nat) : result (option nat) :=
  let? word := index_or_raise (words !! i) in
  let? c := index_or_raise (Py.last_char word) in
  if Ascii.eqb c ","%char then Ok (Some (i + 1))
  else if Py.mem (Py.lower word) split_conjunctions then Ok (Some i)
  else
    let? upper :=
      (if (i + 1 <? length words)%nat
       then let? next := index_or_raise (words !! (i + 1)) in
            let? d := index_or_raise (Py.first_char next) in
            Ok (Py.isupper d)
       else Ok false) in
    if upper && Py.mem (Py.lower word) split_prepositions
    then Ok (Some i)
    else Ok None.

(** [for i in range(n, 0, -1)] *)
Fixpoint scan_down (words : list string) (n : nat) : result nat :=
  match n with
  | 0 => Ok 0
  | S n' =>
      let? r := split_at words n in
      match r with
      | Some k => Ok k
      | None => scan_down words n'
      end
  end.

Definition _find_safe_split_point (words : list string) : result nat :=
  scan_down words (length words - 1).

(** ** Engine state

    The fields of [G_Maa_Engine] and of its [SmartPhraseBuffer] (whose
    dispatch callback is bound to [_queue_tts_generation] at
    construction), the files the generation tasks write, the position of
    the playback coroutine, and two logs that only record what happened:
    the calls made to the mute/unmute hooks and the tasks whose artifact
    was handed to the player. *)

Variant callable := Callable.

Inductive hook_call := Mute | Unmute.

Inductive timer := Armed | Finished.

(** An [asyncio.Task] running [_generate_speech_file]. *)
Inductive task_state :=
| Pending
| Returned (temp_path : option string)
| Failed
| Cancelled.

Record task := Task { phrase : string; state : task_state }.

(** Where [_playback_worker] is suspended. *)
Inductive worker_pc :=
| LoopHead
| AwaitTask (j : nat)
| Playing (j : nat) (temp_path : string)
| Exited.

Inductive role := User | Assistant.

Record engine := Engine {
  mute_callback : option callable;
  unmute_callback : option callable;
  kokoro : bool;                    (* the TTS engine was loaded *)
  stop_event : bool;
  audio_queue : list nat;           (* tasks, by their number; head first *)
  tasks : list task;                (* every task created, in creation order *)
  is_speaking : bool;
  buffer : string;                  (* phrase_buffer.buffer *)
  silence_task : option timer;      (* phrase_buffer.silence_task *)
  history : list (role * string);
  fs : gmap string nat;             (* wave files on disk and their sizes *)
  worker : worker_pc;
  hook_log : list hook_call;        (* log: hook calls, oldest first *)
  played : list nat                 (* log: tasks handed to the player *)
}.

Definition set_stop_event (v : bool) (e : engine) : engine :=
  Engine (mute_callback e) (unmute_callback e) (kokoro e) v
    (audio_queue e) (tasks e) (is_speaking e) (buffer e) (silence_task e)
    (history e) (fs e) (worker e) (hook_log e) (played e).

Definition set_audio_queue (v : list nat) (e : engine) : engine :=
  Engine (mute_callback e) (unmute_callback e) (kokoro e) (stop_event e)
    v (tasks e) (is_speaking e) (buffer e) (silence_task e)
    (history e) (fs e) (worker e) (hook_log e) (played e).

Definition set_tasks (v : list task) (e : engine) : engine :=
  Engine (mute_callback e) (unmute_callback e) (kokoro e) (stop_event e)
    (audio_queue e) v (is_speaking e) (buffer e) (silence_task e)
    (history e) (fs e) (worker e) (hook_log e) (played e).

Definition set_is_speaking (v : bool) (e : engine) : engine :=
  Engine (mute_callback e) (unmute_callback e) (kokoro e) (stop_event e)
    (audio_queue e) (tasks e) v (buffer e) (silence_task e)
    (history e) (fs e) (worker e) (hook_log e) (played e).

Definition set_buffer (v : string) (e : engine) : engine :=
  Engine (mute_callback e) (unmute_callback e) (kokoro e) (stop_event e)
    (audio_queue e) (tasks e) (is_speaking e) v (silence_task e)
    (history e) (fs e) (worker e) (hook_log e) (played e).

Definition set_silence_task (v : option timer) (e : engine) : engine :=
  Engine (mute_callback e) (unmute_callback e) (kokoro e) (stop_event e)
    (audio_queue e) (tasks e) (is_speaking e) (buffer e) v
    (history e) (fs e) (worker e) (hook_log e) (played e).

Definition set_history (v : list (role * string)) (e : engine) : engine :=
  Engine (mute_callback e) (unmute_callback e) (kokoro e) (stop_event e)
    (audio_queue e) (tasks e) (is_speaking e) (buffer e) (silence_task e)
    v (fs e) (worker e) (hook_log e) (played e).

Definition set_fs (v : gmap string nat) (e : engine) : engine :=
  Engine (mute_callback e) (unmute_callback e) (kokoro e) (stop_event e)
    (audio_queue e) (tasks e) (is_speaking e) (buffer e) (silence_task e)
    (history e) v (worker e) (hook_log e) (played e).

Definition set_worker (v : worker_pc) (e : engine) : engine :=
  Engine (mute_callback e) (unmute_callback e) (kokoro e) (stop_event e)
    (audio_queue e) (tasks e) (is_speaking e) (buffer e) (silence_task e)
    (history e) (fs e) v (hook_log e) (played e).

Definition log_hook (h : hook_call) (e : engine) : engine :=
  Engine (mute_callback e) (unmute_callback e) (kokoro e) (stop_event e)
    (audio_queue e) (tasks e) (is_speaking e) (buffer e) (silence_task e)
    (history e) (fs e) (worker e) (hook_log e ++ [h]) (played e).

Definition log_played (j : nat) (e : engine) : engine :=
  Engine (mute_callback e) (unmute_callback e) (kokoro e) (stop_event e)
    (audio_queue e) (tasks e) (is_speaking e) (buffer e) (silence_task e)
    (history e) (fs e) (worker e) (hook_log e) (played e ++ [j]).

(** The engine after [__init__] and [start()], with the playback worker
    about to evaluate its loop condition for the first time (line 172
    has run). *)
Definition init (mute unmute : option callable) (tts_loaded : bool) : engine :=
  Engine mute unmute tts_loaded false [] [] false EmptyString None [] ∅ LoopHead [] [].

(** ** Code that reads and writes the engine and may raise *)

Definition M (A : Type) : Type := engine → result A * engine.

Definition ret {A} (a : A) : M A := λ e, (Ok a, e).

Definition raise {A} (x : exn) : M A := λ e, (Raise x, e).

Definition bind {A B} (m : M A) (k : A → M B) : M B :=
  λ e, match m e with
       | (Ok a, e') => k a e'
       | (Raise x, e') => (Raise x, e')
       end.

Definition get : M engine := λ e, (Ok e, e).

Definition modify (f : engine → engine) : M unit := λ e, (Ok tt, f e).

Definition lift {A} (r : result A) : M A := λ e, (r, e).

(** [try: m  except Exception: h] *)
Definition try_except {A} (m : M A) (h : exn → M A) : M A :=
  λ e, match m e with
       | (Ok a, e') => (Ok a, e')
       | (Raise x, e') => h x e'
       end.

Definition outcome {A} (m : M A) (e : engine) : result A := fst (m e).
Definition after {A} (m : M A) (e : engine) : engine := snd (m e).

Declare Scope engine_scope.
Delimit Scope engine_scope with M.
Notation "'do' x <- m ; k" := (bind m (λ x, k))
  (at level 10, x name, m at level 100, k at level 200) : engine_scope.
Local Open Scope engine_scope.

(** ** [_queue_tts_generation] and the segmenter *)

(** [asyncio.create_task] then [put_nowait]: the new task is the next
    entry of the task table and goes to the tail of the queue. *)
Definition _queue_tts_generation (text_chunk : string) (e : engine) : engine :=
  set_audio_queue (audio_queue e ++ [length (tasks e)])
    (set_tasks (tasks e ++ [Task text_chunk Pending]) e).

(** [if self.silence_task: self.silence_task.cancel()] *)
Definition cancel_silence_task (e : engine) : engine :=
  match silence_task e with
  | Some _ => set_silence_task (Some Finished) e
  | None => e
  end.

Definition _do_dispatch (text : string) (e : engine) : engine :=
  cancel_silence_task (set_buffer EmptyString (_queue_tts_generation text e)).

Definition add_token (token : string) (e : engine) : engine :=
  set_silence_task (Some Armed)
    (cancel_silence_task (set_buffer (buffer e +:+ token) e)).

Definition hold_conjunctions : list string :=
  ["and"; "but"; "or"; "so"; "because"].

Definition _try_dispatch (force : bool) : M unit :=
  do e <- get;
  let text := Py.strip (buffer e) in
  if Py.is_empty text then ret tt else
  let words := Py.split text in
  let word_count := length words in
  if negb force && (word_count <? 2)%nat then ret tt else
  do c <- lift (index_or_raise (Py.last_char text));
  if Py.char_in c ".!?," then modify (_do_dispatch text) else
  do hold <- (if negb force
              then do w <- lift (index_or_raise (last words));
                   ret (Py.mem (Py.lower w) hold_conjunctions)
              else ret false);
  if hold then ret tt else
  if (8 <=? word_count)%nat || force then
    do split_point <- lift (_find_safe_split_point words);
    if (0 <? split_point)%nat then
      let chunk := Py.join " " (take split_point words) in
      let remainder := Py.join " " (drop split_point words) in
      do _ <- modify (_do_dispatch chunk);
      modify (set_buffer (remainder +:+ " "))
    else modify (_do_dispatch text)
  else ret tt.

(** [_silence_watchdog] once its sleep is over. *)
Definition _silence_watchdog : M unit :=
  do e <- get;
  do _ <- (if Py.is_empty (Py.strip (buffer e)) then ret tt
           else _try_dispatch true);
  modify (set_silence_task (Some Finished)).

(** ** [_generate_speech_file] *)

(** What the TTS engine and the clock give one generation: the samples
    ([None] or their number), the size in bytes of the wave file written
    from them, or an exception inside the [try]. *)
Inductive tts_result :=
| TtsAudio (samples : option nat) (wav_bytes : nat)
| TtsRaises.

Definition bare_punctuation : list string :=
  ["."; ","; "!"; "?"; ":"; ";"; "-"; "..."; String (ascii_of_nat 34) EmptyString; "'"].

(** The file written, with its size, when a file name is returned. *)
Definition _generate_speech_file (tts_loaded : bool) (text fname : string)
    (r : tts_result) : option (string * nat) :=
  if negb tts_loaded then None else
  let text := Py.replace_char (ascii_of_nat 10) " "%char (Py.strip text) in
  if (String.length text <? 2)%nat || Py.mem text bare_punctuation then None else
  match r with
  | TtsAudio (Some (S n)) wav_bytes => Some (fname, wav_bytes)
  | TtsAudio _ _ => None
  | TtsRaises => None
  end.

Definition task_state_at (j : nat) (e : engine) : option task_state :=
  state <$> tasks e !! j.

(** Task [j] runs to completion. *)
Definition finish_generation (j : nat) (fname : string) (r : tts_result)
    (e : engine) : engine :=
  match tasks e !! j with
  | Some (Task text Pending) =>
      match _generate_speech_file (kokoro e) text fname r with
      | Some (path, size) =>
          set_fs (<[path := size]> (fs e))
            (set_tasks (<[j := Task text (Returned (Some path))]> (tasks e)) e)
      | None => set_tasks (<[j := Task text (Returned None)]> (tasks e)) e
      end
  | _ => e
  end.

(** ** [interrupt] and [stop] *)

(** [if not task.done(): task.cancel()]; a task that is done keeps its
    result. *)
Definition cancel_task (j : nat) (ts : list task) : list task :=
  match ts !! j with
  | Some (Task text Pending) => <[j := Task text Cancelled]> ts
  | _ => ts
  end.

(** The [while not self.audio_queue.empty()] loop. *)
Fixpoint drain (queue : list nat) (ts : list task) : list task :=
  match queue with
  | [] => ts
  | j :: queue' => drain queue' (cancel_task j ts)
  end.

(** Truth value of a hook attribute: [None] is false, a callable true. *)
Definition truthy (cb : option callable) : bool :=
  match cb with
  | Some _ => true
  | None => false
  end.

(** Calling a hook attribute: [None()] is a TypeError. *)
Definition call (cb : option callable) (h : hook_call) : M unit :=
  match cb with
  | Some Callable => modify (log_hook h)
  | None => raise TypeError
  end.

Definition interrupt : M unit :=
  do _ <- modify (λ e, set_audio_queue [] (set_tasks (drain (audio_queue e) (tasks e)) e));
  do _ <- modify (set_buffer EmptyString);
  do _ <- modify (_do_dispatch EmptyString);
  do e <- get;
  do _ <- (if truthy (mute_callback e) then call (unmute_callback e) Unmute else ret tt);
  modify (set_is_speaking false).

(** [self.playback_task.cancel()]: the worker leaves at its pending
    [await]; a generation task it was awaiting is cancelled with it. *)
Definition cancel_playback_task (e : engine) : engine :=
  match worker e with
  | AwaitTask j => set_worker Exited (set_tasks (cancel_task j (tasks e)) e)
  | _ => set_worker Exited e
  end.

Definition stop : M unit :=
  do _ <- modify (set_stop_event true);
  do _ <- interrupt;
  modify cancel_playback_task.

(** ** [_playback_worker], one segment per suspension point *)

(** [if self.is_speaking: (if self.unmute_callback: self.unmute_callback());
    self.is_speaking = False] *)
Definition unmute_if_speaking (e : engine) : engine :=
  if is_speaking e
  then set_is_speaking false
         (if truthy (unmute_callback e) then log_hook Unmute e else e)
  else e.

(** From the loop condition to [asyncio.sleep] or to [await task]. *)
Definition worker_loop_head (e : engine) : engine :=
  if stop_event e then set_worker Exited e else
  match audio_queue e with
  | [] => unmute_if_speaking e
  | j :: queue' =>
      set_worker (AwaitTask j) (unmute_if_speaking (set_audio_queue queue' e))
  end.

Definition MIN_ARTIFACT_BYTES : nat := 100.

(** From the completion of the awaited task to the start of the player
    process, or back to the loop head. *)
Definition worker_after_await (j : nat) (e : engine) : engine :=
  match task_state_at j e with
  | None | Some Pending => e
  | Some Cancelled | Some Failed | Some (Returned None) => set_worker LoopHead e
  | Some (Returned (Some temp_path)) =>
      if Py.is_empty temp_path then set_worker LoopHead e else
      match fs e !! temp_path with
      | None => set_worker LoopHead e
      | Some size =>
          if (size <? MIN_ARTIFACT_BYTES)%nat then set_worker LoopHead e else
          let e1 :=
            if is_speaking e then e
            else set_is_speaking true
                   (if truthy (mute_callback e) then log_hook Mute e else e) in
          set_worker (Playing j temp_path) (log_played j e1)
      end
  end.

(** From the end of the player process (or its failure, [ok = false]) to
    the loop head. *)
Definition worker_after_play (ok : bool) (temp_path : string) (e : engine) : engine :=
  let e1 := set_fs (delete temp_path (fs e)) e in
  set_worker LoopHead (if ok then e1 else set_is_speaking false e1).

(** The worker runs from where it is suspended to its next suspension. *)
Definition _playback_worker (ok : bool) (e : engine) : engine :=
  match worker e with
  | LoopHead => worker_loop_head e
  | AwaitTask j => worker_after_await j e
  | Playing _ temp_path => worker_after_play ok temp_path e
  | Exited => e
  end.

(** ** [generate_and_speak] *)

Inductive llm_reply :=
| ChatRaises
| Stream (tokens : list string) (completes : bool).

Definition FALLBACK_PHRASE : string := "I'm having trouble thinking right now.".

Definition HISTORY_CAP : nat := 8.

(** The [async for] loop; returns [full_response]. *)
Fixpoint consume (tokens : list string) (full_response : string) : M string :=
  match tokens with
  | [] => ret full_response
  | token :: rest =>
      do _ <- modify (add_token token);
      do _ <- _try_dispatch false;
      consume rest (full_response +:+ token)
  end.

Definition remember (user_input full_response : string) (e : engine) : engine :=
  let h := (history e ++ [(User, user_input); (Assistant, full_response)])%list in
  set_history (if (HISTORY_CAP <? length h)%nat then Py.last_n HISTORY_CAP h else h) e.

(** [await x] where [x] is the [None] a plain function returned. *)
Definition await_None : M unit := raise TypeError.

Definition generate_and_speak (user_input : string) (llm : llm_reply) : M unit :=
  try_except
    (match llm with
     | ChatRaises => raise LLMError
     | Stream tokens completes =>
         do full_response <- consume tokens EmptyString;
         if completes then
           do _ <- _try_dispatch true;
           modify (remember user_input full_response)
         else raise LLMError
     end)
    (λ _, do _ <- modify (_queue_tts_generation FALLBACK_PHRASE);
          await_None).

(** ** Interleavings *)

Inductive event :=
| EvSubmit (text : string)
| EvToken (token : string)
| EvStreamEnd
| EvFallback
| EvWatchdog
| EvInterrupt
| EvStop
| EvGenerated (j : nat) (fname : string) (r : tts_result)
| EvUnlink (path : string)
| EvWorker (ok : bool).

Definition step (e : engine) (ev : event) : engine :=
  match ev with
  | EvSubmit text => _queue_tts_generation text e
  | EvToken token => after (do _ <- modify (add_token token); _try_dispatch false) e
  | EvStreamEnd => after (_try_dispatch true) e
  | EvFallback => _queue_tts_generation FALLBACK_PHRASE e
  | EvWatchdog =>
      match silence_task e with
      | Some Armed => after _silence_watchdog e
      | _ => e
      end
  | EvInterrupt => after interrupt e
  | EvStop => after stop e
  | EvGenerated j fname r => finish_generation j fname r e
  | EvUnlink path => set_fs (delete path (fs e)) e
  | EvWorker ok => _playback_worker ok e
  end.

Definition run (evs : list event) (e : engine) : engine := fold_left step evs e.

(** Everything a client or the environment can do to the engine: a whole
    conversation turn, or one event. *)
Inductive op :=
| OpSpeak (user_input : string) (llm : llm_reply)
| OpEvent (ev : event).

Definition apply_op (e : engine) (o : op) : engine :=
  match o with
  | OpSpeak user_input llm => after (generate_and_speak user_input llm) e
  | OpEvent ev => step e ev
  end.

(** ** Vocabulary of the specification *)

(** The last character of [w] is one of [chars]. *)
Definition ends_in (chars : string) (w : string) : bool :=
  match Py.last_char w with
  | Some c => Py.char_in c chars
  | None => false
  end.

Definition capitalized (w : string) : bool :=
  match Py.first_char w with
  | Some c => Py.isupper c
  | None => false
  end.

(** The seam that word [i] offers, if any: the position after it when it
    ends in a comma, its own position when it is and/but/or, its own
    position when it is a preposition followed by a capitalized word.
    A word is of one kind at most, so the order of the tests does not
    matter. *)
Definition spec_seam (words : list string) (i : nat) : option nat :=
  match words !! i with
  | None => None
  | Some w =>
      if ends_in "," w then Some (i + 1)
      else if Py.mem (Py.lower w) ["and"; "but"; "or"] then Some i
      else if Py.mem (Py.lower w) ["in"; "at"; "to"; "from"; "of"; "on"]
              && from_option capitalized false (words !! (i + 1))
      then Some i
      else None
  end.

(** Rule 4 as the code has it: scanning backward from the end, [sp] is
    the seam offered by the word nearest to the end that offers one, of
    whatever kind, among the words after the first; 0 when none offers
    anything. *)
Definition spec_nearest_seam (words : list string) (sp : nat) : Prop :=
  (sp = 0 ∧ ∀ i, 1 ≤ i < length words → spec_seam words i = None) ∨
  (∃ i, 1 ≤ i < length words ∧ spec_seam words i = Some sp ∧
        ∀ k, i < k < length words → spec_seam words k = None).






(** The flush gets past rules 1 to 3 and meets the condition of rule 4. *)
Definition reaches_rule4 (force : bool) (e : engine) : Prop :=
  let text := Py.strip (buffer e) in
  let words := Py.split text in
  text ≠ EmptyString ∧
  (force = false → 2 ≤ length words) ∧
  ends_in ".!?," text = false ∧
  (force = false →
   ∀ w, last words = Some w → Py.mem (Py.lower w) hold_conjunctions = false) ∧
  (8 ≤ length words ∨ force = true).

(** [full_response] for a stream of tokens. *)
Definition reply_text (tokens : list string) : string :=
  fold_left String.append tokens EmptyString.

(** The turns that completed conversation turns contribute, oldest first. *)
Definition turns_of (o : op) : list (role * string) :=
  match o with
  | OpSpeak user_input (Stream tokens true) =>
      [(User, user_input); (Assistant, reply_text tokens)]
  | _ => []
  end.

(** Roles alternate, the first turn being the user's. *)
Definition alternates (h : list (role * string)) : Prop :=
  ∀ i r text, h !! i = Some (r, text) →
    r = if Nat.even i then User else Assistant.

(** Tasks in the order of their submission: a task is numbered by its
    position in the task table, which grows at its end. *)
Definition submitted (e : engine) : list nat := seq 0 (length (tasks e)).

(** [x] occurs before [y] in [l]. *)
Definition before {A} (x y : A) (l : list A) : Prop :=
  ∃ l1 l2 l3, l = l1 ++ x :: l2 ++ y :: l3.

(** The task the worker has taken from the queue and is awaiting. *)
Definition awaited (e : engine) : list nat :=
  match worker e with
  | AwaitTask j => [j]
  | _ => []
  end.

(** Played, awaited and queued tasks, in this order. *)
Definition pipeline (e : engine) : list nat :=
  played e ++ awaited e ++ audio_queue e.

(** The last hook called was mute. *)
Definition mic_muted (e : engine) : Prop := last (hook_log e) = Some Mute.

(** The Playback State invariant of section 3. *)
Definition mute_invariant (e : engine) : Prop :=
  (is_speaking e = true → mic_muted e) ∧
  (is_speaking e = false → audio_queue e = [] → ¬ mic_muted e).

(** ** Auxiliary notions of the proofs *)

Definition no_empty_word (words : list string) : Prop :=
  Forall (λ x, Py.is_empty x = false) words.

(** Every flush leaves the engine as it was up to the buffer, the silence
    timer and at most one task appended to the queue. *)
Definition flushed (d : option string) (b : string) (st : option timer)
    (e : engine) : engine :=
  set_silence_task st
    (set_buffer b
       (match d with
        | Some text => _queue_tts_generation text e
        | None => e
        end)).

(** The state in which [interrupt] leaves queue, task table and
    segmenter. *)
Definition interrupted (e : engine) : engine :=
  _do_dispatch EmptyString
    (set_buffer EmptyString (set_audio_queue [] (set_tasks (drain (audio_queue e) (tasks e)) e))).

(** The pipeline is in increasing task order and holds known tasks. *)
Definition order_inv (e : engine) : Prop :=
  StronglySorted lt (pipeline e) ∧
  Forall (λ j, j < length (tasks e)) (pipeline e).

(** Turns come in pairs, the user's first. *)
Inductive paired : list (role * string) → Prop :=
| paired_nil : paired []
| paired_cons u r h : paired h → paired ((User, u) :: (Assistant, r) :: h).

(** ** Concrete engines *)





Definition forty_bytes : engine :=
  Engine (Some Callable) (Some Callable) true false [0]
    [Task "ok" (Returned (Some "/tmp/temp_audio_1.wav"))]
    false EmptyString None [] {[ "/tmp/temp_audio_1.wav" := 40 ]} LoopHead [] [].

(** Two phrases submitted in this order; the second is generated first. *)
Definition b_finishes_first : list event :=
  [EvSubmit "Phrase A."; EvSubmit "Phrase B.";
   EvGenerated 1 "/tmp/b.wav" (TtsAudio (Some 100) 244);
   EvWorker true; EvWorker true;
   EvGenerated 0 "/tmp/a.wav" (TtsAudio (Some 100) 244);
   EvWorker true; EvWorker true; EvWorker true; EvWorker true; EvWorker true].

(** One phrase is generated, its playback starts, and the player process
    fails. *)
Definition playback_failure : list event :=
  [EvSubmit "Hello there,";
   EvGenerated 0 "/tmp/a.wav" (TtsAudio (Some 100) 244);
   EvWorker true; EvWorker true; EvWorker false].

(** Both hooks were given, and Speaking says whether the last hook called
    was mute. *)
Definition mute_tracks_speaking (e : engine) : Prop :=
  truthy (mute_callback e) = true ∧
  truthy (unmute_callback e) = true ∧
  (is_speaking e = true ↔ mic_muted e).

(** ** Further notions for the properties of the whole code *)

(** No character of [w] is white space. *)
Fixpoint no_space (w : string) : bool :=
  match w with
  | EmptyString => true
  | String c w' => negb (Py.isspace c) && no_space w'
  end.

(** A word as [split()] returns them: not empty, no white space. *)
Definition word_like (w : string) : bool := negb (Py.is_empty w) && no_space w.

(** An engine whose buffer holds only white space. *)
Definition with_buffer (b : string) : engine :=
  set_buffer b (init (Some Callable) (Some Callable) true).

(** The last word is one of the connectors rule 3 holds back. *)
Definition ends_with_connector (words : list string) : bool :=
  match last words with
  | Some w => Py.mem (Py.lower w) hold_conjunctions
  | None => false
  end.

(** What a flush does, as one decision list over the stripped buffer
    [text], its [words] and the split point [sp]. *)
Definition flush_decision (force : bool) (text : string) (words : list string)
    (sp : nat) (e : engine) : engine :=
  if Py.is_empty text then e
  else if negb force && (length words <? 2) then e
  else if ends_in ".!?," text then _do_dispatch text e
  else if negb force && ends_with_connector words then e
  else if (8 <=? length words) || force then
    if 0 <? sp
    then set_buffer (Py.join " " (drop sp words) +:+ " ")
           (_do_dispatch (Py.join " " (take sp words)) e)
    else _do_dispatch text e
  else e.

Definition trailing_words : engine :=
  with_buffer "I like apples, pears and plums".

(** The text filter of [_generate_speech_file] lets the phrase through:
    after stripping and replacing newlines it has at least two characters
    and is not a bare punctuation mark. *)
Definition speakable (text : string) : bool :=
  let text := Py.replace_char (ascii_of_nat 10) " "%char (Py.strip text) in
  negb ((String.length text <? 2) || Py.mem text bare_punctuation).

(** Task [t'] is task [t] at a later time: the phrase is the same, and so
    is the result when [t] was done. *)
Definition task_kept (t t' : task) : Prop :=
  phrase t' = phrase t ∧ (state t = Pending ∨ state t' = state t).

Definition tasks_grow (ts ts' : list task) : Prop :=
  ∀ i t, ts !! i = Some t → ∃ t', ts' !! i = Some t' ∧ task_kept t t'.

(** Tasks that returned a file had a speakable phrase and a TTS engine. *)
Definition audio_ok (tts_loaded : bool) (ts : list task) : Prop :=
  ∀ j text p, ts !! j = Some (Task text (Returned (Some p))) →
    speakable text = true ∧ tts_loaded = true.

(** Task [j] returned the name of a file. *)
Definition has_audio (ts : list task) (j : nat) : Prop :=
  ∃ text p, ts !! j = Some (Task text (Returned (Some p))) ∧
            Py.is_empty p = false.

Definition audio_inv (e : engine) : Prop :=
  audio_ok (kokoro e) (tasks e) ∧ Forall (has_audio (tasks e)) (played e).

(** Nothing is or was audible. *)
Definition silent (e : engine) : Prop :=
  is_speaking e = false ∧ (Mute ∉ hook_log e) ∧ fs e = ∅ ∧
  played e = [] ∧ ∀ j p, worker e ≠ Playing j p.

(** A phrase is submitted and cancelled by an interrupt before it was
    generated. *)
Definition cancelled_phrase : engine :=
  run [EvSubmit "Hello there."; EvInterrupt]
    (init (Some Callable) (Some Callable) true).

(** The worker finds task [j] done with nothing to play: it was
    cancelled, failed, returned no file name or an empty one, or the
    file is not there. *)
Definition unplayable (e : engine) (j : nat) : bool :=
  match task_state_at j e with
  | Some Cancelled | Some Failed | Some (Returned None) => true
  | Some (Returned (Some temp_path)) =>
      Py.is_empty temp_path || bool_decide (fs e !! temp_path = None)
  | Some Pending | None => false
  end.

(** The hook calls of one playback cycle: the unmute made before
    awaiting when Speaking was still true, then the mute. *)
Definition cycle_hooks (e : engine) : list hook_call :=
  (if is_speaking e && truthy (unmute_callback e) then [Unmute] else []) ++
  (if truthy (mute_callback e) then [Mute] else []).

(** The worker has taken the only phrase and awaits its generation. *)
Definition awaiting_hello : engine :=
  run [EvSubmit "Hello there."; EvWorker true]
    (init (Some Callable) (Some Callable) true).

(** A phrase is generated and waits in the queue. *)
Definition ready_to_play : engine :=
  run [EvSubmit "Hello there.";
       EvGenerated 0 "/tmp/a.wav" (TtsAudio (Some 100) 244)]
    (init (Some Callable) (Some Callable) true).

(** An engine given a mute hook and no unmute hook. *)
Definition mute_only : engine := init (Some Callable) None true.

(** The empty phrase queued by an interrupt went through generation. *)
Definition empty_phrase_generated : engine :=
  run [EvInterrupt; EvGenerated 0 "/tmp/a.wav" (TtsAudio (Some 100) 244)]
    (init (Some Callable) (Some Callable) true).

(** The words of the phrases of some tasks, in order. *)
Definition words_of (ts : list task) : list string :=
  concat (map (λ t, Py.split (phrase t)) ts).

(** Eight words, the last being the first half of a word the LLM streams
    in two tokens. *)
Definition half_word : engine :=
  with_buffer "I think that cats and dogs are wonder".

(** * [main.py]: the conversation loop *)

(** [s.startswith(sub)] and [sub in s] for strings. *)
Fixpoint startswith (sub s : string) : bool :=
  match sub with
  | EmptyString => true
  | String a sub' =>
      match s with
      | EmptyString => false
      | String b s' => Ascii.eqb a b && startswith sub' s'
      end
  end.

Fixpoint contains (sub s : string) : bool :=
  startswith sub s ||
  match s with
  | EmptyString => false
  | String _ s' => contains sub s'
  end.

(** The test of line 64. *)
Definition is_command (user_text : string) : bool :=
  contains "stop" (Py.lower user_text) || contains "shut up" (Py.lower user_text).

(** The prompt that [generate_and_speak] builds (lines 304-317). *)
Inductive speaker := System | Turn (r : role).

Definition newline : string := String (ascii_of_nat 10) EmptyString.

Definition BASE_INSTRUCTION : string :=
  "You are G-Maa, a loving grandmother. Use very short, kind sentences. You are talking to a child.".

Definition system_instruction (rag_context : string) : string :=
  if Py.is_empty rag_context then BASE_INSTRUCTION
  else BASE_INSTRUCTION +:+ newline +:+ newline +:+
       "Use the following syllabus content to answer if relevant: " +:+
       rag_context.

Definition messages (rag_context : string) (history : list (role * string))
    (user_input : string) : list (speaker * string) :=
  (System, system_instruction rag_context)
  :: map (λ turn, (Turn (fst turn), snd turn)) history
  ++ [(Turn User, user_input)].

(** The engine with its [rag_context] attribute, and a log of the
    messages passed to each chat call. *)
Record session := Session {
  engine_of : engine;
  rag_context : string;
  prompts : list (list (speaker * string))
}.

(** One utterance taken from the speech queue, with what the
    environment answers to it: the context the RAG engine retrieves, what
    the LLM does with the prompt, and what the event loop ran while the
    conversation loop was waiting for the utterance. *)
Record utterance := Utterance {
  user_text : string;
  retrieved : string;
  reply : llm_reply;
  meanwhile : list event
}.

Definition set_rag_context (context : string) (s : session) : session :=
  Session (engine_of s) context (prompts s).

Definition interrupt_session (s : session) : result unit * session :=
  (outcome interrupt (engine_of s),
   Session (after interrupt (engine_of s)) (rag_context s) (prompts s)).

(** [generate_and_speak] together with the prompt it sends. *)
Definition speak (user_input : string) (llm : llm_reply) (s : session) :
    result unit * session :=
  let msgs := messages (rag_context s) (history (engine_of s)) user_input in
  (outcome (generate_and_speak user_input llm) (engine_of s),
   Session (after (generate_and_speak user_input llm) (engine_of s))
     (rag_context s) (prompts s ++ [msgs])).

(** One turn of the [while] loop of [run_conversation_loop]. *)
Definition conversation_turn (u : utterance) (s : session) :
    result unit * session :=
  let s0 := Session (run (meanwhile u) (engine_of s)) (rag_context s) (prompts s) in
  if is_command (user_text u) then interrupt_session s0
  else
    match interrupt_session (set_rag_context (retrieved u) s0) with
    | (Ok _, s2) => speak (user_text u) (reply u) s2
    | (Raise x, s2) => (Raise x, s2)
    end.

(** How the wait for the next utterance (line 60) ends when no utterance
    arrives any more: by the KeyboardInterrupt that line 61 catches, or
    by a CancelledError, which is what the cancellation of the main task
    raises at the [await] (so does [asyncio.run] on Ctrl-C) and which
    line 61 does not catch. *)
Inductive wait_end := KeyboardInterrupt | CancelledError.

(** How [run_conversation_loop] ends: it returns after the cleanup, an
    exception of a turn or of the cleanup leaves it, or the
    CancelledError of the wait leaves it. *)
Inductive loop_outcome :=
| LoopReturns
| LoopRaises (x : exn)
| LoopCancelled.

(** The loop over the utterances that arrive, then the end of the wait:
    only KeyboardInterrupt breaks out of the loop and reaches the
    cleanup. *)
Fixpoint run_conversation_loop (us : list utterance) (w : wait_end)
    (s : session) : loop_outcome * session :=
  match us with
  | [] =>
      match w with
      | KeyboardInterrupt =>
          (match outcome stop (engine_of s) with
           | Ok _ => LoopReturns
           | Raise x => LoopRaises x
           end,
           Session (after stop (engine_of s)) (rag_context s) (prompts s))
      | CancelledError => (LoopCancelled, s)
      end
  | u :: us' =>
      match conversation_turn u s with
      | (Ok _, s1) => run_conversation_loop us' w s1
      | (Raise x, s1) => (LoopRaises x, s1)
      end
  end.

(** The orchestrator gives the engine both hooks (lines 22-25). *)
Definition start (tts_loaded : bool) : session :=
  Session (init (Some Callable) (Some Callable) tts_loaded) EmptyString [].

(** The utterance is a command, or the LLM streams a complete reply. *)
Definition answered (u : utterance) : Prop :=
  is_command (user_text u) = true ∨ ∃ tokens, reply u = Stream tokens true.

Definition segmenter_event (ev : event) : Prop :=
  match ev with
  | EvToken _ | EvStreamEnd | EvWatchdog => True
  | _ => False
  end.

Definition unstoppable : utterance :=
  Utterance "You are unSTOPpable" "Paragraph one." (Stream ["Thank"; " you."] true) [].

Definition unanswered : utterance :=
  Utterance "Tell me a story" EmptyString ChatRaises [].

(** * [rag_engine.py] *)

Definition blank_line : string :=
  String (ascii_of_nat 10) (String (ascii_of_nat 10) EmptyString).

(** [text.split('\n\n')]; [piece] is the paragraph being read. *)
Fixpoint split_paragraphs_from (piece s : string) : list string :=
  match s with
  | EmptyString => [piece]
  | String c s' =>
      match s' with
      | EmptyString => [piece +:+ String c EmptyString]
      | String d s'' =>
          if Ascii.eqb c (ascii_of_nat 10) && Ascii.eqb d (ascii_of_nat 10)
          then piece :: split_paragraphs_from EmptyString s''
          else split_paragraphs_from (piece +:+ String c EmptyString) s'
      end
  end.

Definition MIN_CHUNK_CHARS : nat := 50.

(** The chunks that [load_and_index] keeps. *)
Definition load_and_index (text : string) : list string :=
  filter (λ c, MIN_CHUNK_CHARS < String.length c)
    (map Py.strip (split_paragraphs_from EmptyString text)).

(** [a[-k:]]: the whole of [a] when [k] is 0. *)
Definition slice_last {A} (k : nat) (a : list A) : list A :=
  if k =? 0 then a else drop (length a - k) a.

(** [[chunks[i] for i in indices]] *)
Fixpoint lookup_all (chunks : list string) (indices : list nat) :
    result (list string) :=
  match indices with
  | [] => Ok []
  | i :: indices' =>
      let? c := index_or_raise (chunks !! i) in
      let? cs := lookup_all chunks indices' in
      Ok (c :: cs)
  end.

(** [retrieve_context]; [argsort] is what [np.argsort(similarities)]
    returns for the query: the positions of the chunks, least similar
    first. *)
Definition retrieve_context (chunks : list string) (argsort : list nat)
    (top_k : nat) : result string :=
  match chunks with
  | [] => Ok EmptyString
  | _ :: _ =>
      let top_indices := reverse (slice_last top_k argsort) in
      let? context_parts := lookup_all chunks top_indices in
      Ok (Py.join blank_line context_parts)
  end.

(** The paragraph being read has no blank line, and will not get one
    from the next character. *)
Definition piece_ok (piece s : string) : Prop :=
  contains blank_line piece = false ∧
  (∀ x, Py.last_char piece = Some x →
        Ascii.eqb (ascii_of_nat 10) x = true →
        match s with
        | String c _ => Ascii.eqb (ascii_of_nat 10) c = false
        | EmptyString => True
        end).

Definition syllabus : string :=
  "Plants make their own food from sunlight, water and air in their green leaves." +:+
  blank_line +:+ "Short note." +:+ blank_line +:+
  "  The water cycle moves water from the sea to the sky and back to the land again.  ".

(** * Playback and the microphone *)

(** While the worker awaits a task Speaking is false; while it is in the
    player process Speaking is true and the microphone is muted. *)
Definition playing_inv (e : engine) : Prop :=
  truthy (mute_callback e) = true ∧
  match worker e with
  | AwaitTask _ => is_speaking e = false
  | Playing _ _ => is_speaking e = true ∧ mic_muted e
  | _ => True
  end.

(** A phrase is being played. *)
Definition now_playing : list event :=
  [EvSubmit "Hello there,";
   EvGenerated 0 "/tmp/a.wav" (TtsAudio (Some 100) 244);
   EvWorker true; EvWorker true].

(** * Properties *)

(** ** Strings *)

Lemma is_empty_true s : Py.is_empty s = true ↔ s = EmptyString.
Proof. destruct s; simpl; split; congruence. Qed.

Lemma is_empty_false s : Py.is_empty s = false ↔ s ≠ EmptyString.
Proof. destruct s; simpl; split; congruence. Qed.

Lemma string_app_nil (s : string) : EmptyString +:+ s = s.
Proof. reflexivity. Qed.

Lemma string_app_cons c (s t : string) : String c s +:+ t = String c (s +:+ t).
Proof. reflexivity. Qed.

Lemma is_empty_app w s :
  Py.is_empty (w +:+ s) = Py.is_empty w && Py.is_empty s.
Proof. destruct w; reflexivity. Qed.

Lemma string_app_assoc (a b c : string) : (a +:+ b) +:+ c = a +:+ (b +:+ c).
Proof.
  induction a as [|x a IH]; [reflexivity|].
  by rewrite !string_app_cons, IH.
Qed.

Lemma string_app_empty_r (a : string) : a +:+ EmptyString = a.
Proof.
  induction a as [|x a IH]; [reflexivity|].
  by rewrite string_app_cons, IH.
Qed.

Lemma last_char_is_Some s : Py.is_empty s = false → is_Some (Py.last_char s).
Proof.
  induction s as [|c s IH]; simpl; [discriminate|].
  intros _. destruct s as [|d s]; [eauto|]. by apply IH.
Qed.

Lemma last_char_cons c s :
  Py.last_char (String c s) =
  if Py.is_empty s then Some c else Py.last_char s.
Proof. destruct s; reflexivity. Qed.

Lemma last_char_app w s :
  Py.last_char (w +:+ s) =
  if Py.is_empty s then Py.last_char w else Py.last_char s.
Proof.
  induction w as [|c w IH].
  - rewrite string_app_nil. by destruct s.
  - rewrite string_app_cons, !last_char_cons, IH, is_empty_app.
    by destruct (Py.is_empty w), (Py.is_empty s).
Qed.

Lemma rstrip_cons d s :
  Py.rstrip (String d s) =
  if Py.isspace d && Py.is_empty (Py.rstrip s) then EmptyString else String d (Py.rstrip s).
Proof. reflexivity. Qed.

(** [s.strip()] never ends in white space. *)
Lemma rstrip_last_char s c :
  Py.last_char (Py.rstrip s) = Some c → Py.isspace c = false.
Proof.
  induction s as [|d s IH]; [discriminate|].
  rewrite rstrip_cons.
  destruct (Py.isspace d) eqn:Hd, (Py.is_empty (Py.rstrip s)) eqn:Hr;
    cbn [andb]; rewrite ?last_char_cons, ?Hr; try done; congruence.
Qed.

Lemma strip_last_char s c :
  Py.last_char (Py.strip s) = Some c → Py.isspace c = false.
Proof. apply rstrip_last_char. Qed.

(** [s.split()] has no empty word. *)
Lemma split_from_nonempty w s :
  Forall (λ x, Py.is_empty x = false) (Py.split_from w s).
Proof.
  revert w. induction s as [|c s IH]; intros w; simpl.
  - destruct (Py.is_empty w) eqn:Hw; auto.
  - destruct (Py.isspace c); [|apply IH].
    destruct (Py.is_empty w) eqn:Hw; auto.
Qed.

Lemma split_nonempty s : Forall (λ x, Py.is_empty x = false) (Py.split s).
Proof. apply split_from_nonempty. Qed.

(** The last word of [s.split()] ends where [s] ends, when [s] does not
    end in white space. *)
Lemma split_from_last w s c :
  Py.last_char (w +:+ s) = Some c → Py.isspace c = false →
  ∃ x, last (Py.split_from w s) = Some x ∧ Py.last_char x = Some c.
Proof.
  revert w. induction s as [|d s IH]; intros w Hc Hsp.
  - rewrite string_app_empty_r in Hc. cbn [Py.split_from].
    destruct (Py.is_empty w) eqn:Hw.
    + apply is_empty_true in Hw as ->. discriminate.
    + by exists w.
  - cbn [Py.split_from]. destruct (Py.isspace d) eqn:Hd.
    + rewrite last_char_app in Hc. cbn [Py.is_empty] in Hc.
      rewrite last_char_cons in Hc.
      destruct (Py.is_empty s) eqn:Hs; [congruence|].
      destruct (IH EmptyString Hc Hsp) as (x & Hx & Hxc).
      exists x. split; [|done].
      destruct (Py.is_empty w); [done|].
      by destruct (Py.split_from EmptyString s).
    + apply IH; [|done].
      by rewrite string_app_assoc, string_app_cons, string_app_nil.
Qed.

Lemma split_strip_last s c :
  Py.last_char (Py.strip s) = Some c →
  ∃ x, last (Py.split (Py.strip s)) = Some x ∧ Py.last_char x = Some c.
Proof.
  intros Hc. apply split_from_last; [done|]. by eapply strip_last_char.
Qed.

(** ** Reading a field after an update

    One equation per field and update, collected in the [fields] rewrite
    database together with the equations of the compound operations. *)

Create Rewrite HintDb fields.

Lemma mute_callback_set_stop_event v e : mute_callback (set_stop_event v e) = mute_callback e.
Proof. reflexivity. Qed.
Lemma unmute_callback_set_stop_event v e : unmute_callback (set_stop_event v e) = unmute_callback e.
Proof. reflexivity. Qed.
Lemma kokoro_set_stop_event v e : kokoro (set_stop_event v e) = kokoro e. Proof. reflexivity. Qed.
Lemma stop_event_set_stop_event v e : stop_event (set_stop_event v e) = v. Proof. reflexivity. Qed.
Lemma audio_queue_set_stop_event v e : audio_queue (set_stop_event v e) = audio_queue e.
Proof. reflexivity. Qed.
Lemma tasks_set_stop_event v e : tasks (set_stop_event v e) = tasks e. Proof. reflexivity. Qed.
Lemma is_speaking_set_stop_event v e : is_speaking (set_stop_event v e) = is_speaking e.
Proof. reflexivity. Qed.
Lemma buffer_set_stop_event v e : buffer (set_stop_event v e) = buffer e. Proof. reflexivity. Qed.
Lemma silence_task_set_stop_event v e : silence_task (set_stop_event v e) = silence_task e.
Proof. reflexivity. Qed.
Lemma history_set_stop_event v e : history (set_stop_event v e) = history e.
Proof. reflexivity. Qed.
Lemma fs_set_stop_event v e : fs (set_stop_event v e) = fs e. Proof. reflexivity. Qed.
Lemma worker_set_stop_event v e : worker (set_stop_event v e) = worker e. Proof. reflexivity. Qed.
Lemma hook_log_set_stop_event v e : hook_log (set_stop_event v e) = hook_log e.
Proof. reflexivity. Qed.
Lemma played_set_stop_event v e : played (set_stop_event v e) = played e. Proof. reflexivity. Qed.

Lemma mute_callback_set_audio_queue v e : mute_callback (set_audio_queue v e) = mute_callback e.
Proof. reflexivity. Qed.
Lemma unmute_callback_set_audio_queue v e :
  unmute_callback (set_audio_queue v e) =
  unmute_callback e.
Proof. reflexivity. Qed.
Lemma kokoro_set_audio_queue v e : kokoro (set_audio_queue v e) = kokoro e. Proof. reflexivity. Qed.
Lemma stop_event_set_audio_queue v e : stop_event (set_audio_queue v e) = stop_event e.
Proof. reflexivity. Qed.
Lemma audio_queue_set_audio_queue v e : audio_queue (set_audio_queue v e) = v.
Proof. reflexivity. Qed.
Lemma tasks_set_audio_queue v e : tasks (set_audio_queue v e) = tasks e. Proof. reflexivity. Qed.
Lemma is_speaking_set_audio_queue v e : is_speaking (set_audio_queue v e) = is_speaking e.
Proof. reflexivity. Qed.
Lemma buffer_set_audio_queue v e : buffer (set_audio_queue v e) = buffer e. Proof. reflexivity. Qed.
Lemma silence_task_set_audio_queue v e : silence_task (set_audio_queue v e) = silence_task e.
Proof. reflexivity. Qed.
Lemma history_set_audio_queue v e : history (set_audio_queue v e) = history e.
Proof. reflexivity. Qed.
Lemma fs_set_audio_queue v e : fs (set_audio_queue v e) = fs e. Proof. reflexivity. Qed.
Lemma worker_set_audio_queue v e : worker (set_audio_queue v e) = worker e. Proof. reflexivity. Qed.
Lemma hook_log_set_audio_queue v e : hook_log (set_audio_queue v e) = hook_log e.
Proof. reflexivity. Qed.
Lemma played_set_audio_queue v e : played (set_audio_queue v e) = played e. Proof. reflexivity. Qed.

Lemma mute_callback_set_tasks v e : mute_callback (set_tasks v e) = mute_callback e.
Proof. reflexivity. Qed.
Lemma unmute_callback_set_tasks v e : unmute_callback (set_tasks v e) = unmute_callback e.
Proof. reflexivity. Qed.
Lemma kokoro_set_tasks v e : kokoro (set_tasks v e) = kokoro e. Proof. reflexivity. Qed.
Lemma stop_event_set_tasks v e : stop_event (set_tasks v e) = stop_event e. Proof. reflexivity. Qed.
Lemma audio_queue_set_tasks v e : audio_queue (set_tasks v e) = audio_queue e.
Proof. reflexivity. Qed.
Lemma tasks_set_tasks v e : tasks (set_tasks v e) = v. Proof. reflexivity. Qed.
Lemma is_speaking_set_tasks v e : is_speaking (set_tasks v e) = is_speaking e.
Proof. reflexivity. Qed.
Lemma buffer_set_tasks v e : buffer (set_tasks v e) = buffer e. Proof. reflexivity. Qed.
Lemma silence_task_set_tasks v e : silence_task (set_tasks v e) = silence_task e.
Proof. reflexivity. Qed.
Lemma history_set_tasks v e : history (set_tasks v e) = history e. Proof. reflexivity. Qed.
Lemma fs_set_tasks v e : fs (set_tasks v e) = fs e. Proof. reflexivity. Qed.
Lemma worker_set_tasks v e : worker (set_tasks v e) = worker e. Proof. reflexivity. Qed.
Lemma hook_log_set_tasks v e : hook_log (set_tasks v e) = hook_log e. Proof. reflexivity. Qed.
Lemma played_set_tasks v e : played (set_tasks v e) = played e. Proof. reflexivity. Qed.

Lemma mute_callback_set_is_speaking v e : mute_callback (set_is_speaking v e) = mute_callback e.
Proof. reflexivity. Qed.
Lemma unmute_callback_set_is_speaking v e :
  unmute_callback (set_is_speaking v e) =
  unmute_callback e.
Proof. reflexivity. Qed.
Lemma kokoro_set_is_speaking v e : kokoro (set_is_speaking v e) = kokoro e. Proof. reflexivity. Qed.
Lemma stop_event_set_is_speaking v e : stop_event (set_is_speaking v e) = stop_event e.
Proof. reflexivity. Qed.
Lemma audio_queue_set_is_speaking v e : audio_queue (set_is_speaking v e) = audio_queue e.
Proof. reflexivity. Qed.
Lemma tasks_set_is_speaking v e : tasks (set_is_speaking v e) = tasks e. Proof. reflexivity. Qed.
Lemma is_speaking_set_is_speaking v e : is_speaking (set_is_speaking v e) = v.
Proof. reflexivity. Qed.
Lemma buffer_set_is_speaking v e : buffer (set_is_speaking v e) = buffer e. Proof. reflexivity. Qed.
Lemma silence_task_set_is_speaking v e : silence_task (set_is_speaking v e) = silence_task e.
Proof. reflexivity. Qed.
Lemma history_set_is_speaking v e : history (set_is_speaking v e) = history e.
Proof. reflexivity. Qed.
Lemma fs_set_is_speaking v e : fs (set_is_speaking v e) = fs e. Proof. reflexivity. Qed.
Lemma worker_set_is_speaking v e : worker (set_is_speaking v e) = worker e. Proof. reflexivity. Qed.
Lemma hook_log_set_is_speaking v e : hook_log (set_is_speaking v e) = hook_log e.
Proof. reflexivity. Qed.
Lemma played_set_is_speaking v e : played (set_is_speaking v e) = played e. Proof. reflexivity. Qed.

Lemma mute_callback_set_buffer v e : mute_callback (set_buffer v e) = mute_callback e.
Proof. reflexivity. Qed.
Lemma unmute_callback_set_buffer v e : unmute_callback (set_buffer v e) = unmute_callback e.
Proof. reflexivity. Qed.
Lemma kokoro_set_buffer v e : kokoro (set_buffer v e) = kokoro e. Proof. reflexivity. Qed.
Lemma stop_event_set_buffer v e : stop_event (set_buffer v e) = stop_event e.
Proof. reflexivity. Qed.
Lemma audio_queue_set_buffer v e : audio_queue (set_buffer v e) = audio_queue e.
Proof. reflexivity. Qed.
Lemma tasks_set_buffer v e : tasks (set_buffer v e) = tasks e. Proof. reflexivity. Qed.
Lemma is_speaking_set_buffer v e : is_speaking (set_buffer v e) = is_speaking e.
Proof. reflexivity. Qed.
Lemma buffer_set_buffer v e : buffer (set_buffer v e) = v. Proof. reflexivity. Qed.
Lemma silence_task_set_buffer v e : silence_task (set_buffer v e) = silence_task e.
Proof. reflexivity. Qed.
Lemma history_set_buffer v e : history (set_buffer v e) = history e. Proof. reflexivity. Qed.
Lemma fs_set_buffer v e : fs (set_buffer v e) = fs e. Proof. reflexivity. Qed.
Lemma worker_set_buffer v e : worker (set_buffer v e) = worker e. Proof. reflexivity. Qed.
Lemma hook_log_set_buffer v e : hook_log (set_buffer v e) = hook_log e. Proof. reflexivity. Qed.
Lemma played_set_buffer v e : played (set_buffer v e) = played e. Proof. reflexivity. Qed.

Lemma mute_callback_set_silence_task v e : mute_callback (set_silence_task v e) = mute_callback e.
Proof. reflexivity. Qed.
Lemma unmute_callback_set_silence_task v e :
  unmute_callback (set_silence_task v e) =
  unmute_callback e.
Proof. reflexivity. Qed.
Lemma kokoro_set_silence_task v e : kokoro (set_silence_task v e) = kokoro e.
Proof. reflexivity. Qed.
Lemma stop_event_set_silence_task v e : stop_event (set_silence_task v e) = stop_event e.
Proof. reflexivity. Qed.
Lemma audio_queue_set_silence_task v e : audio_queue (set_silence_task v e) = audio_queue e.
Proof. reflexivity. Qed.
Lemma tasks_set_silence_task v e : tasks (set_silence_task v e) = tasks e. Proof. reflexivity. Qed.
Lemma is_speaking_set_silence_task v e : is_speaking (set_silence_task v e) = is_speaking e.
Proof. reflexivity. Qed.
Lemma buffer_set_silence_task v e : buffer (set_silence_task v e) = buffer e.
Proof. reflexivity. Qed.
Lemma silence_task_set_silence_task v e : silence_task (set_silence_task v e) = v.
Proof. reflexivity. Qed.
Lemma history_set_silence_task v e : history (set_silence_task v e) = history e.
Proof. reflexivity. Qed.
Lemma fs_set_silence_task v e : fs (set_silence_task v e) = fs e. Proof. reflexivity. Qed.
Lemma worker_set_silence_task v e : worker (set_silence_task v e) = worker e.
Proof. reflexivity. Qed.
Lemma hook_log_set_silence_task v e : hook_log (set_silence_task v e) = hook_log e.
Proof. reflexivity. Qed.
Lemma played_set_silence_task v e : played (set_silence_task v e) = played e.
Proof. reflexivity. Qed.

Lemma mute_callback_set_history v e : mute_callback (set_history v e) = mute_callback e.
Proof. reflexivity. Qed.
Lemma unmute_callback_set_history v e : unmute_callback (set_history v e) = unmute_callback e.
Proof. reflexivity. Qed.
Lemma kokoro_set_history v e : kokoro (set_history v e) = kokoro e. Proof. reflexivity. Qed.
Lemma stop_event_set_history v e : stop_event (set_history v e) = stop_event e.
Proof. reflexivity. Qed.
Lemma audio_queue_set_history v e : audio_queue (set_history v e) = audio_queue e.
Proof. reflexivity. Qed.
Lemma tasks_set_history v e : tasks (set_history v e) = tasks e. Proof. reflexivity. Qed.
Lemma is_speaking_set_history v e : is_speaking (set_history v e) = is_speaking e.
Proof. reflexivity. Qed.
Lemma buffer_set_history v e : buffer (set_history v e) = buffer e. Proof. reflexivity. Qed.
Lemma silence_task_set_history v e : silence_task (set_history v e) = silence_task e.
Proof. reflexivity. Qed.
Lemma history_set_history v e : history (set_history v e) = v. Proof. reflexivity. Qed.
Lemma fs_set_history v e : fs (set_history v e) = fs e. Proof. reflexivity. Qed.
Lemma worker_set_history v e : worker (set_history v e) = worker e. Proof. reflexivity. Qed.
Lemma hook_log_set_history v e : hook_log (set_history v e) = hook_log e. Proof. reflexivity. Qed.
Lemma played_set_history v e : played (set_history v e) = played e. Proof. reflexivity. Qed.

Lemma mute_callback_set_fs v e : mute_callback (set_fs v e) = mute_callback e.
Proof. reflexivity. Qed.
Lemma unmute_callback_set_fs v e : unmute_callback (set_fs v e) = unmute_callback e.
Proof. reflexivity. Qed.
Lemma kokoro_set_fs v e : kokoro (set_fs v e) = kokoro e. Proof. reflexivity. Qed.
Lemma stop_event_set_fs v e : stop_event (set_fs v e) = stop_event e. Proof. reflexivity. Qed.
Lemma audio_queue_set_fs v e : audio_queue (set_fs v e) = audio_queue e. Proof. reflexivity. Qed.
Lemma tasks_set_fs v e : tasks (set_fs v e) = tasks e. Proof. reflexivity. Qed.
Lemma is_speaking_set_fs v e : is_speaking (set_fs v e) = is_speaking e. Proof. reflexivity. Qed.
Lemma buffer_set_fs v e : buffer (set_fs v e) = buffer e. Proof. reflexivity. Qed.
Lemma silence_task_set_fs v e : silence_task (set_fs v e) = silence_task e. Proof. reflexivity. Qed.
Lemma history_set_fs v e : history (set_fs v e) = history e. Proof. reflexivity. Qed.
Lemma fs_set_fs v e : fs (set_fs v e) = v. Proof. reflexivity. Qed.
Lemma worker_set_fs v e : worker (set_fs v e) = worker e. Proof. reflexivity. Qed.
Lemma hook_log_set_fs v e : hook_log (set_fs v e) = hook_log e. Proof. reflexivity. Qed.
Lemma played_set_fs v e : played (set_fs v e) = played e. Proof. reflexivity. Qed.

Lemma mute_callback_set_worker v e : mute_callback (set_worker v e) = mute_callback e.
Proof. reflexivity. Qed.
Lemma unmute_callback_set_worker v e : unmute_callback (set_worker v e) = unmute_callback e.
Proof. reflexivity. Qed.
Lemma kokoro_set_worker v e : kokoro (set_worker v e) = kokoro e. Proof. reflexivity. Qed.
Lemma stop_event_set_worker v e : stop_event (set_worker v e) = stop_event e.
Proof. reflexivity. Qed.
Lemma audio_queue_set_worker v e : audio_queue (set_worker v e) = audio_queue e.
Proof. reflexivity. Qed.
Lemma tasks_set_worker v e : tasks (set_worker v e) = tasks e. Proof. reflexivity. Qed.
Lemma is_speaking_set_worker v e : is_speaking (set_worker v e) = is_speaking e.
Proof. reflexivity. Qed.
Lemma buffer_set_worker v e : buffer (set_worker v e) = buffer e. Proof. reflexivity. Qed.
Lemma silence_task_set_worker v e : silence_task (set_worker v e) = silence_task e.
Proof. reflexivity. Qed.
Lemma history_set_worker v e : history (set_worker v e) = history e. Proof. reflexivity. Qed.
Lemma fs_set_worker v e : fs (set_worker v e) = fs e. Proof. reflexivity. Qed.
Lemma worker_set_worker v e : worker (set_worker v e) = v. Proof. reflexivity. Qed.
Lemma hook_log_set_worker v e : hook_log (set_worker v e) = hook_log e. Proof. reflexivity. Qed.
Lemma played_set_worker v e : played (set_worker v e) = played e. Proof. reflexivity. Qed.

Lemma mute_callback_log_hook v e : mute_callback (log_hook v e) = mute_callback e.
Proof. reflexivity. Qed.
Lemma unmute_callback_log_hook v e : unmute_callback (log_hook v e) = unmute_callback e.
Proof. reflexivity. Qed.
Lemma kokoro_log_hook v e : kokoro (log_hook v e) = kokoro e. Proof. reflexivity. Qed.
Lemma stop_event_log_hook v e : stop_event (log_hook v e) = stop_event e. Proof. reflexivity. Qed.
Lemma audio_queue_log_hook v e : audio_queue (log_hook v e) = audio_queue e.
Proof. reflexivity. Qed.
Lemma tasks_log_hook v e : tasks (log_hook v e) = tasks e. Proof. reflexivity. Qed.
Lemma is_speaking_log_hook v e : is_speaking (log_hook v e) = is_speaking e.
Proof. reflexivity. Qed.
Lemma buffer_log_hook v e : buffer (log_hook v e) = buffer e. Proof. reflexivity. Qed.
Lemma silence_task_log_hook v e : silence_task (log_hook v e) = silence_task e.
Proof. reflexivity. Qed.
Lemma history_log_hook v e : history (log_hook v e) = history e. Proof. reflexivity. Qed.
Lemma fs_log_hook v e : fs (log_hook v e) = fs e. Proof. reflexivity. Qed.
Lemma worker_log_hook v e : worker (log_hook v e) = worker e. Proof. reflexivity. Qed.
Lemma hook_log_log_hook v e : hook_log (log_hook v e) = hook_log e ++ [v]. Proof. reflexivity. Qed.
Lemma played_log_hook v e : played (log_hook v e) = played e. Proof. reflexivity. Qed.

Lemma mute_callback_log_played v e : mute_callback (log_played v e) = mute_callback e.
Proof. reflexivity. Qed.
Lemma unmute_callback_log_played v e : unmute_callback (log_played v e) = unmute_callback e.
Proof. reflexivity. Qed.
Lemma kokoro_log_played v e : kokoro (log_played v e) = kokoro e. Proof. reflexivity. Qed.
Lemma stop_event_log_played v e : stop_event (log_played v e) = stop_event e.
Proof. reflexivity. Qed.
Lemma audio_queue_log_played v e : audio_queue (log_played v e) = audio_queue e.
Proof. reflexivity. Qed.
Lemma tasks_log_played v e : tasks (log_played v e) = tasks e. Proof. reflexivity. Qed.
Lemma is_speaking_log_played v e : is_speaking (log_played v e) = is_speaking e.
Proof. reflexivity. Qed.
Lemma buffer_log_played v e : buffer (log_played v e) = buffer e. Proof. reflexivity. Qed.
Lemma silence_task_log_played v e : silence_task (log_played v e) = silence_task e.
Proof. reflexivity. Qed.
Lemma history_log_played v e : history (log_played v e) = history e. Proof. reflexivity. Qed.
Lemma fs_log_played v e : fs (log_played v e) = fs e. Proof. reflexivity. Qed.
Lemma worker_log_played v e : worker (log_played v e) = worker e. Proof. reflexivity. Qed.
Lemma hook_log_log_played v e : hook_log (log_played v e) = hook_log e. Proof. reflexivity. Qed.
Lemma played_log_played v e : played (log_played v e) = played e ++ [v]. Proof. reflexivity. Qed.

#[global] Hint Rewrite
  mute_callback_set_stop_event unmute_callback_set_stop_event kokoro_set_stop_event stop_event_set_stop_event
  audio_queue_set_stop_event tasks_set_stop_event is_speaking_set_stop_event buffer_set_stop_event
  silence_task_set_stop_event history_set_stop_event fs_set_stop_event worker_set_stop_event
  hook_log_set_stop_event played_set_stop_event mute_callback_set_audio_queue unmute_callback_set_audio_queue
  kokoro_set_audio_queue stop_event_set_audio_queue audio_queue_set_audio_queue tasks_set_audio_queue
  is_speaking_set_audio_queue buffer_set_audio_queue silence_task_set_audio_queue history_set_audio_queue
  fs_set_audio_queue worker_set_audio_queue hook_log_set_audio_queue played_set_audio_queue
  mute_callback_set_tasks unmute_callback_set_tasks kokoro_set_tasks stop_event_set_tasks
  audio_queue_set_tasks tasks_set_tasks is_speaking_set_tasks buffer_set_tasks
  silence_task_set_tasks history_set_tasks fs_set_tasks worker_set_tasks
  hook_log_set_tasks played_set_tasks mute_callback_set_is_speaking unmute_callback_set_is_speaking
  kokoro_set_is_speaking stop_event_set_is_speaking audio_queue_set_is_speaking tasks_set_is_speaking
  is_speaking_set_is_speaking buffer_set_is_speaking silence_task_set_is_speaking history_set_is_speaking
  fs_set_is_speaking worker_set_is_speaking hook_log_set_is_speaking played_set_is_speaking
  mute_callback_set_buffer unmute_callback_set_buffer kokoro_set_buffer stop_event_set_buffer
  audio_queue_set_buffer tasks_set_buffer is_speaking_set_buffer buffer_set_buffer
  silence_task_set_buffer history_set_buffer fs_set_buffer worker_set_buffer
  hook_log_set_buffer played_set_buffer mute_callback_set_silence_task unmute_callback_set_silence_task
  kokoro_set_silence_task stop_event_set_silence_task audio_queue_set_silence_task tasks_set_silence_task
  is_speaking_set_silence_task buffer_set_silence_task silence_task_set_silence_task history_set_silence_task
  fs_set_silence_task worker_set_silence_task hook_log_set_silence_task played_set_silence_task
  mute_callback_set_history unmute_callback_set_history kokoro_set_history stop_event_set_history
  audio_queue_set_history tasks_set_history is_speaking_set_history buffer_set_history
  silence_task_set_history history_set_history fs_set_history worker_set_history
  hook_log_set_history played_set_history mute_callback_set_fs unmute_callback_set_fs
  kokoro_set_fs stop_event_set_fs audio_queue_set_fs tasks_set_fs
  is_speaking_set_fs buffer_set_fs silence_task_set_fs history_set_fs
  fs_set_fs worker_set_fs hook_log_set_fs played_set_fs
  mute_callback_set_worker unmute_callback_set_worker kokoro_set_worker stop_event_set_worker
  audio_queue_set_worker tasks_set_worker is_speaking_set_worker buffer_set_worker
  silence_task_set_worker history_set_worker fs_set_worker worker_set_worker
  hook_log_set_worker played_set_worker mute_callback_log_hook unmute_callback_log_hook
  kokoro_log_hook stop_event_log_hook audio_queue_log_hook tasks_log_hook
  is_speaking_log_hook buffer_log_hook silence_task_log_hook history_log_hook
  fs_log_hook worker_log_hook hook_log_log_hook played_log_hook
  mute_callback_log_played unmute_callback_log_played kokoro_log_played stop_event_log_played
  audio_queue_log_played tasks_log_played is_speaking_log_played buffer_log_played
  silence_task_log_played history_log_played fs_log_played worker_log_played
  hook_log_log_played played_log_played : fields.

Lemma mute_callback_queue_tts_generation text e :
  mute_callback (_queue_tts_generation text e) =
  mute_callback e.
Proof. unfold _queue_tts_generation. by autorewrite with fields. Qed.
Lemma unmute_callback_queue_tts_generation text e :
  unmute_callback (_queue_tts_generation text e) =
  unmute_callback e.
Proof. unfold _queue_tts_generation. by autorewrite with fields. Qed.
Lemma kokoro_queue_tts_generation text e : kokoro (_queue_tts_generation text e) = kokoro e.
Proof. unfold _queue_tts_generation. by autorewrite with fields. Qed.
Lemma stop_event_queue_tts_generation text e :
  stop_event (_queue_tts_generation text e) =
  stop_event e.
Proof. unfold _queue_tts_generation. by autorewrite with fields. Qed.
Lemma audio_queue_queue_tts_generation text e :
  audio_queue (_queue_tts_generation text e) =
  audio_queue e ++ [length (tasks e)].
Proof. unfold _queue_tts_generation. by autorewrite with fields. Qed.
Lemma tasks_queue_tts_generation text e :
  tasks (_queue_tts_generation text e) =
  tasks e ++ [Task text Pending].
Proof. unfold _queue_tts_generation. by autorewrite with fields. Qed.
Lemma is_speaking_queue_tts_generation text e :
  is_speaking (_queue_tts_generation text e) =
  is_speaking e.
Proof. unfold _queue_tts_generation. by autorewrite with fields. Qed.
Lemma buffer_queue_tts_generation text e : buffer (_queue_tts_generation text e) = buffer e.
Proof. unfold _queue_tts_generation. by autorewrite with fields. Qed.
Lemma silence_task_queue_tts_generation text e :
  silence_task (_queue_tts_generation text e) =
  silence_task e.
Proof. unfold _queue_tts_generation. by autorewrite with fields. Qed.
Lemma history_queue_tts_generation text e : history (_queue_tts_generation text e) = history e.
Proof. unfold _queue_tts_generation. by autorewrite with fields. Qed.
Lemma fs_queue_tts_generation text e : fs (_queue_tts_generation text e) = fs e.
Proof. unfold _queue_tts_generation. by autorewrite with fields. Qed.
Lemma worker_queue_tts_generation text e : worker (_queue_tts_generation text e) = worker e.
Proof. unfold _queue_tts_generation. by autorewrite with fields. Qed.
Lemma hook_log_queue_tts_generation text e : hook_log (_queue_tts_generation text e) = hook_log e.
Proof. unfold _queue_tts_generation. by autorewrite with fields. Qed.
Lemma played_queue_tts_generation text e : played (_queue_tts_generation text e) = played e.
Proof. unfold _queue_tts_generation. by autorewrite with fields. Qed.

#[global] Hint Rewrite
  mute_callback_queue_tts_generation unmute_callback_queue_tts_generation kokoro_queue_tts_generation stop_event_queue_tts_generation
  audio_queue_queue_tts_generation tasks_queue_tts_generation is_speaking_queue_tts_generation buffer_queue_tts_generation
  silence_task_queue_tts_generation history_queue_tts_generation fs_queue_tts_generation worker_queue_tts_generation
  hook_log_queue_tts_generation played_queue_tts_generation : fields.

Lemma mute_callback_cancel_silence_task e : mute_callback (cancel_silence_task e) = mute_callback e.
Proof. unfold cancel_silence_task. destruct (silence_task e) eqn:Hst; by autorewrite with fields. Qed.
Lemma unmute_callback_cancel_silence_task e :
  unmute_callback (cancel_silence_task e) =
  unmute_callback e.
Proof. unfold cancel_silence_task. destruct (silence_task e) eqn:Hst; by autorewrite with fields. Qed.
Lemma kokoro_cancel_silence_task e : kokoro (cancel_silence_task e) = kokoro e.
Proof. unfold cancel_silence_task. destruct (silence_task e) eqn:Hst; by autorewrite with fields. Qed.
Lemma stop_event_cancel_silence_task e : stop_event (cancel_silence_task e) = stop_event e.
Proof. unfold cancel_silence_task. destruct (silence_task e) eqn:Hst; by autorewrite with fields. Qed.
Lemma audio_queue_cancel_silence_task e : audio_queue (cancel_silence_task e) = audio_queue e.
Proof. unfold cancel_silence_task. destruct (silence_task e) eqn:Hst; by autorewrite with fields. Qed.
Lemma tasks_cancel_silence_task e : tasks (cancel_silence_task e) = tasks e.
Proof. unfold cancel_silence_task. destruct (silence_task e) eqn:Hst; by autorewrite with fields. Qed.
Lemma is_speaking_cancel_silence_task e : is_speaking (cancel_silence_task e) = is_speaking e.
Proof. unfold cancel_silence_task. destruct (silence_task e) eqn:Hst; by autorewrite with fields. Qed.
Lemma buffer_cancel_silence_task e : buffer (cancel_silence_task e) = buffer e.
Proof. unfold cancel_silence_task. destruct (silence_task e) eqn:Hst; by autorewrite with fields. Qed.
Lemma silence_task_cancel_silence_task e :
  silence_task (cancel_silence_task e) =
  match silence_task e with Some _ => Some Finished | None => None end.
Proof. unfold cancel_silence_task. destruct (silence_task e) eqn:Hst; by autorewrite with fields. Qed.
Lemma history_cancel_silence_task e : history (cancel_silence_task e) = history e.
Proof. unfold cancel_silence_task. destruct (silence_task e) eqn:Hst; by autorewrite with fields. Qed.
Lemma fs_cancel_silence_task e : fs (cancel_silence_task e) = fs e.
Proof. unfold cancel_silence_task. destruct (silence_task e) eqn:Hst; by autorewrite with fields. Qed.
Lemma worker_cancel_silence_task e : worker (cancel_silence_task e) = worker e.
Proof. unfold cancel_silence_task. destruct (silence_task e) eqn:Hst; by autorewrite with fields. Qed.
Lemma hook_log_cancel_silence_task e : hook_log (cancel_silence_task e) = hook_log e.
Proof. unfold cancel_silence_task. destruct (silence_task e) eqn:Hst; by autorewrite with fields. Qed.
Lemma played_cancel_silence_task e : played (cancel_silence_task e) = played e.
Proof. unfold cancel_silence_task. destruct (silence_task e) eqn:Hst; by autorewrite with fields. Qed.

#[global] Hint Rewrite
  mute_callback_cancel_silence_task unmute_callback_cancel_silence_task kokoro_cancel_silence_task stop_event_cancel_silence_task
  audio_queue_cancel_silence_task tasks_cancel_silence_task is_speaking_cancel_silence_task buffer_cancel_silence_task
  silence_task_cancel_silence_task history_cancel_silence_task fs_cancel_silence_task worker_cancel_silence_task
  hook_log_cancel_silence_task played_cancel_silence_task : fields.

Lemma mute_callback_do_dispatch text e : mute_callback (_do_dispatch text e) = mute_callback e.
Proof. unfold _do_dispatch. by autorewrite with fields. Qed.
Lemma unmute_callback_do_dispatch text e :
  unmute_callback (_do_dispatch text e) =
  unmute_callback e.
Proof. unfold _do_dispatch. by autorewrite with fields. Qed.
Lemma kokoro_do_dispatch text e : kokoro (_do_dispatch text e) = kokoro e.
Proof. unfold _do_dispatch. by autorewrite with fields. Qed.
Lemma stop_event_do_dispatch text e : stop_event (_do_dispatch text e) = stop_event e.
Proof. unfold _do_dispatch. by autorewrite with fields. Qed.
Lemma audio_queue_do_dispatch text e :
  audio_queue (_do_dispatch text e) =
  audio_queue e ++ [length (tasks e)].
Proof. unfold _do_dispatch. by autorewrite with fields. Qed.
Lemma tasks_do_dispatch text e : tasks (_do_dispatch text e) = tasks e ++ [Task text Pending].
Proof. unfold _do_dispatch. by autorewrite with fields. Qed.
Lemma is_speaking_do_dispatch text e : is_speaking (_do_dispatch text e) = is_speaking e.
Proof. unfold _do_dispatch. by autorewrite with fields. Qed.
Lemma buffer_do_dispatch text e : buffer (_do_dispatch text e) = EmptyString.
Proof. unfold _do_dispatch. by autorewrite with fields. Qed.
Lemma silence_task_do_dispatch text e :
  silence_task (_do_dispatch text e) =
  match silence_task e with Some _ => Some Finished | None => None end.
Proof. unfold _do_dispatch. by autorewrite with fields. Qed.
Lemma history_do_dispatch text e : history (_do_dispatch text e) = history e.
Proof. unfold _do_dispatch. by autorewrite with fields. Qed.
Lemma fs_do_dispatch text e : fs (_do_dispatch text e) = fs e.
Proof. unfold _do_dispatch. by autorewrite with fields. Qed.
Lemma worker_do_dispatch text e : worker (_do_dispatch text e) = worker e.
Proof. unfold _do_dispatch. by autorewrite with fields. Qed.
Lemma hook_log_do_dispatch text e : hook_log (_do_dispatch text e) = hook_log e.
Proof. unfold _do_dispatch. by autorewrite with fields. Qed.
Lemma played_do_dispatch text e : played (_do_dispatch text e) = played e.
Proof. unfold _do_dispatch. by autorewrite with fields. Qed.

#[global] Hint Rewrite
  mute_callback_do_dispatch unmute_callback_do_dispatch kokoro_do_dispatch stop_event_do_dispatch
  audio_queue_do_dispatch tasks_do_dispatch is_speaking_do_dispatch buffer_do_dispatch
  silence_task_do_dispatch history_do_dispatch fs_do_dispatch worker_do_dispatch
  hook_log_do_dispatch played_do_dispatch : fields.

Lemma mute_callback_unmute_if_speaking e : mute_callback (unmute_if_speaking e) = mute_callback e.
Proof. unfold unmute_if_speaking. destruct (is_speaking e) eqn:Hs, (truthy (unmute_callback e)); autorewrite with fields; by rewrite ?app_nil_r. Qed.
Lemma unmute_callback_unmute_if_speaking e :
  unmute_callback (unmute_if_speaking e) =
  unmute_callback e.
Proof. unfold unmute_if_speaking. destruct (is_speaking e) eqn:Hs, (truthy (unmute_callback e)); autorewrite with fields; by rewrite ?app_nil_r. Qed.
Lemma kokoro_unmute_if_speaking e : kokoro (unmute_if_speaking e) = kokoro e.
Proof. unfold unmute_if_speaking. destruct (is_speaking e) eqn:Hs, (truthy (unmute_callback e)); autorewrite with fields; by rewrite ?app_nil_r. Qed.
Lemma stop_event_unmute_if_speaking e : stop_event (unmute_if_speaking e) = stop_event e.
Proof. unfold unmute_if_speaking. destruct (is_speaking e) eqn:Hs, (truthy (unmute_callback e)); autorewrite with fields; by rewrite ?app_nil_r. Qed.
Lemma audio_queue_unmute_if_speaking e : audio_queue (unmute_if_speaking e) = audio_queue e.
Proof. unfold unmute_if_speaking. destruct (is_speaking e) eqn:Hs, (truthy (unmute_callback e)); autorewrite with fields; by rewrite ?app_nil_r. Qed.
Lemma tasks_unmute_if_speaking e : tasks (unmute_if_speaking e) = tasks e.
Proof. unfold unmute_if_speaking. destruct (is_speaking e) eqn:Hs, (truthy (unmute_callback e)); autorewrite with fields; by rewrite ?app_nil_r. Qed.
Lemma is_speaking_unmute_if_speaking e : is_speaking (unmute_if_speaking e) = false.
Proof. unfold unmute_if_speaking. destruct (is_speaking e) eqn:Hs, (truthy (unmute_callback e)); autorewrite with fields; by rewrite ?app_nil_r. Qed.
Lemma buffer_unmute_if_speaking e : buffer (unmute_if_speaking e) = buffer e.
Proof. unfold unmute_if_speaking. destruct (is_speaking e) eqn:Hs, (truthy (unmute_callback e)); autorewrite with fields; by rewrite ?app_nil_r. Qed.
Lemma silence_task_unmute_if_speaking e : silence_task (unmute_if_speaking e) = silence_task e.
Proof. unfold unmute_if_speaking. destruct (is_speaking e) eqn:Hs, (truthy (unmute_callback e)); autorewrite with fields; by rewrite ?app_nil_r. Qed.
Lemma history_unmute_if_speaking e : history (unmute_if_speaking e) = history e.
Proof. unfold unmute_if_speaking. destruct (is_speaking e) eqn:Hs, (truthy (unmute_callback e)); autorewrite with fields; by rewrite ?app_nil_r. Qed.
Lemma fs_unmute_if_speaking e : fs (unmute_if_speaking e) = fs e.
Proof. unfold unmute_if_speaking. destruct (is_speaking e) eqn:Hs, (truthy (unmute_callback e)); autorewrite with fields; by rewrite ?app_nil_r. Qed.
Lemma worker_unmute_if_speaking e : worker (unmute_if_speaking e) = worker e.
Proof. unfold unmute_if_speaking. destruct (is_speaking e) eqn:Hs, (truthy (unmute_callback e)); autorewrite with fields; by rewrite ?app_nil_r. Qed.
Lemma hook_log_unmute_if_speaking e :
  hook_log (unmute_if_speaking e) =
  hook_log e ++ (if is_speaking e && truthy (unmute_callback e) then [Unmute] else []).
Proof. unfold unmute_if_speaking. destruct (is_speaking e) eqn:Hs, (truthy (unmute_callback e)); autorewrite with fields; by rewrite ?app_nil_r. Qed.
Lemma played_unmute_if_speaking e : played (unmute_if_speaking e) = played e.
Proof. unfold unmute_if_speaking. destruct (is_speaking e) eqn:Hs, (truthy (unmute_callback e)); autorewrite with fields; by rewrite ?app_nil_r. Qed.

#[global] Hint Rewrite
  mute_callback_unmute_if_speaking unmute_callback_unmute_if_speaking kokoro_unmute_if_speaking stop_event_unmute_if_speaking
  audio_queue_unmute_if_speaking tasks_unmute_if_speaking is_speaking_unmute_if_speaking buffer_unmute_if_speaking
  silence_task_unmute_if_speaking history_unmute_if_speaking fs_unmute_if_speaking worker_unmute_if_speaking
  hook_log_unmute_if_speaking played_unmute_if_speaking : fields.

Lemma mute_callback_flushed d b st e : mute_callback (flushed d b st e) = mute_callback e.
Proof. unfold flushed. destruct d; by autorewrite with fields. Qed.
Lemma unmute_callback_flushed d b st e : unmute_callback (flushed d b st e) = unmute_callback e.
Proof. unfold flushed. destruct d; by autorewrite with fields. Qed.
Lemma kokoro_flushed d b st e : kokoro (flushed d b st e) = kokoro e.
Proof. unfold flushed. destruct d; by autorewrite with fields. Qed.
Lemma stop_event_flushed d b st e : stop_event (flushed d b st e) = stop_event e.
Proof. unfold flushed. destruct d; by autorewrite with fields. Qed.
Lemma audio_queue_flushed d b st e :
  audio_queue (flushed d b st e) =
  match d with Some _ => audio_queue e ++ [length (tasks e)] | None => audio_queue e end.
Proof. unfold flushed. destruct d; by autorewrite with fields. Qed.
Lemma tasks_flushed d b st e :
  tasks (flushed d b st e) =
  match d with Some text => tasks e ++ [Task text Pending] | None => tasks e end.
Proof. unfold flushed. destruct d; by autorewrite with fields. Qed.
Lemma is_speaking_flushed d b st e : is_speaking (flushed d b st e) = is_speaking e.
Proof. unfold flushed. destruct d; by autorewrite with fields. Qed.
Lemma buffer_flushed d b st e : buffer (flushed d b st e) = b.
Proof. unfold flushed. destruct d; by autorewrite with fields. Qed.
Lemma silence_task_flushed d b st e : silence_task (flushed d b st e) = st.
Proof. unfold flushed. destruct d; by autorewrite with fields. Qed.
Lemma history_flushed d b st e : history (flushed d b st e) = history e.
Proof. unfold flushed. destruct d; by autorewrite with fields. Qed.
Lemma fs_flushed d b st e : fs (flushed d b st e) = fs e.
Proof. unfold flushed. destruct d; by autorewrite with fields. Qed.
Lemma worker_flushed d b st e : worker (flushed d b st e) = worker e.
Proof. unfold flushed. destruct d; by autorewrite with fields. Qed.
Lemma hook_log_flushed d b st e : hook_log (flushed d b st e) = hook_log e.
Proof. unfold flushed. destruct d; by autorewrite with fields. Qed.
Lemma played_flushed d b st e : played (flushed d b st e) = played e.
Proof. unfold flushed. destruct d; by autorewrite with fields. Qed.

#[global] Hint Rewrite
  mute_callback_flushed unmute_callback_flushed kokoro_flushed stop_event_flushed
  audio_queue_flushed tasks_flushed is_speaking_flushed buffer_flushed
  silence_task_flushed history_flushed fs_flushed worker_flushed
  hook_log_flushed played_flushed : fields.

(** ** The safe split point *)

Lemma ends_in_comma w :
  ends_in "," w = true → ends_in ".!?," w = true.
Proof.
  unfold ends_in. destruct (Py.last_char w) as [c|]; [|done].
  simpl. rewrite !orb_false_r. intros ->. by rewrite !orb_true_r.
Qed.

Lemma split_at_spec words i :
  no_empty_word words → i < length words →
  split_at words i = Ok (spec_seam words i).
Proof.
  intros Hne Hi. unfold split_at, spec_seam, ends_in.
  destruct (lookup_lt_is_Some_2 words i Hi) as [w Hw]. rewrite Hw. simpl.
  assert (Py.is_empty w = false) as Hwne.
  { eapply (Forall_lookup_1 _ _ _ _ Hne Hw). }
  destruct (last_char_is_Some w Hwne) as [c Hc]. rewrite Hc. simpl.
  rewrite orb_false_r.
  destruct (Ascii.eqb c ",") eqn:Hcomma; [done|].
  unfold split_conjunctions.
  destruct (Py.mem (Py.lower w) ["and"; "but"; "or"]) eqn:Hconj; [done|].
    unfold split_prepositions.
  destruct (i + 1 <? length words)%nat eqn:Hlt.
  - apply Nat.ltb_lt in Hlt.
    destruct (lookup_lt_is_Some_2 words (i + 1) Hlt) as [n Hn]. rewrite Hn. simpl.
    assert (Py.is_empty n = false) as Hnne.
    { eapply (Forall_lookup_1 _ _ _ _ Hne Hn). }
    unfold capitalized. destruct n as [|d n]; [done|]. simpl.
    rewrite andb_comm. by destruct (_ && _).
  - apply Nat.ltb_ge in Hlt.
    rewrite (lookup_ge_None_2 words (i + 1)) by lia. simpl.
    by rewrite andb_false_r.
Qed.

Lemma scan_down_spec words n :
  no_empty_word words → n < length words →
  ∃ sp, scan_down words n = Ok sp ∧
    ((sp = 0 ∧ ∀ i, 1 ≤ i ≤ n → spec_seam words i = None) ∨
     (∃ i, 1 ≤ i ≤ n ∧ spec_seam words i = Some sp ∧
           ∀ k, i < k ≤ n → spec_seam words k = None)).
Proof.
  intros Hne. induction n as [|n IH]; intros Hn.
  - exists 0. split; [done|]. left. split; [done|]. intros i ?. lia.
  - cbn [scan_down]. rewrite split_at_spec by done. simpl.
    destruct (spec_seam words (S n)) as [k|] eqn:Hk.
    + exists k. split; [done|]. right. exists (S n).
      split; [lia|]. split; [done|]. intros ? ?. lia.
    + destruct IH as (sp & Hsp & Hcases); [lia|].
      exists sp. split; [done|].
      destruct Hcases as [[-> Hnone]|(i & Hi & Hseam & Hnone)].
      * left. split; [done|]. intros i Hi.
        destruct (decide (i = S n)) as [->|]; [done|]. apply Hnone. lia.
      * right. exists i. split; [lia|]. split; [done|]. intros k Hk'.
        destruct (decide (k = S n)) as [->|]; [done|]. apply Hnone. lia.
Qed.

(** On the words of a [split()] the search returns, and what it returns
    is the seam nearest to the end. *)
Lemma find_safe_split_point_spec words :
  no_empty_word words →
  ∃ sp, _find_safe_split_point words = Ok sp ∧ spec_nearest_seam words sp.
Proof.
  intros Hne. unfold _find_safe_split_point, spec_nearest_seam.
  destruct words as [|w words].
  - exists 0. split; [done|]. left. split; [done|]. simpl. intros; lia.
  - destruct (scan_down_spec (w :: words) (length (w :: words) - 1) Hne)
      as (sp & Hsp & Hcases); [simpl; lia|].
    exists sp. split; [done|].
    destruct Hcases as [[-> Hnone]|(i & Hi & Hseam & Hnone)].
    + left. split; [done|]. intros i Hi. apply Hnone. lia.
    + right. exists i. split; [lia|]. split; [done|].
      intros k Hk. apply Hnone. lia.
Qed.

Lemma split_at_range words n k :
  split_at words n = Ok (Some k) →
  k = n ∨ (k = n + 1 ∧ ∃ w, words !! n = Some w ∧ ends_in "," w = true).
Proof.
  unfold split_at, ends_in.
  destruct (words !! n) as [w|]; [|done]. simpl.
  destruct (Py.last_char w) as [c|] eqn:Hw; [|done]. simpl.
  destruct (Ascii.eqb c ",") eqn:Hc.
  { intros [= <-]. right. split; [done|]. exists w. split; [done|].
    rewrite Hw. simpl. by rewrite Hc. }
  destruct (Py.mem _ split_conjunctions); [intros [= <-]; by left|].
  destruct (_ <? _)%nat.
  - destruct (words !! (n + 1)) as [x|]; [|done]. simpl.
    destruct (Py.first_char x); [|done]. simpl.
    destruct (_ && _); [intros [= <-]; by left | done].
  - simpl. done.
Qed.

Lemma scan_down_range words n k :
  scan_down words n = Ok k →
  k = 0 ∨ ∃ i, 1 ≤ i ≤ n ∧
    (k = i ∨ (k = i + 1 ∧ ∃ w, words !! i = Some w ∧ ends_in "," w = true)).
Proof.
  induction n as [|n IH]; cbn [scan_down].
  - intros [= <-]. by left.
  - destruct (split_at words (S n)) as [[r|]|] eqn:Hat; simpl; [| |done].
    + intros [= ->]. right. exists (S n). split; [lia|].
      by apply split_at_range.
    + intros Hk. destruct (IH Hk) as [->|(i & Hi & Hcase)]; [by left|].
      right. exists i. split; [lia | done].
Qed.

Lemma find_safe_split_point_range words i :
  words ≠ [] →
  (∀ w, last words = Some w → ends_in ".!?," w = false) →
  _find_safe_split_point words = Ok i → 0 < i →
  1 ≤ i ≤ length words - 1.
Proof.
  intros Hne Hlast Hi Hpos. unfold _find_safe_split_point in Hi.
  destruct (scan_down_range _ _ _ Hi) as [->|(k & Hk & [->|[-> (w & Hw & Hcomma)]])];
    [lia | lia |].
  split; [lia|].
  destruct (decide (k = length words - 1)) as [->|]; [|lia].
  replace (length words - 1) with (pred (length words)) in Hw by lia.
  rewrite <- last_lookup in Hw.
  apply Hlast in Hw. apply ends_in_comma in Hcomma. congruence.
Qed.

Lemma take_drop_nonempty {A} (l : list A) i :
  1 ≤ i ≤ length l - 1 → take i l ≠ [] ∧ drop i l ≠ [].
Proof.
  intros Hi. split; intros Hnil; apply (f_equal length) in Hnil.
  - rewrite length_take in Hnil. simpl in Hnil. lia.
  - rewrite length_drop in Hnil. simpl in Hnil. lia.
Qed.

(** ** [_try_dispatch] *)

Lemma ends_in_false_inv chars text :
  text ≠ EmptyString → ends_in chars text = false →
  ∃ c, Py.last_char text = Some c ∧ Py.char_in c chars = false.
Proof.
  intros Hne Hends. unfold ends_in in Hends.
  destruct (last_char_is_Some text) as [c Hc]; [by apply is_empty_false|].
  rewrite Hc in Hends. eauto.
Qed.

Lemma reaches_rule4_last_word force e :
  reaches_rule4 force e →
  ∀ w, last (Py.split (Py.strip (buffer e))) = Some w → ends_in ".!?," w = false.
Proof.
  intros (Hne & _ & Hends & _) w Hw.
  destruct (ends_in_false_inv _ _ Hne Hends) as (c & Hc & Hin).
  destruct (split_strip_last _ _ Hc) as (x & Hx & Hxc).
  assert (x = w) as -> by congruence.
  unfold ends_in. by rewrite Hxc.
Qed.

Lemma reaches_rule4_words force e :
  reaches_rule4 force e → Py.split (Py.strip (buffer e)) ≠ [].
Proof.
  intros (Hne & _ & Hends & _) Hnil.
  destruct (ends_in_false_inv _ _ Hne Hends) as (c & Hc & Hin).
  destruct (split_strip_last _ _ Hc) as (x & Hx & Hxc).
  by rewrite Hnil in Hx.
Qed.

(** Past its guards, a flush does what rule 4 says with the split point. *)
Lemma try_dispatch_rule4 force e sp :
  reaches_rule4 force e →
  let text := Py.strip (buffer e) in
  let words := Py.split text in
  _find_safe_split_point words = Ok sp →
  _try_dispatch force e =
    (Ok (),
     if 0 <? sp
     then set_buffer (Py.join " " (drop sp words) +:+ " ")
            (_do_dispatch (Py.join " " (take sp words)) e)
     else _do_dispatch text e).
Proof.
  intros (Hne & Hmin & Hends & Hhold & Hlen) text words Hsp.
  destruct (ends_in_false_inv _ _ Hne Hends) as (c & Hc & Hin).
  apply is_empty_false in Hne.
  unfold _try_dispatch, bind, get, lift, ret, modify.
  fold text in Hne, Hmin, Hhold, Hlen, Hc |- *.
  fold words in Hmin, Hhold, Hlen |- *.
  clearbody words. clearbody text.
  rewrite Hne, Hc. cbn [index_or_raise]. rewrite Hin, Hsp.
  destruct force; cbn [negb andb orb].
  - rewrite orb_true_r. by destruct (0 <? sp).
  - specialize (Hmin eq_refl). specialize (Hhold eq_refl).
    destruct Hlen as [Hlen|]; [|done].
    apply Nat.leb_le in Hlen as Hlen'. rewrite Hlen'.
    assert ((length words <? 2) = false) as -> by (apply Nat.ltb_ge; lia).
    destruct (last words) as [w|] eqn:Hw.
    + cbn [index_or_raise]. rewrite (Hhold w eq_refl).
      by destruct (0 <? sp).
    + apply last_None in Hw. subst words. simpl in Hmin. lia.
Qed.

Lemma rule4_split_parts_nonempty force e sp :
  reaches_rule4 force e →
  let words := Py.split (Py.strip (buffer e)) in
  _find_safe_split_point words = Ok sp → 0 < sp →
  take sp words ≠ [] ∧ drop sp words ≠ [].
Proof.
  intros Hr words Hsp Hpos. apply take_drop_nonempty.
  eapply find_safe_split_point_range; eauto using reaches_rule4_words, reaches_rule4_last_word.
Qed.





(** C10.  On a non-empty word list whose last word does not end in one of
    [.!?,], a positive result [i] of [_find_safe_split_point] satisfies
    [1 <= i <= len(words) - 1], so [words[:i]] and [words[i:]] are both
    non-empty. *)
Theorem split_point_in_range (words : list string) (i : nat) :
  words ≠ [] →
  (∀ w, last words = Some w → ends_in ".!?," w = false) →
  _find_safe_split_point words = Ok i →
  0 < i →
  1 ≤ i ≤ length words - 1 ∧ take i words ≠ [] ∧ drop i words ≠ [].
Proof.
  intros Hne Hlast Hi Hpos.
  pose proof (find_safe_split_point_range words i Hne Hlast Hi Hpos) as Hrange.
  split; [done|]. by apply take_drop_nonempty.
Qed.

Lemma split_point_in_range_witness :
  1 ≤ 3 ≤ length ["I"; "like"; "apples,"; "pears"] - 1 ∧
  take 3 ["I"; "like"; "apples,"; "pears"] ≠ [] ∧
  drop 3 ["I"; "like"; "apples,"; "pears"] ≠ [].
Proof.
  apply (split_point_in_range ["I"; "like"; "apples,"; "pears"] 3).
  - discriminate.
  - intros w Hw. vm_compute in Hw. by injection Hw as <-.
  - reflexivity.
  - lia.
Defined.

(** ** The scenarios of the specification *)

Example split_point_and :
  _find_safe_split_point
    ["one"; "two"; "three"; "four"; "five"; "and"; "seven"; "eight"; "nine"; "ten"]
  = Ok 5.
Proof. reflexivity. Qed.

Example split_point_comma :
  _find_safe_split_point ["a"; "b,"; "c"; "d"] = Ok 2.
Proof. reflexivity. Qed.

Example split_point_preposition :
  _find_safe_split_point ["we"; "went"; "to"; "Paris"; "today"] = Ok 2.
Proof. reflexivity. Qed.

(** The first word is never looked at. *)
Example split_point_first_word :
  _find_safe_split_point ["Hello,"; "my"; "friend"] = Ok 0.
Proof. reflexivity. Qed.

(** The scan stops at the seam nearest to the end, of whatever kind: a
    conjunction after a comma wins over the comma. *)
Example split_point_nearest :
  _find_safe_split_point ["I"; "like"; "apples,"; "pears"; "and"; "plums"] = Ok 4.
Proof. reflexivity. Qed.

(** Tokens "Hello", " there", ",": the comma dispatches the whole buffer. *)
Example hello_there :
  let e := run [EvToken "Hello"; EvToken " there"; EvToken ","]
             (init (Some Callable) (Some Callable) true) in
  tasks e = [Task "Hello there," Pending] ∧ buffer e = EmptyString.
Proof. vm_compute. split; reflexivity. Qed.

(** A forced flush of a blank buffer dispatches nothing. *)
Example forced_flush_of_blank_buffer :
  tasks (after (_try_dispatch true)
           (set_buffer "   " (init (Some Callable) (Some Callable) true))) = [].
Proof. vm_compute. reflexivity. Qed.

(** ** What a flush can do to the engine *)

Lemma flushed_id e : e = flushed None (buffer e) (silence_task e) e.
Proof. by destruct e. Qed.

Lemma flushed_do_dispatch text e :
  ∃ st, _do_dispatch text e = flushed (Some text) EmptyString st e.
Proof.
  unfold _do_dispatch, cancel_silence_task, flushed. simpl.
  destruct (silence_task e) eqn:Hst.
  - by exists (Some Finished).
  - exists None. by rewrite <- Hst.
Qed.

Lemma flushed_set_buffer b d b' st e :
  set_buffer b (flushed d b' st e) = flushed d b st e.
Proof. reflexivity. Qed.

Lemma flushed_set_silence_task st d b st' e :
  set_silence_task st (flushed d b st' e) = flushed d b st e.
Proof. reflexivity. Qed.

Lemma try_dispatch_flushed force e :
  ∃ d b st, _try_dispatch force e = (Ok (), flushed d b st e).
Proof.
  pose proof (flushed_id e) as Hid.
  assert (∃ d b st, (Ok (), e) = (Ok (), flushed d b st e)) as Hnone.
  { exists None, (buffer e), (silence_task e). by rewrite <- Hid. }
  assert (∀ text, ∃ d b st,
            (Ok (), _do_dispatch text e) = (Ok (), flushed d b st e)) as Hall.
  { intros text. destruct (flushed_do_dispatch text e) as [st ->]. eauto. }
  unfold _try_dispatch, bind, get, lift, ret, modify.
  set (text := Py.strip (buffer e)). set (words := Py.split text).
  destruct (Py.is_empty text) eqn:Hne; [done|].
  destruct (negb force && (length words <? 2)) eqn:Hmin; [done|].
  destruct (last_char_is_Some text Hne) as [c ->]. cbn [index_or_raise].
  destruct (Py.char_in c ".!?,"); [apply Hall|].
  destruct (find_safe_split_point_spec words) as (sp & Hsp & _);
    [apply split_nonempty|].
  assert (∃ d b st,
            (Ok (), set_buffer (Py.join " " (drop sp words) +:+ " ")
                      (_do_dispatch (Py.join " " (take sp words)) e))
            = (Ok (), flushed d b st e)) as Hsplit.
  { destruct (flushed_do_dispatch (Py.join " " (take sp words)) e) as [st ->].
    rewrite flushed_set_buffer. eauto. }
  destruct force; cbn [negb andb orb] in *.
  - rewrite orb_true_r, Hsp. destruct (0 <? sp); [apply Hsplit | apply Hall].
  - destruct (last words) as [w|] eqn:Hw.
    + cbn [index_or_raise]. destruct (Py.mem _ _); [done|].
      rewrite orb_false_r. destruct (8 <=? length words); [|done].
      rewrite Hsp. destruct (0 <? sp); [apply Hsplit | apply Hall].
    + apply last_None in Hw. rewrite Hw in Hmin. done.
Qed.

Lemma try_dispatch_ok force e : outcome (_try_dispatch force) e = Ok ().
Proof.
  unfold outcome. by destruct (try_dispatch_flushed force e) as (? & ? & ? & ->).
Qed.

Lemma try_dispatch_after force e :
  _try_dispatch force e = (Ok (), after (_try_dispatch force) e).
Proof.
  unfold after. by destruct (try_dispatch_flushed force e) as (? & ? & ? & ->).
Qed.

(** ** [generate_and_speak] *)

Lemma consume_run tokens full_response e :
  consume tokens full_response e =
  (Ok (fold_left String.append tokens full_response), run (EvToken <$> tokens) e).
Proof.
  revert full_response e. induction tokens as [|token tokens IH]; intros full e.
  - reflexivity.
  - cbn [consume fmap list_fmap run fold_left step].
    unfold bind, modify, after.
    rewrite try_dispatch_after. cbn [snd]. apply IH.
Qed.

Lemma generate_and_speak_unfold user_input llm e :
  generate_and_speak user_input llm e =
  match llm with
  | ChatRaises => (Raise TypeError, _queue_tts_generation FALLBACK_PHRASE e)
  | Stream tokens false =>
      (Raise TypeError,
       _queue_tts_generation FALLBACK_PHRASE (run (EvToken <$> tokens) e))
  | Stream tokens true =>
      (Ok (),
       remember user_input (reply_text tokens)
         (run ((EvToken <$> tokens) ++ [EvStreamEnd]) e))
  end.
Proof.
  unfold generate_and_speak, try_except.
  destruct llm as [|tokens []]; [done| |].
  - unfold bind. rewrite consume_run, try_dispatch_after.
    unfold modify, run. by rewrite fold_left_app.
  - unfold bind. by rewrite consume_run.
Qed.

(** C4.  When the LLM call raises, at once or in the middle of the
    stream, [generate_and_speak] queues a task for the fallback phrase
    at the tail of the queue, and then raises TypeError to its caller:
    the handler awaits the [None] that [_queue_tts_generation]
    returned. *)
Theorem llm_failure_raises_TypeError (user_input : string) (e : engine) :
  (outcome (generate_and_speak user_input ChatRaises) e = Raise TypeError ∧
   tasks (after (generate_and_speak user_input ChatRaises) e) =
     tasks e ++ [Task FALLBACK_PHRASE Pending] ∧
   audio_queue (after (generate_and_speak user_input ChatRaises) e) =
     audio_queue e ++ [length (tasks e)]) ∧
  ∀ tokens,
    let e1 := run (EvToken <$> tokens) e in
    outcome (generate_and_speak user_input (Stream tokens false)) e = Raise TypeError ∧
    tasks (after (generate_and_speak user_input (Stream tokens false)) e) =
      tasks e1 ++ [Task FALLBACK_PHRASE Pending] ∧
    audio_queue (after (generate_and_speak user_input (Stream tokens false)) e) =
      audio_queue e1 ++ [length (tasks e1)].
Proof.
  split; [|intros tokens e1]; unfold outcome, after;
    rewrite generate_and_speak_unfold; done.
Qed.

(** ** [interrupt] *)

Lemma cancel_task_length j ts : length (cancel_task j ts) = length ts.
Proof.
  unfold cancel_task. destruct (ts !! j) as [[text []]|]; try done.
  apply length_insert.
Qed.

Lemma drain_length queue ts : length (drain queue ts) = length ts.
Proof.
  revert ts. induction queue as [|j queue IH]; intros ts; [done|].
  cbn [drain]. by rewrite IH, cancel_task_length.
Qed.

Lemma cancel_task_lookup j ts i :
  cancel_task j ts !! i =
  if decide (i = j)
  then (λ t, match state t with
             | Pending => Task (phrase t) Cancelled
             | _ => t
             end) <$> ts !! i
  else ts !! i.
Proof.
  unfold cancel_task. destruct (decide (i = j)) as [->|Hne].
  - destruct (ts !! j) as [[text st]|] eqn:Hj; [|by rewrite Hj].
    destruct st; rewrite ?Hj; try done.
    rewrite list_lookup_insert_eq; [done|]. by eapply lookup_lt_Some.
  - destruct (ts !! j) as [[text []]|]; try done.
    by rewrite list_lookup_insert_ne.
Qed.

Lemma interrupt_unfold e :
  interrupt e =
  if truthy (mute_callback e)
  then match unmute_callback e with
       | Some _ => (Ok (), set_is_speaking false (log_hook Unmute (interrupted e)))
       | None => (Raise TypeError, interrupted e)
       end
  else (Ok (), set_is_speaking false (interrupted e)).
Proof.
  destruct e as [[[]|] [[]|] k se q ts sp b [st|] h f w hl pl];
    vm_compute; reflexivity.
Qed.

Lemma after_interrupt e :
  after interrupt e =
  if truthy (mute_callback e)
  then match unmute_callback e with
       | Some _ => set_is_speaking false (log_hook Unmute (interrupted e))
       | None => interrupted e
       end
  else set_is_speaking false (interrupted e).
Proof.
  unfold after. rewrite interrupt_unfold.
  by destruct (truthy _), (unmute_callback e).
Qed.

Lemma after_stop e :
  after stop e =
  match outcome interrupt (set_stop_event true e) with
  | Ok _ => cancel_playback_task (after interrupt (set_stop_event true e))
  | Raise _ => after interrupt (set_stop_event true e)
  end.
Proof.
  unfold after, outcome, stop, bind, modify.
  by destruct (interrupt (set_stop_event true e)) as [[[]|x] e1].
Qed.

Lemma mute_callback_interrupted e : mute_callback (interrupted e) = mute_callback e.
Proof. unfold interrupted. autorewrite with fields. by rewrite ?drain_length. Qed.
Lemma unmute_callback_interrupted e : unmute_callback (interrupted e) = unmute_callback e.
Proof. unfold interrupted. autorewrite with fields. by rewrite ?drain_length. Qed.
Lemma kokoro_interrupted e : kokoro (interrupted e) = kokoro e.
Proof. unfold interrupted. autorewrite with fields. by rewrite ?drain_length. Qed.
Lemma stop_event_interrupted e : stop_event (interrupted e) = stop_event e.
Proof. unfold interrupted. autorewrite with fields. by rewrite ?drain_length. Qed.
Lemma audio_queue_interrupted e : audio_queue (interrupted e) = [length (tasks e)].
Proof. unfold interrupted. autorewrite with fields. by rewrite ?drain_length. Qed.
Lemma tasks_interrupted e :
  tasks (interrupted e) =
  drain (audio_queue e) (tasks e) ++ [Task EmptyString Pending].
Proof. unfold interrupted. autorewrite with fields. by rewrite ?drain_length. Qed.
Lemma is_speaking_interrupted e : is_speaking (interrupted e) = is_speaking e.
Proof. unfold interrupted. autorewrite with fields. by rewrite ?drain_length. Qed.
Lemma buffer_interrupted e : buffer (interrupted e) = EmptyString.
Proof. unfold interrupted. autorewrite with fields. by rewrite ?drain_length. Qed.
Lemma silence_task_interrupted e :
  silence_task (interrupted e) =
  match silence_task e with Some _ => Some Finished | None => None end.
Proof. unfold interrupted. autorewrite with fields. by rewrite ?drain_length. Qed.
Lemma history_interrupted e : history (interrupted e) = history e.
Proof. unfold interrupted. autorewrite with fields. by rewrite ?drain_length. Qed.
Lemma fs_interrupted e : fs (interrupted e) = fs e.
Proof. unfold interrupted. autorewrite with fields. by rewrite ?drain_length. Qed.
Lemma worker_interrupted e : worker (interrupted e) = worker e.
Proof. unfold interrupted. autorewrite with fields. by rewrite ?drain_length. Qed.
Lemma hook_log_interrupted e : hook_log (interrupted e) = hook_log e.
Proof. unfold interrupted. autorewrite with fields. by rewrite ?drain_length. Qed.
Lemma played_interrupted e : played (interrupted e) = played e.
Proof. unfold interrupted. autorewrite with fields. by rewrite ?drain_length. Qed.

#[global] Hint Rewrite
  mute_callback_interrupted unmute_callback_interrupted kokoro_interrupted stop_event_interrupted
  audio_queue_interrupted tasks_interrupted is_speaking_interrupted buffer_interrupted
  silence_task_interrupted history_interrupted fs_interrupted worker_interrupted
  hook_log_interrupted played_interrupted : fields.

Lemma mute_callback_after_interrupt e : mute_callback (after interrupt e) = mute_callback e.
Proof. rewrite after_interrupt. destruct (truthy _), (unmute_callback e) eqn:Hu; by autorewrite with fields. Qed.
Lemma unmute_callback_after_interrupt e : unmute_callback (after interrupt e) = unmute_callback e.
Proof. rewrite after_interrupt. destruct (truthy _), (unmute_callback e) eqn:Hu; by autorewrite with fields. Qed.
Lemma kokoro_after_interrupt e : kokoro (after interrupt e) = kokoro e.
Proof. rewrite after_interrupt. destruct (truthy _), (unmute_callback e) eqn:Hu; by autorewrite with fields. Qed.
Lemma stop_event_after_interrupt e : stop_event (after interrupt e) = stop_event e.
Proof. rewrite after_interrupt. destruct (truthy _), (unmute_callback e) eqn:Hu; by autorewrite with fields. Qed.
Lemma audio_queue_after_interrupt e : audio_queue (after interrupt e) = [length (tasks e)].
Proof. rewrite after_interrupt. destruct (truthy _), (unmute_callback e) eqn:Hu; by autorewrite with fields. Qed.
Lemma tasks_after_interrupt e :
  tasks (after interrupt e) =
  drain (audio_queue e) (tasks e) ++ [Task EmptyString Pending].
Proof. rewrite after_interrupt. destruct (truthy _), (unmute_callback e) eqn:Hu; by autorewrite with fields. Qed.
Lemma buffer_after_interrupt e : buffer (after interrupt e) = EmptyString.
Proof. rewrite after_interrupt. destruct (truthy _), (unmute_callback e) eqn:Hu; by autorewrite with fields. Qed.
Lemma silence_task_after_interrupt e :
  silence_task (after interrupt e) =
  match silence_task e with Some _ => Some Finished | None => None end.
Proof. rewrite after_interrupt. destruct (truthy _), (unmute_callback e) eqn:Hu; by autorewrite with fields. Qed.
Lemma history_after_interrupt e : history (after interrupt e) = history e.
Proof. rewrite after_interrupt. destruct (truthy _), (unmute_callback e) eqn:Hu; by autorewrite with fields. Qed.
Lemma fs_after_interrupt e : fs (after interrupt e) = fs e.
Proof. rewrite after_interrupt. destruct (truthy _), (unmute_callback e) eqn:Hu; by autorewrite with fields. Qed.
Lemma worker_after_interrupt e : worker (after interrupt e) = worker e.
Proof. rewrite after_interrupt. destruct (truthy _), (unmute_callback e) eqn:Hu; by autorewrite with fields. Qed.
Lemma played_after_interrupt e : played (after interrupt e) = played e.
Proof. rewrite after_interrupt. destruct (truthy _), (unmute_callback e) eqn:Hu; by autorewrite with fields. Qed.

#[global] Hint Rewrite
  mute_callback_after_interrupt unmute_callback_after_interrupt kokoro_after_interrupt stop_event_after_interrupt
  audio_queue_after_interrupt tasks_after_interrupt buffer_after_interrupt silence_task_after_interrupt
  history_after_interrupt fs_after_interrupt worker_after_interrupt played_after_interrupt : fields.

Lemma mute_callback_cancel_playback_task e :
  mute_callback (cancel_playback_task e) =
  mute_callback e.
Proof. unfold cancel_playback_task. destruct (worker e); by autorewrite with fields. Qed.
Lemma unmute_callback_cancel_playback_task e :
  unmute_callback (cancel_playback_task e) =
  unmute_callback e.
Proof. unfold cancel_playback_task. destruct (worker e); by autorewrite with fields. Qed.
Lemma kokoro_cancel_playback_task e : kokoro (cancel_playback_task e) = kokoro e.
Proof. unfold cancel_playback_task. destruct (worker e); by autorewrite with fields. Qed.
Lemma stop_event_cancel_playback_task e : stop_event (cancel_playback_task e) = stop_event e.
Proof. unfold cancel_playback_task. destruct (worker e); by autorewrite with fields. Qed.
Lemma audio_queue_cancel_playback_task e : audio_queue (cancel_playback_task e) = audio_queue e.
Proof. unfold cancel_playback_task. destruct (worker e); by autorewrite with fields. Qed.
Lemma is_speaking_cancel_playback_task e : is_speaking (cancel_playback_task e) = is_speaking e.
Proof. unfold cancel_playback_task. destruct (worker e); by autorewrite with fields. Qed.
Lemma buffer_cancel_playback_task e : buffer (cancel_playback_task e) = buffer e.
Proof. unfold cancel_playback_task. destruct (worker e); by autorewrite with fields. Qed.
Lemma silence_task_cancel_playback_task e : silence_task (cancel_playback_task e) = silence_task e.
Proof. unfold cancel_playback_task. destruct (worker e); by autorewrite with fields. Qed.
Lemma history_cancel_playback_task e : history (cancel_playback_task e) = history e.
Proof. unfold cancel_playback_task. destruct (worker e); by autorewrite with fields. Qed.
Lemma fs_cancel_playback_task e : fs (cancel_playback_task e) = fs e.
Proof. unfold cancel_playback_task. destruct (worker e); by autorewrite with fields. Qed.
Lemma worker_cancel_playback_task e : worker (cancel_playback_task e) = Exited.
Proof. unfold cancel_playback_task. destruct (worker e); by autorewrite with fields. Qed.
Lemma hook_log_cancel_playback_task e : hook_log (cancel_playback_task e) = hook_log e.
Proof. unfold cancel_playback_task. destruct (worker e); by autorewrite with fields. Qed.
Lemma played_cancel_playback_task e : played (cancel_playback_task e) = played e.
Proof. unfold cancel_playback_task. destruct (worker e); by autorewrite with fields. Qed.

#[global] Hint Rewrite
  mute_callback_cancel_playback_task unmute_callback_cancel_playback_task kokoro_cancel_playback_task stop_event_cancel_playback_task
  audio_queue_cancel_playback_task is_speaking_cancel_playback_task buffer_cancel_playback_task silence_task_cancel_playback_task
  history_cancel_playback_task fs_cancel_playback_task worker_cancel_playback_task hook_log_cancel_playback_task
  played_cancel_playback_task : fields.

Lemma mute_callback_finish_generation j fname r e :
  mute_callback (finish_generation j fname r e) =
  mute_callback e.
Proof. unfold finish_generation. repeat case_match; by autorewrite with fields. Qed.
Lemma unmute_callback_finish_generation j fname r e :
  unmute_callback (finish_generation j fname r e) =
  unmute_callback e.
Proof. unfold finish_generation. repeat case_match; by autorewrite with fields. Qed.
Lemma kokoro_finish_generation j fname r e : kokoro (finish_generation j fname r e) = kokoro e.
Proof. unfold finish_generation. repeat case_match; by autorewrite with fields. Qed.
Lemma stop_event_finish_generation j fname r e :
  stop_event (finish_generation j fname r e) =
  stop_event e.
Proof. unfold finish_generation. repeat case_match; by autorewrite with fields. Qed.
Lemma audio_queue_finish_generation j fname r e :
  audio_queue (finish_generation j fname r e) =
  audio_queue e.
Proof. unfold finish_generation. repeat case_match; by autorewrite with fields. Qed.
Lemma is_speaking_finish_generation j fname r e :
  is_speaking (finish_generation j fname r e) =
  is_speaking e.
Proof. unfold finish_generation. repeat case_match; by autorewrite with fields. Qed.
Lemma buffer_finish_generation j fname r e : buffer (finish_generation j fname r e) = buffer e.
Proof. unfold finish_generation. repeat case_match; by autorewrite with fields. Qed.
Lemma silence_task_finish_generation j fname r e :
  silence_task (finish_generation j fname r e) =
  silence_task e.
Proof. unfold finish_generation. repeat case_match; by autorewrite with fields. Qed.
Lemma history_finish_generation j fname r e : history (finish_generation j fname r e) = history e.
Proof. unfold finish_generation. repeat case_match; by autorewrite with fields. Qed.
Lemma worker_finish_generation j fname r e : worker (finish_generation j fname r e) = worker e.
Proof. unfold finish_generation. repeat case_match; by autorewrite with fields. Qed.
Lemma hook_log_finish_generation j fname r e :
  hook_log (finish_generation j fname r e) =
  hook_log e.
Proof. unfold finish_generation. repeat case_match; by autorewrite with fields. Qed.
Lemma played_finish_generation j fname r e : played (finish_generation j fname r e) = played e.
Proof. unfold finish_generation. repeat case_match; by autorewrite with fields. Qed.

#[global] Hint Rewrite
  mute_callback_finish_generation unmute_callback_finish_generation kokoro_finish_generation stop_event_finish_generation
  audio_queue_finish_generation is_speaking_finish_generation buffer_finish_generation silence_task_finish_generation
  history_finish_generation worker_finish_generation hook_log_finish_generation played_finish_generation : fields.

Lemma mute_callback_playback_worker ok e : mute_callback (_playback_worker ok e) = mute_callback e.
Proof. unfold _playback_worker, worker_loop_head, worker_after_await, worker_after_play. repeat case_match; by autorewrite with fields. Qed.
Lemma unmute_callback_playback_worker ok e :
  unmute_callback (_playback_worker ok e) =
  unmute_callback e.
Proof. unfold _playback_worker, worker_loop_head, worker_after_await, worker_after_play. repeat case_match; by autorewrite with fields. Qed.
Lemma kokoro_playback_worker ok e : kokoro (_playback_worker ok e) = kokoro e.
Proof. unfold _playback_worker, worker_loop_head, worker_after_await, worker_after_play. repeat case_match; by autorewrite with fields. Qed.
Lemma stop_event_playback_worker ok e : stop_event (_playback_worker ok e) = stop_event e.
Proof. unfold _playback_worker, worker_loop_head, worker_after_await, worker_after_play. repeat case_match; by autorewrite with fields. Qed.
Lemma tasks_playback_worker ok e : tasks (_playback_worker ok e) = tasks e.
Proof. unfold _playback_worker, worker_loop_head, worker_after_await, worker_after_play. repeat case_match; by autorewrite with fields. Qed.
Lemma buffer_playback_worker ok e : buffer (_playback_worker ok e) = buffer e.
Proof. unfold _playback_worker, worker_loop_head, worker_after_await, worker_after_play. repeat case_match; by autorewrite with fields. Qed.
Lemma silence_task_playback_worker ok e : silence_task (_playback_worker ok e) = silence_task e.
Proof. unfold _playback_worker, worker_loop_head, worker_after_await, worker_after_play. repeat case_match; by autorewrite with fields. Qed.
Lemma history_playback_worker ok e : history (_playback_worker ok e) = history e.
Proof. unfold _playback_worker, worker_loop_head, worker_after_await, worker_after_play. repeat case_match; by autorewrite with fields. Qed.

#[global] Hint Rewrite
  mute_callback_playback_worker unmute_callback_playback_worker kokoro_playback_worker stop_event_playback_worker
  tasks_playback_worker buffer_playback_worker silence_task_playback_worker history_playback_worker : fields.

(** C2.  Whatever the prior state, [interrupt] does not leave the audio
    queue empty: resetting the buffer through [_do_dispatch] on the empty string invokes
    the dispatch callback with the empty phrase, so one new pending task
    for [EmptyString] is in the queue when [interrupt] is over. *)
Theorem interrupt_leaves_a_task_queued (e : engine) :
  audio_queue (after interrupt e) = [length (tasks e)] ∧
  tasks (after interrupt e) !! length (tasks e) = Some (Task EmptyString Pending) ∧
  audio_queue (after interrupt e) ≠ [].
Proof.
  rewrite audio_queue_after_interrupt, tasks_after_interrupt.
  split; [done|]. split; [|done].
  rewrite lookup_app_r; rewrite drain_length; [|lia].
  by rewrite Nat.sub_diag.
Qed.

(** What [interrupt] does achieve: no task that was in the queue is left
    pending, the buffer is empty, and Speaking is false whenever the call
    returns. *)
Lemma cancel_task_not_pending j ts i :
  state <$> ts !! i ≠ Some Pending ∨ i = j →
  i < length ts →
  state <$> cancel_task j ts !! i ≠ Some Pending.
Proof.
  intros Hcase Hi. rewrite cancel_task_lookup.
  destruct (lookup_lt_is_Some_2 ts i Hi) as [[text st] Hlook].
  rewrite Hlook in *. cbn [fmap option_fmap option_map state] in *.
  destruct (decide (i = j)) as [->|Hne].
  - cbn [fmap option_fmap option_map state phrase]. by destruct st.
  - destruct Hcase as [Hcase|Heq]; [done | by subst].
Qed.

Lemma drain_not_pending queue ts i :
  state <$> ts !! i ≠ Some Pending ∨ i ∈ queue →
  i < length ts →
  state <$> drain queue ts !! i ≠ Some Pending.
Proof.
  revert ts. induction queue as [|j queue IH]; intros ts Hcase Hi.
  - destruct Hcase as [Hcase|Hin]; [done | by apply elem_of_nil in Hin].
  - cbn [drain]. apply IH; [|by rewrite cancel_task_length].
    destruct (decide (i = j)) as [->|Hne].
    + left. apply cancel_task_not_pending; [by right | done].
    + destruct Hcase as [Hcase|Hin].
      * left. apply cancel_task_not_pending; [by left | done].
      * right. apply elem_of_cons in Hin as [?|?]; [done | done].
Qed.

Lemma interrupt_drains_and_resets (e : engine) :
  (∀ j, j ∈ audio_queue e → j < length (tasks e) →
        task_state_at j (after interrupt e) ≠ Some Pending) ∧
  buffer (after interrupt e) = EmptyString ∧
  (outcome interrupt e = Ok () → is_speaking (after interrupt e) = false).
Proof.
  split; [|split].
  - intros j Hj Hlen. unfold task_state_at. rewrite tasks_after_interrupt.
    rewrite lookup_app_l by (by rewrite drain_length).
    apply drain_not_pending; [by right | done].
  - by autorewrite with fields.
  - unfold outcome. rewrite after_interrupt, interrupt_unfold.
    destruct (truthy (mute_callback e)), (unmute_callback e);
      cbn [fst]; intros; by autorewrite with fields.
Qed.

(** C6.  A second [interrupt] right after a first is not a no-op: it
    takes the task the first call dispatched out of the queue, cancels
    it, invokes the dispatch callback once more and queues yet another
    task, so the queue and the task table both differ from what the
    first call left. *)
Theorem interrupt_twice_changes_state (e : engine) :
  let e1 := after interrupt e in
  let e2 := after interrupt e1 in
  audio_queue e1 = [length (tasks e)] ∧
  audio_queue e2 = [S (length (tasks e))] ∧
  task_state_at (length (tasks e)) e1 = Some Pending ∧
  task_state_at (length (tasks e)) e2 = Some Cancelled ∧
  length (tasks e2) = S (length (tasks e1)) ∧
  e2 ≠ e1.
Proof.
  intros e1 e2.
  assert (audio_queue e1 = [length (tasks e)]) as Hq1
    by apply audio_queue_after_interrupt.
  assert (tasks e1 = drain (audio_queue e) (tasks e) ++ [Task EmptyString Pending]) as Ht1
    by apply tasks_after_interrupt.
  assert (length (tasks e1) = S (length (tasks e))) as Hlen1.
  { rewrite Ht1, length_app, drain_length. cbn [length]. lia. }
  assert (audio_queue e2 = [S (length (tasks e))]) as Hq2.
  { unfold e2. by rewrite audio_queue_after_interrupt, Hlen1. }
  assert (tasks e2 = drain (audio_queue e1) (tasks e1) ++ [Task EmptyString Pending]) as Ht2
    by apply tasks_after_interrupt.
  assert (tasks e1 !! length (tasks e) = Some (Task EmptyString Pending)) as Hnew.
  { rewrite Ht1, lookup_app_r; rewrite drain_length; [|lia].
    by rewrite Nat.sub_diag. }
  split; [done|]. split; [done|]. split; [|split; [|split]].
  - unfold task_state_at. by rewrite Hnew.
  - unfold task_state_at. rewrite Ht2, Hq1. cbn [drain].
    rewrite lookup_app_l by (rewrite cancel_task_length; lia).
    rewrite cancel_task_lookup, decide_True by done. by rewrite Hnew.
  - rewrite Ht2, length_app, drain_length. cbn [length]. lia.
  - intros Heq. rewrite Heq, Hq1 in Hq2. injection Hq2. lia.
Qed.

(** C9.  With an unmute callback, [interrupt] returns and resets
    Speaking; when no mute callback was given it calls no hook at all,
    and when one was given it calls unmute exactly once. *)
Theorem interrupt_unmute_gated_on_mute_callback (e : engine) :
  unmute_callback e ≠ None →
  outcome interrupt e = Ok () ∧
  is_speaking (after interrupt e) = false ∧
  (mute_callback e = None → hook_log (after interrupt e) = hook_log e) ∧
  (mute_callback e ≠ None → hook_log (after interrupt e) = hook_log e ++ [Unmute]).
Proof.
  intros Hun. unfold outcome. rewrite after_interrupt, interrupt_unfold.
  destruct (unmute_callback e) as [u|]; [|done].
  destruct (mute_callback e) as [m|]; cbn [truthy fst];
    autorewrite with fields; done.
Qed.

Lemma interrupt_unmute_gated_witness :
  hook_log (after interrupt (set_is_speaking true (init None (Some Callable) true))) = [] ∧
  is_speaking (after interrupt (set_is_speaking true (init None (Some Callable) true))) = false ∧
  hook_log (after interrupt (init (Some Callable) (Some Callable) true)) = [Unmute].
Proof.
  pose proof (interrupt_unmute_gated_on_mute_callback
                (set_is_speaking true (init None (Some Callable) true))) as H1.
  pose proof (interrupt_unmute_gated_on_mute_callback
                (init (Some Callable) (Some Callable) true)) as H2.
  destruct H1 as (_ & Hs & Hl & _); [discriminate|].
  destruct H2 as (_ & _ & _ & Hl2); [discriminate|].
  split; [exact (Hl eq_refl)|]. split; [exact Hs|].
  apply Hl2. discriminate.
Defined.

(** ** The segmenter events only flush *)

Lemma flushed_flushed_None d b st b' st' e :
  flushed d b st (flushed None b' st' e) = flushed d b st e.
Proof. by destruct d. Qed.

Lemma add_token_flushed token e :
  add_token token e = flushed None (buffer e +:+ token) (Some Armed) e.
Proof.
  unfold add_token, cancel_silence_task, flushed. simpl.
  by destruct (silence_task e).
Qed.

Lemma after_try_dispatch_flushed force e :
  ∃ d b st, after (_try_dispatch force) e = flushed d b st e.
Proof.
  unfold after. destruct (try_dispatch_flushed force e) as (d & b & st & ->).
  eauto.
Qed.

Lemma silence_watchdog_flushed e :
  ∃ d b st, after _silence_watchdog e = flushed d b st e.
Proof.
  unfold after, _silence_watchdog, bind, get, ret, modify.
  destruct (Py.is_empty _).
  - exists None, (buffer e), (Some Finished). cbn [snd].
    by rewrite (flushed_id e) at 1.
  - destruct (try_dispatch_flushed true e) as (d & b & st & ->).
    cbn [snd]. rewrite flushed_set_silence_task. eauto.
Qed.

Lemma token_event_flushed token e :
  ∃ d b st, step e (EvToken token) = flushed d b st e.
Proof.
  cbn [step]. unfold after, bind, modify.
  destruct (try_dispatch_flushed false (add_token token e)) as (d & b & st & ->).
  cbn [snd]. rewrite add_token_flushed, flushed_flushed_None. eauto.
Qed.

Lemma watchdog_event_flushed e :
  ∃ d b st, step e EvWatchdog = flushed d b st e.
Proof.
  assert (∃ d b st, e = flushed d b st e) as Hnone.
  { exists None, (buffer e), (silence_task e). apply flushed_id. }
  cbn [step]. destruct (silence_task e) as [[]|];
    [apply silence_watchdog_flushed | exact Hnone | exact Hnone].
Qed.

(** ** Conversation history *)

Lemma step_history e ev : history (step e ev) = history e.
Proof.
  destruct ev.
  - cbn [step]. by autorewrite with fields.
  - destruct (token_event_flushed token e) as (d & b & st & ->).
    by autorewrite with fields.
  - cbn [step]. destruct (after_try_dispatch_flushed true e) as (d & b & st & ->).
    by autorewrite with fields.
  - cbn [step]. by autorewrite with fields.
  - destruct (watchdog_event_flushed e) as (d & b & st & ->).
    by autorewrite with fields.
  - cbn [step]. by autorewrite with fields.
  - cbn [step]. rewrite after_stop.
    destruct (outcome interrupt _) as [[]|x]; by autorewrite with fields.
  - cbn [step]. by autorewrite with fields.
  - cbn [step]. by autorewrite with fields.
  - cbn [step]. by autorewrite with fields.
Qed.

Lemma run_history evs e : history (run evs e) = history e.
Proof.
  revert e. induction evs as [|ev evs IH]; intros e; [done|].
  cbn [run fold_left]. fold (run evs (step e ev)).
  by rewrite IH, step_history.
Qed.

Lemma last_n_short {A} k (l : list A) : length l ≤ k → Py.last_n k l = l.
Proof.
  intros Hl. unfold Py.last_n.
  by replace (length l - k) with 0 by lia.
Qed.

Lemma last_n_length {A} k (l : list A) : length (Py.last_n k l) ≤ k.
Proof. unfold Py.last_n. rewrite length_drop. lia. Qed.

Lemma last_n_app_last_n {A} k (a b : list A) :
  Py.last_n k (Py.last_n k a ++ b) = Py.last_n k (a ++ b).
Proof.
  destruct (decide (length a ≤ k)) as [Hle|Hgt].
  - by rewrite (last_n_short k a).
  - unfold Py.last_n. rewrite !length_app, length_drop.
    replace (length a - (length a - k) + length b - k) with (length b) by lia.
    replace (length a + length b - k) with ((length a - k) + length b) by lia.
    rewrite <- drop_drop. f_equal.
    rewrite drop_app_le by lia. done.
Qed.

Lemma apply_op_history e o :
  length (history e) ≤ HISTORY_CAP →
  history (apply_op e o) = Py.last_n HISTORY_CAP (history e ++ turns_of o).
Proof.
  intros Hlen. destruct o as [user_input llm|ev]; cbn [apply_op turns_of].
  - unfold after. rewrite generate_and_speak_unfold.
    destruct llm as [|tokens []]; cbn [snd turns_of].
    + autorewrite with fields. by rewrite app_nil_r, last_n_short.
    + unfold remember. autorewrite with fields. rewrite run_history.
      case_match eqn:Hcap; [done|].
      apply Nat.ltb_ge in Hcap. by rewrite last_n_short.
    + autorewrite with fields. by rewrite run_history, app_nil_r, last_n_short.
  - by rewrite step_history, app_nil_r, last_n_short.
Qed.

Lemma fold_apply_op_history ops e :
  length (history e) ≤ HISTORY_CAP →
  history (fold_left apply_op ops e) =
  Py.last_n HISTORY_CAP (history e ++ concat (turns_of <$> ops)).
Proof.
  revert e. induction ops as [|o ops IH]; intros e Hlen.
  - cbn. by rewrite app_nil_r, last_n_short.
  - cbn [fold_left fmap list_fmap concat].
    rewrite IH; rewrite apply_op_history by done; [|apply last_n_length].
    by rewrite last_n_app_last_n, <- app_assoc.
Qed.

Lemma paired_turns ops : paired (concat (turns_of <$> ops)).
Proof.
  induction ops as [|o ops IH]; [constructor|].
  cbn [fmap list_fmap concat].
  destruct o as [u [|tokens []]|]; cbn [turns_of app]; try done.
  by constructor.
Qed.

Lemma paired_even h : paired h → Nat.even (length h) = true.
Proof. induction 1; [done|]. by cbn. Qed.

Lemma paired_alternates h : paired h → alternates h.
Proof.
  induction 1 as [|u r h Hp IH]; intros i role text Hi; [done|].
  destruct i as [|[|i]]; cbn in Hi.
  - by injection Hi as <- <-.
  - by injection Hi as <- <-.
  - apply (IH i role text Hi).
Qed.

Lemma even_sub m k :
  Nat.even m = true → Nat.even k = true → Nat.even (m - k) = true.
Proof.
  rewrite !Nat.even_spec. intros [a ->] [b ->].
  exists (a - b). lia.
Qed.

Lemma alternates_last_n h :
  paired h → alternates (Py.last_n HISTORY_CAP h).
Proof.
  intros Hp i role text Hi. unfold Py.last_n in Hi.
  rewrite lookup_drop in Hi.
  apply (paired_alternates h Hp) in Hi.
  rewrite Nat.even_add in Hi.
  rewrite even_sub in Hi; [|by apply paired_even|done].
  by destruct (Nat.even i).
Qed.

(** C8.  From the empty history of a new engine, whatever is done to the
    engine, conversation turns or anything else in any order: the
    history holds at most 8 turns, they are the last 8 of all the turns
    that completed calls of [generate_and_speak] appended (two per call,
    oldest evicted first), and their roles alternate user, assistant,
    user, assistant, ... *)
Theorem history_bounded_fifo_alternating mute unmute tts_loaded (ops : list op) :
  let e := fold_left apply_op ops (init mute unmute tts_loaded) in
  length (history e) ≤ HISTORY_CAP ∧
  history e = Py.last_n HISTORY_CAP (concat (turns_of <$> ops)) ∧
  alternates (history e).
Proof.
  intros e.
  assert (history e = Py.last_n HISTORY_CAP (concat (turns_of <$> ops))) as ->.
  { unfold e. rewrite fold_apply_op_history; [done | cbn; lia]. }
  split; [apply last_n_length|]. split; [done|].
  apply alternates_last_n, paired_turns.
Qed.

(** ** The playback worker *)

(** C7.  When the worker, at its loop head, finds at the head of the
    queue a task that has returned the path of an existing file of fewer
    than 100 bytes, then after taking the task and resuming from its
    await it is back at the loop head with the rest of the queue: nothing
    was handed to the player, the file is still there, Speaking is false
    and the mute hook was not called (the only hook call possible is the
    unmute made before awaiting, when Speaking was true). *)
Theorem small_artifact_discarded (e : engine) (j : nat) (queue' : list nat)
    (temp_path : string) (size : nat) (ok1 ok2 : bool) :
  worker e = LoopHead →
  stop_event e = false →
  audio_queue e = j :: queue' →
  task_state_at j e = Some (Returned (Some temp_path)) →
  fs e !! temp_path = Some size →
  size < MIN_ARTIFACT_BYTES →
  let e' := _playback_worker ok2 (_playback_worker ok1 e) in
  worker e' = LoopHead ∧
  audio_queue e' = queue' ∧
  played e' = played e ∧
  fs e' = fs e ∧
  is_speaking e' = false ∧
  hook_log e' =
    hook_log e ++
    (if is_speaking e && truthy (unmute_callback e) then [Unmute] else []).
Proof.
  intros Hw Hstop Hq Htask Hfile Hsize e'.
  assert (_playback_worker ok1 e =
          set_worker (AwaitTask j) (unmute_if_speaking (set_audio_queue queue' e)))
    as Hpop.
  { unfold _playback_worker, worker_loop_head. by rewrite Hw, Hstop, Hq. }
  unfold e'. rewrite Hpop.
  set (e1 := set_worker (AwaitTask j) (unmute_if_speaking (set_audio_queue queue' e))).
  assert (worker e1 = AwaitTask j) as Hw1
    by (unfold e1; by autorewrite with fields).
  assert (task_state_at j e1 = Some (Returned (Some temp_path))) as Htask1.
  { unfold task_state_at, e1 in *. by autorewrite with fields. }
  assert (fs e1 !! temp_path = Some size) as Hfile1
    by (unfold e1; by autorewrite with fields).
  assert (_playback_worker ok2 e1 = set_worker LoopHead e1) as ->.
  { unfold _playback_worker. rewrite Hw1.
    unfold worker_after_await. rewrite Htask1.
    destruct (Py.is_empty temp_path); [done|]. rewrite Hfile1.
    apply Nat.ltb_lt in Hsize. by rewrite Hsize. }
  unfold e1. by autorewrite with fields.
Qed.

Lemma small_artifact_discarded_witness :
  let e' := _playback_worker true (_playback_worker true forty_bytes) in
  worker e' = LoopHead ∧ audio_queue e' = [] ∧ played e' = [] ∧
  fs e' = fs forty_bytes ∧ is_speaking e' = false ∧ hook_log e' = [].
Proof.
  apply (small_artifact_discarded forty_bytes 0 [] "/tmp/temp_audio_1.wav" 40
           true true); try reflexivity.
  unfold MIN_ARTIFACT_BYTES. lia.
Defined.

(** ** Order of playback *)

Lemma StronglySorted_sublist {A} (R : relation A) (l1 l2 : list A) :
  l1 `sublist_of` l2 → StronglySorted R l2 → StronglySorted R l1.
Proof.
  induction 1 as [|x l1 l2 Hsub IH|x l1 l2 Hsub IH]; intros Hs; [done| |].
  - apply StronglySorted_cons in Hs as [Hall Hs].
    apply StronglySorted_cons. split; [|by apply IH].
    eapply Forall_forall. intros y Hy.
    eapply Forall_forall in Hall; [done|]. by eapply sublist_subseteq.
  - apply StronglySorted_cons in Hs as [_ Hs]. by apply IH.
Qed.

Lemma Forall_sublist {A} (P : A → Prop) (l1 l2 : list A) :
  l1 `sublist_of` l2 → Forall P l2 → Forall P l1.
Proof.
  intros Hsub Hall. apply Forall_forall. intros x Hx.
  eapply Forall_forall in Hall; [done|]. by eapply sublist_subseteq.
Qed.

(** Dropping tasks from the pipeline keeps the order. *)
Lemma order_inv_sub e e' :
  pipeline e' `sublist_of` pipeline e →
  length (tasks e) ≤ length (tasks e') →
  order_inv e → order_inv e'.
Proof.
  intros Hsub Hlen [Hs Hb]. split.
  - by eapply StronglySorted_sublist.
  - eapply Forall_impl; [by eapply Forall_sublist|].
    cbv beta. intros; lia.
Qed.

Lemma order_inv_same e e' :
  pipeline e' = pipeline e →
  length (tasks e') = length (tasks e) →
  order_inv e → order_inv e'.
Proof.
  intros Hp Hlen. apply order_inv_sub; [by rewrite Hp | lia].
Qed.

(** Submitting a new task at the tail keeps the order. *)
Lemma order_inv_push l e e' :
  l `sublist_of` pipeline e →
  pipeline e' = l ++ [length (tasks e)] →
  length (tasks e') = S (length (tasks e)) →
  order_inv e → order_inv e'.
Proof.
  intros Hsub Hp Hlen [Hs Hb]. unfold order_inv. rewrite Hp, Hlen.
  pose proof (Forall_sublist _ _ _ Hsub Hb) as Hbl.
  split.
  - apply StronglySorted_app_2.
    + intros x y Hx Hy. apply list_elem_of_singleton in Hy as ->.
      by eapply Forall_forall in Hbl.
    + by eapply StronglySorted_sublist.
    + repeat constructor.
  - apply Forall_app. split.
    + eapply Forall_impl; [done|]. cbv beta. intros; lia.
    + repeat constructor.
Qed.

Lemma order_inv_queue text e : order_inv e → order_inv (_queue_tts_generation text e).
Proof.
  apply (order_inv_push (pipeline e)); [done| |].
  - unfold pipeline, awaited. autorewrite with fields. by rewrite !app_assoc.
  - autorewrite with fields. rewrite length_app. cbn [length]. lia.
Qed.

Lemma order_inv_flushed d b st e : order_inv e → order_inv (flushed d b st e).
Proof.
  destruct d as [text|].
  - apply (order_inv_push (pipeline e)); [done| |].
    + unfold pipeline, awaited. autorewrite with fields. by rewrite !app_assoc.
    + autorewrite with fields. rewrite length_app. cbn [length]. lia.
  - apply order_inv_same; unfold pipeline, awaited; by autorewrite with fields.
Qed.

Lemma order_inv_after_interrupt e : order_inv e → order_inv (after interrupt e).
Proof.
  apply (order_inv_push (played e ++ awaited e)).
  - unfold pipeline. rewrite app_assoc. by apply sublist_inserts_r.
  - unfold pipeline, awaited. autorewrite with fields. by rewrite !app_assoc.
  - autorewrite with fields. rewrite length_app, drain_length. cbn [length]. lia.
Qed.

Lemma length_tasks_cancel_playback_task e :
  length (tasks (cancel_playback_task e)) = length (tasks e).
Proof.
  unfold cancel_playback_task.
  destruct (worker e); autorewrite with fields; by rewrite ?cancel_task_length.
Qed.

Lemma order_inv_cancel_playback_task e :
  order_inv e → order_inv (cancel_playback_task e).
Proof.
  apply order_inv_sub; [|by rewrite length_tasks_cancel_playback_task].
  unfold pipeline, awaited. autorewrite with fields.
  apply sublist_app; [done|]. apply sublist_app; [apply sublist_nil_l | done].
Qed.

Lemma length_tasks_finish_generation j fname r e :
  length (tasks (finish_generation j fname r e)) = length (tasks e).
Proof.
  unfold finish_generation.
  repeat case_match; autorewrite with fields; by rewrite ?length_insert.
Qed.

Lemma order_inv_finish_generation j fname r e :
  order_inv e → order_inv (finish_generation j fname r e).
Proof.
  apply order_inv_same; [|apply length_tasks_finish_generation].
  unfold pipeline, awaited. by autorewrite with fields.
Qed.

Lemma pipeline_playback_worker ok e :
  pipeline (_playback_worker ok e) `sublist_of` pipeline e.
Proof.
  unfold _playback_worker, worker_loop_head, worker_after_await,
    worker_after_play, pipeline, awaited.
  destruct (worker e) as [|j|j p|] eqn:Hw.
  - destruct (stop_event e); [autorewrite with fields; by rewrite ?Hw|].
    destruct (audio_queue e) as [|j q] eqn:Hq;
      autorewrite with fields; by rewrite ?Hw, ?Hq.
  - assert (played e ++ audio_queue e
            `sublist_of` played e ++ j :: audio_queue e) as Hdrop.
    { apply sublist_app; [done|]. by apply sublist_cons. }
    destruct (task_state_at j e) as [[|[p|]| |]|];
      autorewrite with fields; rewrite ?Hw; try done.
    destruct (Py.is_empty p); [autorewrite with fields; by rewrite ?Hw|].
    destruct (fs e !! p) as [size|]; [|autorewrite with fields; by rewrite ?Hw].
    destruct (size <? MIN_ARTIFACT_BYTES);
      autorewrite with fields; rewrite ?Hw; [done|].
    destruct (is_speaking e), (truthy (mute_callback e));
      autorewrite with fields; rewrite <- app_assoc; reflexivity.
  - autorewrite with fields. destruct ok; autorewrite with fields; by rewrite ?Hw.
  - by rewrite ?Hw.
Qed.

Lemma order_inv_playback_worker ok e :
  order_inv e → order_inv (_playback_worker ok e).
Proof.
  apply order_inv_sub; [apply pipeline_playback_worker|].
  by autorewrite with fields.
Qed.

Lemma order_inv_step e ev : order_inv e → order_inv (step e ev).
Proof.
  intros Hinv. destruct ev.
  - by apply order_inv_queue.
  - destruct (token_event_flushed token e) as (d & b & st & ->).
    by apply order_inv_flushed.
  - cbn [step]. destruct (after_try_dispatch_flushed true e) as (d & b & st & ->).
    by apply order_inv_flushed.
  - by apply order_inv_queue.
  - destruct (watchdog_event_flushed e) as (d & b & st & ->).
    by apply order_inv_flushed.
  - by apply order_inv_after_interrupt.
  - cbn [step]. rewrite after_stop.
    assert (order_inv (after interrupt (set_stop_event true e))) as Hint.
    { apply order_inv_after_interrupt. eapply order_inv_same; [| |exact Hinv].
      - unfold pipeline, awaited. by autorewrite with fields.
      - by autorewrite with fields. }
    destruct (outcome interrupt _) as [[]|x]; [|done].
    by apply order_inv_cancel_playback_task.
  - by apply order_inv_finish_generation.
  - cbn [step]. eapply order_inv_same; [| |exact Hinv].
    + unfold pipeline, awaited. by autorewrite with fields.
    + by autorewrite with fields.
  - by apply order_inv_playback_worker.
Qed.

Lemma order_inv_run evs e : order_inv e → order_inv (run evs e).
Proof.
  revert e. induction evs as [|ev evs IH]; intros e Hinv; [done|].
  cbn [run fold_left]. apply IH. by apply order_inv_step.
Qed.

Lemma order_inv_init mute unmute tts_loaded : order_inv (init mute unmute tts_loaded).
Proof. split; constructor. Qed.

Lemma before_sorted (l : list nat) a b :
  StronglySorted lt l → before a b l → a < b.
Proof.
  intros Hs (l1 & l2 & l3 & ->).
  apply StronglySorted_app_1_r in Hs.
  apply StronglySorted_cons in Hs as [Hall _].
  eapply Forall_forall in Hall; [done|].
  apply elem_of_app. right. apply list_elem_of_here.
Qed.

Lemma seq_sorted a n : StronglySorted lt (seq a n).
Proof.
  revert a. induction n as [|n IH]; intros a; cbn; constructor; [apply IH|].
  apply Forall_forall. intros x Hx. apply elem_of_seq in Hx. lia.
Qed.

Lemma sorted_sublist_seq (l : list nat) a n :
  StronglySorted lt l → Forall (λ j, a ≤ j < a + n) l →
  l `sublist_of` seq a n.
Proof.
  revert a l. induction n as [|n IH]; intros a l Hs Hb.
  - destruct l as [|x l]; [done|].
    apply Forall_cons in Hb as [? _]. lia.
  - cbn [seq]. destruct l as [|x l]; [apply sublist_nil_l|].
    apply StronglySorted_cons in Hs as [Hx Hs].
    apply Forall_cons in Hb as [Hxb Hb].
    assert (Forall (λ j, S a ≤ j < S a + n) l) as Hl.
    { apply Forall_forall. intros y Hy.
      eapply Forall_forall in Hx; [|done]. eapply Forall_forall in Hb; [|done].
      lia. }
    destruct (decide (x = a)) as [->|Hne].
    + apply sublist_skip. by apply IH.
    + apply sublist_cons. apply IH.
      * by apply StronglySorted_cons.
      * apply Forall_cons. split; [lia | done].
Qed.

(** C1.  In every state the engine can reach from its start, whatever
    the interleaving of submissions, token arrivals, flushes, watchdog
    wake-ups, interrupts, stops, generation completions (in any order),
    file removals and worker steps: the tasks handed to the player form a
    subsequence of the tasks in submission order, so a task submitted
    after another is never played before it.  A submission appends the
    new task at the tail of the queue; the worker at its loop head takes
    the head of the queue and awaits it; while it awaits a task that is
    still generating it does nothing, whatever else has completed. *)
Theorem playback_order_is_submission_order mute unmute tts_loaded
    (evs : list event) (a b : nat) :
  let e := run evs (init mute unmute tts_loaded) in
  played e `sublist_of` submitted e ∧
  (before a b (submitted e) → ¬ before b a (played e)) ∧
  (∀ text, audio_queue (_queue_tts_generation text e)
           = audio_queue e ++ [length (tasks e)]) ∧
  (∀ j queue' ok,
     worker e = LoopHead → stop_event e = false → audio_queue e = j :: queue' →
     worker (_playback_worker ok e) = AwaitTask j ∧
     audio_queue (_playback_worker ok e) = queue') ∧
  (∀ j ok,
     worker e = AwaitTask j → task_state_at j e = Some Pending →
     _playback_worker ok e = e).
Proof.
  intros e.
  assert (order_inv e) as [Hs Hb] by apply order_inv_run, order_inv_init.
  unfold pipeline in Hs, Hb.
  apply StronglySorted_app_1_l in Hs. apply Forall_app in Hb as [Hb _].
  split; [|split; [|split; [|split]]].
  - apply sorted_sublist_seq; [done|].
    eapply Forall_impl; [done|]. cbv beta. intros; lia.
  - intros Hab Hba.
    apply before_sorted in Hab; [|apply seq_sorted].
    apply before_sorted in Hba; [|done]. lia.
  - intros text. by autorewrite with fields.
  - intros j queue' ok Hw Hstop Hq.
    unfold _playback_worker, worker_loop_head. rewrite Hw, Hstop, Hq.
    by autorewrite with fields.
  - intros j ok Hw Hpending.
    unfold _playback_worker, worker_after_await. by rewrite Hw, Hpending.
Qed.

Lemma playback_order_witness :
  let e := run b_finishes_first (init (Some Callable) (Some Callable) true) in
  before 0 1 (submitted e) ∧ played e = [0; 1] ∧ ¬ before 1 0 (played e).
Proof.
  intros e.
  assert (before 0 1 (submitted e)) as Hab.
  { exists [], [], []. vm_compute. reflexivity. }
  split; [exact Hab|]. split; [vm_compute; reflexivity|].
  exact (proj1 (proj2 (playback_order_is_submission_order
                         (Some Callable) (Some Callable) true b_finishes_first 0 1))
           Hab).
Defined.

(** ** Mute coordination *)

Lemma mute_tracks_speaking_frame e e' :
  mute_callback e' = mute_callback e →
  unmute_callback e' = unmute_callback e →
  is_speaking e' = is_speaking e →
  hook_log e' = hook_log e →
  mute_tracks_speaking e → mute_tracks_speaking e'.
Proof.
  unfold mute_tracks_speaking, mic_muted. by intros -> -> -> ->.
Qed.

Lemma mute_tracks_speaking_unmuted e e' :
  mute_callback e' = mute_callback e →
  unmute_callback e' = unmute_callback e →
  is_speaking e' = false →
  hook_log e' = hook_log e ++ [Unmute] →
  mute_tracks_speaking e → mute_tracks_speaking e'.
Proof.
  unfold mute_tracks_speaking, mic_muted.
  intros -> -> -> -> (Hm & Hu & _). rewrite last_snoc.
  split; [done|]. split; [done|]. split; intros; discriminate.
Qed.

Lemma mute_tracks_speaking_muted e e' :
  mute_callback e' = mute_callback e →
  unmute_callback e' = unmute_callback e →
  is_speaking e' = true →
  hook_log e' = hook_log e ++ [Mute] →
  mute_tracks_speaking e → mute_tracks_speaking e'.
Proof.
  unfold mute_tracks_speaking, mic_muted.
  intros -> -> -> -> (Hm & Hu & _). by rewrite last_snoc.
Qed.

Lemma mute_tracks_speaking_unmute_if_speaking e e' :
  mute_callback e' = mute_callback (unmute_if_speaking e) →
  unmute_callback e' = unmute_callback (unmute_if_speaking e) →
  is_speaking e' = is_speaking (unmute_if_speaking e) →
  hook_log e' = hook_log (unmute_if_speaking e) →
  mute_tracks_speaking e → mute_tracks_speaking e'.
Proof.
  autorewrite with fields. intros Hm Hu Hs Hl Hinv.
  pose proof Hinv as (_ & Hunmute & _). rewrite Hunmute in Hl.
  destruct (is_speaking e) eqn:Hsp; cbn [andb] in Hl.
  - by eapply mute_tracks_speaking_unmuted.
  - rewrite app_nil_r in Hl. eapply mute_tracks_speaking_frame; try done.
    by rewrite Hsp.
Qed.

Lemma mute_tracks_speaking_flushed d b st e :
  mute_tracks_speaking e → mute_tracks_speaking (flushed d b st e).
Proof. apply mute_tracks_speaking_frame; by autorewrite with fields. Qed.

Lemma mute_tracks_speaking_after_interrupt e :
  mute_tracks_speaking e → mute_tracks_speaking (after interrupt e).
Proof.
  intros Hinv. pose proof Hinv as (Hm & Hu & _).
  apply (mute_tracks_speaking_unmuted e); try done;
    try (by autorewrite with fields).
  - rewrite after_interrupt, Hm.
    destruct (unmute_callback e); [|done]. by autorewrite with fields.
  - rewrite after_interrupt, Hm.
    destruct (unmute_callback e); [|done]. by autorewrite with fields.
Qed.

Lemma mute_tracks_speaking_playback_worker e :
  mute_tracks_speaking e → mute_tracks_speaking (_playback_worker true e).
Proof.
  intros Hinv. unfold _playback_worker.
  destruct (worker e) as [|j|j p|]; [| | |done].
  - unfold worker_loop_head.
    destruct (stop_event e).
    { eapply mute_tracks_speaking_frame; [..|done]; by autorewrite with fields. }
    destruct (audio_queue e) as [|j q].
    + by eapply mute_tracks_speaking_unmute_if_speaking.
    + eapply (mute_tracks_speaking_unmute_if_speaking e); [..|done];
        by autorewrite with fields.
  - unfold worker_after_await.
    assert (mute_tracks_speaking (set_worker LoopHead e)) as Hskip.
    { eapply mute_tracks_speaking_frame; [..|done]; by autorewrite with fields. }
    destruct (task_state_at j e) as [[|[p|]| |]|]; try done.
    destruct (Py.is_empty p); [done|].
    destruct (fs e !! p) as [size|]; [|done].
    destruct (size <? MIN_ARTIFACT_BYTES); [done|].
    pose proof Hinv as (Hm & _ & _).
    destruct (is_speaking e) eqn:Hs.
    + eapply mute_tracks_speaking_frame; [..|done]; by autorewrite with fields.
    + rewrite Hm.
      eapply mute_tracks_speaking_muted; [..|done]; by autorewrite with fields.
  - unfold worker_after_play.
    eapply mute_tracks_speaking_frame; [..|done]; by autorewrite with fields.
Qed.

Lemma mute_tracks_speaking_step e ev :
  ev ≠ EvWorker false →
  mute_tracks_speaking e → mute_tracks_speaking (step e ev).
Proof.
  intros Hev Hinv. destruct ev.
  - cbn [step]. eapply mute_tracks_speaking_frame; [..|done];
      by autorewrite with fields.
  - destruct (token_event_flushed token e) as (d & b & st & ->).
    by apply mute_tracks_speaking_flushed.
  - cbn [step]. destruct (after_try_dispatch_flushed true e) as (d & b & st & ->).
    by apply mute_tracks_speaking_flushed.
  - cbn [step]. eapply mute_tracks_speaking_frame; [..|done];
      by autorewrite with fields.
  - destruct (watchdog_event_flushed e) as (d & b & st & ->).
    by apply mute_tracks_speaking_flushed.
  - by apply mute_tracks_speaking_after_interrupt.
  - cbn [step]. rewrite after_stop.
    assert (mute_tracks_speaking (after interrupt (set_stop_event true e))) as Hint.
    { apply mute_tracks_speaking_after_interrupt.
      eapply mute_tracks_speaking_frame; [..|done]; by autorewrite with fields. }
    destruct (outcome interrupt _) as [[]|x]; [|done].
    eapply mute_tracks_speaking_frame; [..|done]; by autorewrite with fields.
  - cbn [step]. eapply mute_tracks_speaking_frame; [..|done];
      by autorewrite with fields.
  - cbn [step]. eapply mute_tracks_speaking_frame; [..|done];
      by autorewrite with fields.
  - destruct ok; [|done]. by apply mute_tracks_speaking_playback_worker.
Qed.

(** As long as the player process does not fail, the invariant of the
    Playback State holds in every reachable state of an engine that was
    given both hooks. *)
Lemma mute_invariant_without_playback_failure tts_loaded (evs : list event) :
  EvWorker false ∉ evs →
  mute_invariant (run evs (init (Some Callable) (Some Callable) tts_loaded)).
Proof.
  intros Hevs.
  assert (mute_tracks_speaking
            (run evs (init (Some Callable) (Some Callable) tts_loaded)))
    as (_ & _ & Hiff).
  { assert (mute_tracks_speaking (init (Some Callable) (Some Callable) tts_loaded))
      as Hinit.
    { split; [done|]. split; [done|]. split; intros; discriminate. }
    revert Hinit Hevs.
    generalize (init (Some Callable) (Some Callable) tts_loaded).
    induction evs as [|ev evs IH]; intros e Hinit Hevs; [done|].
    cbn [run fold_left]. apply IH.
    - apply mute_tracks_speaking_step; [|done].
      intros ->. apply Hevs. apply list_elem_of_here.
    - intros Hin. apply Hevs. by apply list_elem_of_further.
  }
  split.
  - apply Hiff.
  - intros Hs _ Hmuted. apply Hiff in Hmuted. congruence.
Qed.

Lemma idle_worker_step e :
  worker e = LoopHead → stop_event e = false → audio_queue e = [] →
  is_speaking e = false → step e (EvWorker true) = e.
Proof.
  intros Hw Hstop Hq Hs. cbn [step].
  unfold _playback_worker, worker_loop_head, unmute_if_speaking.
  by rewrite Hw, Hstop, Hq, Hs.
Qed.

Lemma idle_worker_run e n :
  worker e = LoopHead → stop_event e = false → audio_queue e = [] →
  is_speaking e = false → run (replicate n (EvWorker true)) e = e.
Proof.
  intros Hw Hstop Hq Hs. induction n as [|n IH]; [done|].
  cbn [replicate run fold_left]. by rewrite idle_worker_step.
Qed.

(** C3.  The invariant breaks in the playback-failure branch.  With both
    hooks given, one phrase submitted and generated, the worker mutes and
    starts the player; when the player fails the worker resets Speaking
    without calling unmute.  The engine is then idle with an empty queue
    while the last hook called is mute, and no later iteration of the
    idle loop calls unmute.  Up to the failure the invariant held. *)
Theorem playback_failure_breaks_mute_invariant :
  let e0 := init (Some Callable) (Some Callable) true in
  let e := run playback_failure e0 in
  mute_invariant (run (take 4 playback_failure) e0) ∧
  worker e = LoopHead ∧
  is_speaking e = false ∧
  audio_queue e = [] ∧
  hook_log e = [Mute] ∧
  ¬ mute_invariant e ∧
  ∀ n, hook_log (run (replicate n (EvWorker true)) e) = [Mute].
Proof.
  intros e0 e.
  assert (worker e = LoopHead) as Hw by (vm_compute; reflexivity).
  assert (stop_event e = false) as Hstop by (vm_compute; reflexivity).
  assert (is_speaking e = false) as Hs by (vm_compute; reflexivity).
  assert (audio_queue e = []) as Hq by (vm_compute; reflexivity).
  assert (hook_log e = [Mute]) as Hl by (vm_compute; reflexivity).
  split; [|split; [done|split; [done|split; [done|split; [done|split]]]]].
  - apply mute_invariant_without_playback_failure.
    unfold playback_failure. cbn [take].
    intros Hin. apply list_elem_of_In in Hin. cbn [In] in Hin.
    intuition discriminate.
  - intros [_ Hidle]. apply (Hidle Hs Hq). unfold mic_muted. by rewrite Hl.
  - intros n. by rewrite idle_worker_run.
Qed.

(** * Further properties of the code *)

(** ** Words, [split] and [join] *)

Lemma split_from_word w acc s :
  no_space w = true →
  Py.split_from acc (w +:+ s) = Py.split_from (acc +:+ w) s.
Proof.
  revert acc. induction w as [|c w IH]; intros acc Hw.
  - by rewrite string_app_nil, string_app_empty_r.
  - cbn [no_space] in Hw. apply andb_true_iff in Hw as [Hc Hw].
    apply negb_true_iff in Hc.
    rewrite string_app_cons. cbn [Py.split_from]. rewrite Hc, IH by done.
    by rewrite string_app_assoc, string_app_cons, string_app_nil.
Qed.

Lemma split_from_space acc s :
  Py.split_from acc (" " +:+ s) =
  if Py.is_empty acc then Py.split_from EmptyString s
  else acc :: Py.split_from EmptyString s.
Proof. reflexivity. Qed.

Lemma no_space_app a b : no_space (a +:+ b) = no_space a && no_space b.
Proof.
  induction a as [|c a IH]; [done|].
  rewrite string_app_cons. cbn [no_space]. by rewrite IH, andb_assoc.
Qed.

(** [s.split()] returns words. *)
Lemma split_from_word_like acc s :
  no_space acc = true → Forall (λ w, word_like w = true) (Py.split_from acc s).
Proof.
  revert acc. induction s as [|c s IH]; intros acc Hacc; cbn [Py.split_from].
  - destruct (Py.is_empty acc) eqn:He; [done|].
    repeat constructor. unfold word_like. by rewrite He, Hacc.
  - destruct (Py.isspace c) eqn:Hc.
    + destruct (Py.is_empty acc) eqn:He; [by apply IH|].
      constructor; [|by apply IH]. unfold word_like. by rewrite He, Hacc.
    + apply IH. rewrite no_space_app, Hacc. cbn [no_space]. by rewrite Hc.
Qed.

Lemma split_word_like s : Forall (λ w, word_like w = true) (Py.split s).
Proof. by apply split_from_word_like. Qed.

Lemma join_cons sep w ws :
  Py.join sep (w :: ws) =
  match ws with
  | [] => w
  | _ :: _ => w +:+ sep +:+ Py.join sep ws
  end.
Proof. by destruct ws. Qed.

Lemma split_join ws :
  Forall (λ w, word_like w = true) ws → Py.split (Py.join " " ws) = ws.
Proof.
  induction 1 as [|w ws Hw Hws IH]; [done|].
  unfold word_like in Hw. apply andb_true_iff in Hw as [Hne Hsp].
  apply negb_true_iff in Hne.
  rewrite join_cons. unfold Py.split in *. destruct ws as [|w' ws].
  - assert (Py.split_from EmptyString w
            = Py.split_from (EmptyString +:+ w) EmptyString) as ->.
    { rewrite <- split_from_word by done. by rewrite string_app_empty_r. }
    rewrite string_app_nil. cbn [Py.split_from]. by rewrite Hne.
  - rewrite split_from_word, string_app_nil, split_from_space, Hne by done.
    by rewrite IH.
Qed.

Lemma split_from_trailing_space acc s :
  Py.split_from acc (s +:+ " ") = Py.split_from acc s.
Proof.
  revert acc. induction s as [|c s IH]; intros acc.
  - rewrite string_app_nil. cbn. by destruct (Py.is_empty acc).
  - rewrite string_app_cons. cbn [Py.split_from]. by rewrite !IH.
Qed.

Lemma split_from_lstrip s :
  Py.split_from EmptyString (Py.lstrip s) = Py.split_from EmptyString s.
Proof.
  induction s as [|c s IH]; [done|].
  cbn [Py.lstrip Py.split_from]. destruct (Py.isspace c) eqn:Hc; [done|].
  cbn [Py.split_from]. by rewrite Hc.
Qed.

Lemma split_from_rstrip acc s :
  Py.split_from acc (Py.rstrip s) = Py.split_from acc s.
Proof.
  revert acc. induction s as [|c s IH]; intros acc; [done|].
  rewrite rstrip_cons. cbn [Py.split_from].
  destruct (Py.isspace c) eqn:Hc; cbn [andb].
  - destruct (Py.is_empty (Py.rstrip s)) eqn:Hr.
    + apply is_empty_true in Hr. rewrite <- (IH EmptyString), Hr. done.
    + cbn [Py.split_from]. by rewrite Hc, IH.
  - cbn [Py.split_from]. by rewrite Hc, IH.
Qed.

(** [s.strip().split()] is [s.split()]. *)
Lemma split_strip s : Py.split (Py.strip s) = Py.split s.
Proof.
  unfold Py.split, Py.strip. by rewrite split_from_rstrip, split_from_lstrip.
Qed.

Lemma split_remainder words k :
  Forall (λ w, word_like w = true) words →
  Py.split (Py.strip (Py.join " " (drop k words) +:+ " ")) = drop k words.
Proof.
  intros Hwords. rewrite split_strip. unfold Py.split.
  rewrite split_from_trailing_space. by apply split_join, Forall_drop.
Qed.

(** X1.  What [split()] returns, joined by single spaces and split
    again, is the same list of words; a space appended, or any white
    space around, changes nothing.  So the words [_try_dispatch] keeps in
    the buffer after a split ([remainder + " "]) are the words the next
    flush reads. *)
Theorem split_join_round_trip (s : string) (k : nat) :
  let words := Py.split s in
  Py.split (Py.join " " words) = words ∧
  Py.split (Py.strip (Py.join " " (drop k words) +:+ " ")) = drop k words ∧
  Py.split (Py.strip s) = words.
Proof.
  intros words. split; [|split].
  - apply split_join, split_word_like.
  - apply split_remainder, split_word_like.
  - apply split_strip.
Qed.

(** ** The flush, case by case *)

Lemma try_dispatch_decision force e :
  let text := Py.strip (buffer e) in
  let words := Py.split text in
  ∃ sp, _find_safe_split_point words = Ok sp ∧
        _try_dispatch force e = (Ok (), flush_decision force text words sp e).
Proof.
  intros text words.
  destruct (find_safe_split_point_spec words) as (sp & Hsp & _);
    [apply split_nonempty|].
  exists sp. split; [done|].
  unfold _try_dispatch, flush_decision, bind, get, lift, ret, modify,
    ends_in, ends_with_connector.
  fold text. fold words. clearbody words. clearbody text.
  destruct (Py.is_empty text) eqn:Hne; [done|].
  destruct (negb force && (length words <? 2)) eqn:Hmin; [done|].
  destruct (last_char_is_Some text Hne) as [c ->]. cbn [index_or_raise].
  destruct (Py.char_in c ".!?,"); [done|].
  destruct force; cbn [negb andb orb] in *.
  - rewrite orb_true_r, Hsp. by destruct (0 <? sp).
  - destruct (last words) as [w|] eqn:Hw.
    + cbn [index_or_raise]. destruct (Py.mem _ _); [done|].
      rewrite orb_false_r. destruct (8 <=? length words); [|done].
      rewrite Hsp. by destruct (0 <? sp).
    + apply last_None in Hw. rewrite Hw in Hmin. done.
Qed.

(** X2.  No flush, no wake-up of the silence watchdog and no token loop
    raises: the IndexError that [text[-1]], [words[-1]], [word[-1]] and
    [words[i+1][0]] could raise never occurs, since the buffer is only
    indexed when it has text and [split()] returns no empty word. *)
Theorem segmenter_never_raises (force : bool) (tokens : list string)
    (full_response : string) (e : engine) :
  outcome (_try_dispatch force) e = Ok () ∧
  outcome _silence_watchdog e = Ok () ∧
  (∃ sp, _find_safe_split_point (Py.split (Py.strip (buffer e))) = Ok sp) ∧
  ∃ full, outcome (consume tokens full_response) e = Ok full.
Proof.
  split; [apply try_dispatch_ok|]. split; [|split].
  - unfold outcome, _silence_watchdog, bind, get, ret, modify.
    destruct (Py.is_empty _); [done|]. by rewrite try_dispatch_after.
  - destruct (try_dispatch_decision force e) as (sp & Hsp & _). eauto.
  - unfold outcome. rewrite consume_run. eauto.
Qed.

Lemma join_take_nonempty words sp :
  Forall (λ w, word_like w = true) words → words ≠ [] → 0 < sp →
  Py.is_empty (Py.join " " (take sp words)) = false.
Proof.
  intros Hwords Hne Hsp. destruct words as [|w words]; [done|].
  destruct sp as [|sp]; [lia|]. cbn [take]. rewrite join_cons.
  apply Forall_cons in Hwords as [Hw _].
  unfold word_like in Hw. apply andb_true_iff in Hw as [Hw _].
  apply negb_true_iff in Hw.
  destruct (take sp words); [done|]. by rewrite is_empty_app, Hw.
Qed.

Lemma split_point_positive_words words sp :
  _find_safe_split_point words = Ok sp → 0 < sp → words ≠ [].
Proof. intros Hsp Hpos ->. cbn in Hsp. injection Hsp. lia. Qed.

(** X3.  A flush dispatches at most one phrase, and never an empty one;
    apart from that task it only touches the buffer and the silence
    timer: Speaking, the hook log, the history, the files, the worker
    and what was played stay as they are.  A forced flush of a buffer
    that has text always dispatches. *)
Theorem flush_dispatches_at_most_one_phrase (force : bool) (e : engine) :
  let e' := after (_try_dispatch force) e in
  ((tasks e' = tasks e ∧ audio_queue e' = audio_queue e ∧
    (force = true → Py.strip (buffer e) = EmptyString)) ∨
   (∃ text, text ≠ EmptyString ∧
      tasks e' = tasks e ++ [Task text Pending] ∧
      audio_queue e' = audio_queue e ++ [length (tasks e)])) ∧
  is_speaking e' = is_speaking e ∧ hook_log e' = hook_log e ∧
  history e' = history e ∧ fs e' = fs e ∧ worker e' = worker e ∧
  played e' = played e.
Proof.
  intros e'. split.
  - destruct (try_dispatch_decision force e) as (sp & Hsp & Hrun).
    unfold e', after. rewrite Hrun. cbn [snd]. unfold flush_decision.
    set (text := Py.strip (buffer e)) in *. set (words := Py.split text) in *.
    destruct (Py.is_empty text) eqn:Hne.
    { left. repeat split; try done. intros _. by apply is_empty_true. }
    assert (text ≠ EmptyString) as Htext by (by apply is_empty_false).
    assert (∃ t, t ≠ EmptyString ∧
              tasks (_do_dispatch text e) = tasks e ++ [Task t Pending] ∧
              audio_queue (_do_dispatch text e)
              = audio_queue e ++ [length (tasks e)]) as Hwhole.
    { exists text. by autorewrite with fields. }
    destruct force; cbn [negb andb orb].
    + destruct (ends_in ".!?," text); [by right|].
      rewrite orb_true_r. destruct (0 <? sp) eqn:Hpos; [|by right].
      right. exists (Py.join " " (take sp words)). autorewrite with fields.
      split; [|done]. apply is_empty_false. apply Nat.ltb_lt in Hpos.
      apply join_take_nonempty; [apply split_word_like| |done].
      by eapply split_point_positive_words.
    + destruct (length words <? 2); [by left|].
      destruct (ends_in ".!?," text); [by right|].
      destruct (ends_with_connector words); [by left|].
      rewrite orb_false_r. destruct (8 <=? length words); [|by left].
      destruct (0 <? sp) eqn:Hpos; [|by right].
      right. exists (Py.join " " (take sp words)). autorewrite with fields.
      split; [|done]. apply is_empty_false. apply Nat.ltb_lt in Hpos.
      apply join_take_nonempty; [apply split_word_like| |done].
      by eapply split_point_positive_words.
  - unfold e'. destruct (after_try_dispatch_flushed force e) as (d & b & st & ->).
    by autorewrite with fields.
Qed.

(** X4.  When a forced flush splits (rule 4 with a positive split point),
    the words after the split point stay in the buffer while the silence
    timer is no longer armed: the watchdog will not flush them, and they
    are the words the next flush reads.  The last flush of
    [generate_and_speak] is such a forced flush, so the tail of a reply
    can stay unspoken in the buffer when the call returns. *)
Theorem forced_split_keeps_the_tail (e : engine) (sp : nat) :
  let words := Py.split (Py.strip (buffer e)) in
  reaches_rule4 true e →
  _find_safe_split_point words = Ok sp →
  0 < sp →
  let e' := after (_try_dispatch true) e in
  Py.split (Py.strip (buffer e')) = drop sp words ∧
  drop sp words ≠ [] ∧
  silence_task e' ≠ Some Armed ∧
  step e' EvWatchdog = e'.
Proof.
  intros words Hr Hsp Hpos e'.
  pose proof (try_dispatch_rule4 true e sp Hr Hsp) as Hrun.
  apply Nat.ltb_lt in Hpos as Hpos'. rewrite Hpos' in Hrun.
  assert (buffer e' = Py.join " " (drop sp words) +:+ " ") as Hbuf.
  { unfold e', after. rewrite Hrun. cbn [snd]. by autorewrite with fields. }
  assert (silence_task e' ≠ Some Armed) as Hst.
  { unfold e', after. rewrite Hrun. cbn [snd]. autorewrite with fields.
    by destruct (silence_task e). }
  split; [|split; [|split]]; [| |done|].
  - rewrite Hbuf.
    apply split_remainder, split_word_like.
  - eapply rule4_split_parts_nonempty; eauto.
  - cbn [step]. by destruct (silence_task e') as [[]|].
Qed.

Lemma trailing_words_reach_rule4 : reaches_rule4 true trailing_words.
Proof.
  unfold reaches_rule4.
  assert (Py.strip (buffer trailing_words) = "I like apples, pears and plums")
    as -> by reflexivity.
  split; [discriminate|]. split; [discriminate|].
  split; [reflexivity|]. split; [discriminate|]. by right.
Defined.

Lemma forced_split_keeps_the_tail_witness :
  let e' := after (_try_dispatch true) trailing_words in
  Py.split (Py.strip (buffer e')) = ["and"; "plums"] ∧
  silence_task e' ≠ Some Armed ∧ step e' EvWatchdog = e'.
Proof.
  destruct (forced_split_keeps_the_tail trailing_words 4 trailing_words_reach_rule4)
    as (Hwords & _ & Hst & Hwd); [reflexivity | lia |].
  split; [exact Hwords|]. split; [exact Hst | exact Hwd].
Defined.

(** ** Words across a flush *)

Lemma split_from_app_space acc a t :
  Py.split_from acc (a +:+ " " +:+ t) = Py.split_from acc a ++ Py.split t.
Proof.
  revert acc. induction a as [|c a IH]; intros acc.
  - rewrite string_app_nil, split_from_space. cbn [Py.split_from].
    by destruct (Py.is_empty acc).
  - rewrite string_app_cons. cbn [Py.split_from].
    destruct (Py.isspace c), (Py.is_empty acc); by rewrite IH.
Qed.

Lemma split_take_join words k :
  Forall (λ w, word_like w = true) words →
  Py.split (Py.join " " (take k words)) = take k words.
Proof. intros Hwords. by apply split_join, Forall_take. Qed.

Lemma split_drop_join words k :
  Forall (λ w, word_like w = true) words →
  Py.split (Py.join " " (drop k words) +:+ " ") = drop k words.
Proof. intros Hwords. rewrite <- split_strip. by apply split_remainder. Qed.

(** X5.  A flush neither loses, repeats nor reorders words: the words of
    the phrase it dispatches (if any), followed by the words it leaves in
    the buffer, are the words the buffer had. *)
Theorem flush_conserves_words (force : bool) (e : engine) :
  let e' := after (_try_dispatch force) e in
  ∃ new, tasks e' = tasks e ++ new ∧
         words_of new ++ Py.split (buffer e') = Py.split (buffer e).
Proof.
  intros e'. destruct (try_dispatch_decision force e) as (sp & _ & Hrun).
  unfold e', after. rewrite Hrun. cbn [snd]. unfold flush_decision.
  set (text := Py.strip (buffer e)). set (words := Py.split text).
  assert (words = Py.split (buffer e)) as Hwords by apply split_strip.
  assert (∃ new, tasks e = tasks e ++ new ∧
            words_of new ++ Py.split (buffer e) = Py.split (buffer e)) as Hnone.
  { exists []. by rewrite app_nil_r. }
  assert (∃ new, tasks (_do_dispatch text e) = tasks e ++ new ∧
            words_of new ++ Py.split (buffer (_do_dispatch text e))
            = Py.split (buffer e)) as Hall.
  { exists [Task text Pending]. autorewrite with fields. split; [done|].
    unfold words_of. cbn [map concat phrase]. fold words.
    by rewrite !app_nil_r. }
  destruct (Py.is_empty text); [done|].
  destruct (negb force && (length words <? 2)); [done|].
  destruct (ends_in ".!?," text); [done|].
  destruct (negb force && ends_with_connector words); [done|].
  destruct ((8 <=? length words) || force); [|done].
  destruct (0 <? sp); [|done].
  exists [Task (Py.join " " (take sp words)) Pending].
  autorewrite with fields. split; [done|].
  unfold words_of. cbn [map concat phrase].
  rewrite app_nil_r, split_take_join, split_drop_join
    by apply split_word_like.
  by rewrite take_drop.
Qed.

(** X6.  After a flush that splits the buffer (rule 4 with a positive
    split point), the next token always starts a new word: the words in
    the buffer are the words after the split point followed by the words
    of the token.  The space appended to the remainder separates the last
    buffered word from a token that continues it, so a word that the LLM
    streams in two tokens is cut in two when the flush falls between
    them. *)
Theorem token_after_split_starts_new_word (force : bool) (e : engine)
    (sp : nat) (token : string) :
  let words := Py.split (Py.strip (buffer e)) in
  reaches_rule4 force e →
  _find_safe_split_point words = Ok sp →
  0 < sp →
  let e' := add_token token (after (_try_dispatch force) e) in
  Py.split (buffer e') = drop sp words ++ Py.split token.
Proof.
  intros words Hr Hsp Hpos e'.
  pose proof (try_dispatch_rule4 force e sp Hr Hsp) as Hrun.
  apply Nat.ltb_lt in Hpos. rewrite Hpos in Hrun.
  unfold e', after. rewrite Hrun. cbn [snd]. rewrite add_token_flushed.
  autorewrite with fields. fold words.
  rewrite string_app_assoc. unfold Py.split at 1.
  rewrite split_from_app_space. fold (Py.split (Py.join " " (drop sp words))).
  rewrite split_join; [done|]. apply Forall_drop, split_word_like.
Qed.

Lemma half_word_reaches_rule4 : reaches_rule4 false half_word.
Proof.
  unfold reaches_rule4.
  assert (Py.strip (buffer half_word) = "I think that cats and dogs are wonder")
    as -> by reflexivity.
  split; [discriminate|]. split; [intros _; vm_compute; lia|].
  split; [reflexivity|]. split; [|left; vm_compute; lia].
  intros _ w Hw. vm_compute in Hw. injection Hw as <-. vm_compute. reflexivity.
Defined.

Lemma token_after_split_starts_new_word_witness :
  Py.split (buffer (add_token "ful" (after (_try_dispatch false) half_word)))
  = ["and"; "dogs"; "are"; "wonder"; "ful"] ∧
  Py.split (buffer (add_token "ful" half_word))
  = ["I"; "think"; "that"; "cats"; "and"; "dogs"; "are"; "wonderful"].
Proof.
  split; [|vm_compute; reflexivity].
  apply (token_after_split_starts_new_word false half_word 4 "ful"
           half_word_reaches_rule4); [vm_compute; reflexivity | lia].
Defined.

(** ** The task table over time *)

Lemma tasks_grow_refl ts : tasks_grow ts ts.
Proof. intros i t Hi. exists t. split; [done|]. split; [done | by right]. Qed.

Lemma tasks_grow_trans ts1 ts2 ts3 :
  tasks_grow ts1 ts2 → tasks_grow ts2 ts3 → tasks_grow ts1 ts3.
Proof.
  intros H12 H23 i t Hi.
  destruct (H12 i t Hi) as (t2 & Hi2 & Hp2 & Hs2).
  destruct (H23 i t2 Hi2) as (t3 & Hi3 & Hp3 & Hs3).
  exists t3. split; [done|]. split; [congruence|].
  destruct Hs2 as [?|Hs2]; [by left|].
  destruct Hs3 as [Hs3|Hs3]; [left; congruence | right; congruence].
Qed.

Lemma tasks_grow_app ts l : tasks_grow ts (ts ++ l).
Proof.
  intros i t Hi. exists t. split; [by apply lookup_app_l_Some|].
  split; [done | by right].
Qed.

Lemma tasks_grow_cancel_task j ts : tasks_grow ts (cancel_task j ts).
Proof.
  intros i t Hi. rewrite cancel_task_lookup, Hi.
  destruct (decide (i = j)).
  - cbn. eexists. split; [done|]. destruct t as [text []]; cbn; split; auto.
  - exists t. split; [done|]. split; [done | by right].
Qed.

Lemma tasks_grow_drain queue ts : tasks_grow ts (drain queue ts).
Proof.
  revert ts. induction queue as [|j queue IH]; intros ts; cbn [drain].
  - apply tasks_grow_refl.
  - eapply tasks_grow_trans; [apply tasks_grow_cancel_task | apply IH].
Qed.

Lemma tasks_grow_insert j text st ts :
  ts !! j = Some (Task text Pending) → tasks_grow ts (<[j := Task text st]> ts).
Proof.
  intros Hj i t Hi. destruct (decide (i = j)) as [->|Hne].
  - exists (Task text st). rewrite Hj in Hi. injection Hi as <-.
    split; [|split; [done | by left]].
    rewrite list_lookup_insert_eq; [done|]. by eapply lookup_lt_Some.
  - exists t. split; [by rewrite list_lookup_insert_ne|].
    split; [done | by right].
Qed.

Lemma tasks_grow_finish_generation j fname r e :
  tasks_grow (tasks e) (tasks (finish_generation j fname r e)).
Proof.
  unfold finish_generation.
  destruct (tasks e !! j) as [[text st]|] eqn:Hj; [|apply tasks_grow_refl].
  destruct st; try apply tasks_grow_refl.
  destruct (_generate_speech_file _ _ _ _) as [[path size]|];
    autorewrite with fields; by apply tasks_grow_insert.
Qed.

Lemma tasks_grow_cancel_playback_task e :
  tasks_grow (tasks e) (tasks (cancel_playback_task e)).
Proof.
  unfold cancel_playback_task. destruct (worker e); autorewrite with fields;
    try apply tasks_grow_refl. apply tasks_grow_cancel_task.
Qed.

Lemma tasks_grow_flushed d b st e :
  tasks_grow (tasks e) (tasks (flushed d b st e)).
Proof.
  autorewrite with fields. destruct d; [apply tasks_grow_app | apply tasks_grow_refl].
Qed.

Lemma tasks_grow_after_interrupt e :
  tasks_grow (tasks e) (tasks (after interrupt e)).
Proof.
  autorewrite with fields.
  eapply tasks_grow_trans; [apply tasks_grow_drain | apply tasks_grow_app].
Qed.

Lemma tasks_grow_step e ev : tasks_grow (tasks e) (tasks (step e ev)).
Proof.
  destruct ev.
  - cbn [step]. autorewrite with fields. apply tasks_grow_app.
  - destruct (token_event_flushed token e) as (d & b & st & ->).
    apply tasks_grow_flushed.
  - cbn [step]. destruct (after_try_dispatch_flushed true e) as (d & b & st & ->).
    apply tasks_grow_flushed.
  - cbn [step]. autorewrite with fields. apply tasks_grow_app.
  - destruct (watchdog_event_flushed e) as (d & b & st & ->).
    apply tasks_grow_flushed.
  - apply tasks_grow_after_interrupt.
  - cbn [step]. rewrite after_stop.
    assert (tasks_grow (tasks e) (tasks (after interrupt (set_stop_event true e))))
      as Hint.
    { eapply tasks_grow_trans; [|apply tasks_grow_after_interrupt].
      autorewrite with fields. apply tasks_grow_refl. }
    destruct (outcome interrupt _) as [[]|x]; [|done].
    eapply tasks_grow_trans; [exact Hint | apply tasks_grow_cancel_playback_task].
  - apply tasks_grow_finish_generation.
  - cbn [step]. autorewrite with fields. apply tasks_grow_refl.
  - cbn [step]. autorewrite with fields. apply tasks_grow_refl.
Qed.

Lemma tasks_grow_run evs e : tasks_grow (tasks e) (tasks (run evs e)).
Proof.
  revert e. induction evs as [|ev evs IH]; intros e; [apply tasks_grow_refl|].
  cbn [run fold_left]. eapply tasks_grow_trans; [apply tasks_grow_step | apply IH].
Qed.

Lemma task_kept_done t t' : task_kept t t' → state t ≠ Pending → t' = t.
Proof.
  intros [Hp [Hs|Hs]] Hdone; [done|].
  destruct t, t'. cbn in *. congruence.
Qed.

Lemma step_interrupt e : step e EvInterrupt = after interrupt e.
Proof. cbn [step]. reflexivity. Qed.

Lemma run_app evs1 evs2 e : run (evs1 ++ evs2) e = run evs2 (run evs1 e).
Proof. apply fold_left_app. Qed.

(** X7.  The result of a generation task is final: once a task is done
    (it returned, failed or was cancelled), no later event changes its
    phrase or its result.  Interrupt and stop cancel only tasks that are
    not done, and a generation that completes late does not overwrite a
    cancellation. *)
Theorem task_outcome_is_final (e : engine) (evs : list event) (j : nat)
    (t : task) :
  tasks e !! j = Some t →
  state t ≠ Pending →
  tasks (run evs e) !! j = Some t.
Proof.
  intros Hj Hdone.
  destruct (tasks_grow_run evs e j t Hj) as (t' & Hj' & Hkept).
  by rewrite Hj', (task_kept_done t t').
Qed.

Lemma task_outcome_is_final_witness :
  tasks (run [EvGenerated 0 "/tmp/a.wav" (TtsAudio (Some 100) 244);
              EvWorker true; EvWorker true] cancelled_phrase) !! 0
  = Some (Task "Hello there." Cancelled).
Proof.
  apply (task_outcome_is_final cancelled_phrase).
  - vm_compute. reflexivity.
  - discriminate.
Defined.

(** ** What can be played *)

Lemma generate_speech_file_Some k text fname r p size :
  _generate_speech_file k text fname r = Some (p, size) →
  k = true ∧ speakable text = true ∧ p = fname.
Proof.
  unfold _generate_speech_file, speakable. destruct k; cbn [negb]; [|done].
  destruct ((_ <? 2) || _); [done|].
  destruct r as [[[|n]|] w|]; try done. by intros [= <- <-].
Qed.

Lemma audio_ok_app k ts text :
  audio_ok k ts → audio_ok k (ts ++ [Task text Pending]).
Proof.
  intros Hok j t p Hj. apply lookup_app_Some in Hj as [Hj|[_ Hj]]; [eauto|].
  by destruct (j - length ts) as [|[|n]].
Qed.

Lemma audio_ok_cancel_task k i ts : audio_ok k ts → audio_ok k (cancel_task i ts).
Proof.
  intros Hok j t p Hj. rewrite cancel_task_lookup in Hj.
  destruct (decide (j = i)); [|eauto].
  destruct (ts !! j) as [[text' st]|] eqn:Hlook; [|done].
  destruct st; cbn in Hj; try done. injection Hj as ? ?. subst. eauto.
Qed.

Lemma audio_ok_drain k queue ts : audio_ok k ts → audio_ok k (drain queue ts).
Proof.
  revert ts. induction queue as [|i queue IH]; intros ts Hok; [done|].
  cbn [drain]. by apply IH, audio_ok_cancel_task.
Qed.

Lemma audio_ok_insert k ts i text st :
  audio_ok k ts →
  (∀ p, st = Returned (Some p) → speakable text = true ∧ k = true) →
  audio_ok k (<[i := Task text st]> ts).
Proof.
  intros Hok Hst j t p Hj. destruct (decide (j = i)) as [->|Hne].
  - destruct (decide (i < length ts)) as [Hlt|Hge].
    + rewrite list_lookup_insert_eq in Hj by done.
      injection Hj as ? ?. subst. eauto.
    + rewrite list_insert_ge in Hj by lia. eauto.
  - rewrite list_lookup_insert_ne in Hj by done. eauto.
Qed.

Lemma audio_ok_finish_generation j fname r e :
  audio_ok (kokoro e) (tasks e) →
  audio_ok (kokoro e) (tasks (finish_generation j fname r e)).
Proof.
  intros Hok. unfold finish_generation.
  destruct (tasks e !! j) as [[text st]|] eqn:Hj; [|done].
  destruct st; try done.
  destruct (_generate_speech_file _ _ _ _) as [[path size]|] eqn:Hgen;
    autorewrite with fields; apply audio_ok_insert; try done.
  intros p _. apply generate_speech_file_Some in Hgen. tauto.
Qed.

Lemma audio_ok_cancel_playback_task k e :
  audio_ok k (tasks e) → audio_ok k (tasks (cancel_playback_task e)).
Proof.
  intros Hok. unfold cancel_playback_task.
  destruct (worker e); autorewrite with fields; try done.
  by apply audio_ok_cancel_task.
Qed.

Lemma audio_ok_flushed k d b st e :
  audio_ok k (tasks e) → audio_ok k (tasks (flushed d b st e)).
Proof.
  intros Hok. autorewrite with fields. destruct d; [by apply audio_ok_app | done].
Qed.

Lemma audio_ok_after_interrupt k e :
  audio_ok k (tasks e) → audio_ok k (tasks (after interrupt e)).
Proof.
  intros Hok. autorewrite with fields. by apply audio_ok_app, audio_ok_drain.
Qed.

Lemma kokoro_step e ev : kokoro (step e ev) = kokoro e.
Proof.
  destruct ev.
  - cbn [step]. by autorewrite with fields.
  - destruct (token_event_flushed token e) as (d & b & st & ->).
    by autorewrite with fields.
  - cbn [step]. destruct (after_try_dispatch_flushed true e) as (d & b & st & ->).
    by autorewrite with fields.
  - cbn [step]. by autorewrite with fields.
  - destruct (watchdog_event_flushed e) as (d & b & st & ->).
    by autorewrite with fields.
  - cbn [step]. by autorewrite with fields.
  - cbn [step]. rewrite after_stop.
    destruct (outcome interrupt _) as [[]|x]; by autorewrite with fields.
  - cbn [step]. by autorewrite with fields.
  - cbn [step]. by autorewrite with fields.
  - cbn [step]. by autorewrite with fields.
Qed.

Lemma kokoro_run evs e : kokoro (run evs e) = kokoro e.
Proof.
  revert e. induction evs as [|ev evs IH]; intros e; [done|].
  cbn [run fold_left]. fold (run evs (step e ev)). by rewrite IH, kokoro_step.
Qed.

Lemma audio_ok_step e ev :
  audio_ok (kokoro e) (tasks e) → audio_ok (kokoro e) (tasks (step e ev)).
Proof.
  intros Hok. destruct ev.
  - cbn [step]. autorewrite with fields. by apply audio_ok_app.
  - destruct (token_event_flushed token e) as (d & b & st & ->).
    by apply audio_ok_flushed.
  - cbn [step]. destruct (after_try_dispatch_flushed true e) as (d & b & st & ->).
    by apply audio_ok_flushed.
  - cbn [step]. autorewrite with fields. by apply audio_ok_app.
  - destruct (watchdog_event_flushed e) as (d & b & st & ->).
    by apply audio_ok_flushed.
  - by apply audio_ok_after_interrupt.
  - cbn [step]. rewrite after_stop.
    assert (audio_ok (kokoro e) (tasks (after interrupt (set_stop_event true e))))
      as Hint.
    { apply audio_ok_after_interrupt. by autorewrite with fields. }
    destruct (outcome interrupt _) as [[]|x]; [|done].
    by apply audio_ok_cancel_playback_task.
  - by apply audio_ok_finish_generation.
  - cbn [step]. by autorewrite with fields.
  - cbn [step]. by autorewrite with fields.
Qed.

(** The only way a task gets played. *)
Lemma played_playback_worker ok e :
  played (_playback_worker ok e) = played e ∨
  ∃ j p, played (_playback_worker ok e) = played e ++ [j] ∧
         task_state_at j e = Some (Returned (Some p)) ∧
         Py.is_empty p = false ∧
         worker e = AwaitTask j ∧
         worker (_playback_worker ok e) = Playing j p.
Proof.
  unfold _playback_worker, worker_loop_head, worker_after_await,
    worker_after_play, unmute_if_speaking.
  destruct (worker e) as [|j|j p|] eqn:Hw.
  - left. destruct (stop_event e); [by autorewrite with fields|].
    destruct (audio_queue e) as [|j q] eqn:Hq; autorewrite with fields.
    + destruct (is_speaking e); [|done].
      destruct (truthy (unmute_callback e)); by autorewrite with fields.
    + destruct (is_speaking e); [|by autorewrite with fields].
      destruct (truthy (unmute_callback e)); by autorewrite with fields.
  - destruct (task_state_at j e) as [[|[p|]| |]|] eqn:Hst;
      try (left; by autorewrite with fields).
    destruct (Py.is_empty p) eqn:Hp; [left; by autorewrite with fields|].
    destruct (fs e !! p) as [size|]; [|left; by autorewrite with fields].
    destruct (size <? MIN_ARTIFACT_BYTES); [left; by autorewrite with fields|].
    right. exists j, p.
    destruct (is_speaking e), (truthy (mute_callback e));
      by autorewrite with fields.
  - left. destruct ok; by autorewrite with fields.
  - by left.
Qed.

Lemma played_step e ev :
  played (step e ev) = played e ∨
  ∃ j p, played (step e ev) = played e ++ [j] ∧
         task_state_at j e = Some (Returned (Some p)) ∧
         Py.is_empty p = false ∧
         worker e = AwaitTask j ∧
         worker (step e ev) = Playing j p.
Proof.
  destruct ev; try (left; cbn [step]; by autorewrite with fields).
  - left. destruct (token_event_flushed token e) as (d & b & st & ->).
    by autorewrite with fields.
  - left. cbn [step].
    destruct (after_try_dispatch_flushed true e) as (d & b & st & ->).
    by autorewrite with fields.
  - left. destruct (watchdog_event_flushed e) as (d & b & st & ->).
    by autorewrite with fields.
  - left. cbn [step]. rewrite after_stop.
    destruct (outcome interrupt _) as [[]|x]; by autorewrite with fields.
  - apply played_playback_worker.
Qed.

Lemma has_audio_grow ts ts' j : tasks_grow ts ts' → has_audio ts j → has_audio ts' j.
Proof.
  intros Hgrow (text & p & Hj & Hp).
  destruct (Hgrow j _ Hj) as (t' & Hj' & Hkept).
  apply task_kept_done in Hkept; [|done]. subst t'. by exists text, p.
Qed.

Lemma audio_inv_step e ev : audio_inv e → audio_inv (step e ev).
Proof.
  intros [Hok Hplayed]. split.
  - rewrite kokoro_step. by apply audio_ok_step.
  - assert (Forall (has_audio (tasks (step e ev))) (played e)) as Hold.
    { eapply Forall_impl; [exact Hplayed|]. intros j.
      apply has_audio_grow, tasks_grow_step. }
    destruct (played_step e ev) as [->|(j & p & -> & Hst & Hp & _)]; [done|].
    apply Forall_app. split; [done|]. apply Forall_singleton.
    apply (has_audio_grow (tasks e)); [apply tasks_grow_step|].
    unfold task_state_at in Hst.
    destruct (tasks e !! j) as [[text st]|] eqn:Hj; [|done].
    injection Hst as ->. by exists text, p.
Qed.

Lemma audio_inv_run evs e : audio_inv e → audio_inv (run evs e).
Proof.
  revert e. induction evs as [|ev evs IH]; intros e Hinv; [done|].
  cbn [run fold_left]. apply IH. by apply audio_inv_step.
Qed.

Lemma audio_inv_init mute unmute tts_loaded : audio_inv (init mute unmute tts_loaded).
Proof. split; [by intros j text p Hj | constructor]. Qed.

(** X8.  Whatever was handed to the player, in any state the engine can
    reach, belongs to a task that returned a non-empty file name for a
    phrase that passes the text filter, with the TTS engine loaded:
    nothing is played for a task that was cancelled, failed or returned
    no file. *)
Theorem played_phrases_are_speakable (mute unmute : option callable)
    (tts_loaded : bool) (evs : list event) (j : nat) :
  let e := run evs (init mute unmute tts_loaded) in
  j ∈ played e →
  ∃ text p, tasks e !! j = Some (Task text (Returned (Some p))) ∧
            p ≠ EmptyString ∧ speakable text = true ∧ tts_loaded = true.
Proof.
  intros e Hj.
  destruct (audio_inv_run evs _ (audio_inv_init mute unmute tts_loaded))
    as [Hok Hplayed].
  fold e in Hok, Hplayed. rewrite Forall_forall in Hplayed.
  destruct (Hplayed j Hj) as (text & p & Hlook & Hp).
  exists text, p. destruct (Hok j text p Hlook) as [Hsp Hk].
  unfold e in Hk. rewrite kokoro_run in Hk.
  split; [done|]. split; [by apply is_empty_false|]. done.
Qed.

Lemma played_phrases_are_speakable_witness :
  ∃ text p,
    tasks (run b_finishes_first (init (Some Callable) (Some Callable) true)) !! 1
    = Some (Task text (Returned (Some p))) ∧
    p ≠ EmptyString ∧ speakable text = true ∧ true = true.
Proof.
  apply (played_phrases_are_speakable (Some Callable) (Some Callable) true
           b_finishes_first 1).
  vm_compute. apply list_elem_of_In. cbn [In]. tauto.
Defined.

(** X9.  A task cancelled by an interrupt or by stop is never played,
    whatever happens afterwards: not when its generation completes
    later, and not after further submissions, interrupts or worker
    steps. *)
Theorem cancelled_task_is_never_played (mute unmute : option callable)
    (tts_loaded : bool) (evs0 evs : list event) (j : nat) (text : string) :
  let e := run evs0 (init mute unmute tts_loaded) in
  tasks e !! j = Some (Task text Cancelled) →
  j ∉ played (run evs e).
Proof.
  intros e Hj Hin.
  destruct (tasks_grow_run evs e j _ Hj) as (t' & Hj' & Hkept).
  apply task_kept_done in Hkept; [|done]. subst t'.
  assert (audio_inv (run evs e)) as [_ Hplayed].
  { apply audio_inv_run. apply audio_inv_run, audio_inv_init. }
  rewrite Forall_forall in Hplayed.
  destruct (Hplayed j Hin) as (text' & p & Hlook & _). congruence.
Qed.

Lemma cancelled_task_is_never_played_witness :
  0 ∉ played (run [EvGenerated 0 "/tmp/a.wav" (TtsAudio (Some 100) 244);
                   EvWorker true; EvWorker true; EvWorker true]
                cancelled_phrase).
Proof.
  apply (cancelled_task_is_never_played (Some Callable) (Some Callable) true
           [EvSubmit "Hello there."; EvInterrupt] _ 0 "Hello there.").
  vm_compute. reflexivity.
Defined.

(** X10.  The task for the empty phrase that [interrupt] queues is never
    played, whatever happens afterwards: it stays in the queue until the
    worker takes it, and no generation gives it audio. *)
Theorem empty_phrase_of_interrupt_is_never_played (mute unmute : option callable)
    (tts_loaded : bool) (evs0 evs : list event) :
  let e := run evs0 (init mute unmute tts_loaded) in
  let e' := after interrupt e in
  audio_queue e' = [length (tasks e)] ∧
  tasks e' !! length (tasks e) = Some (Task EmptyString Pending) ∧
  length (tasks e) ∉ played (run evs e').
Proof.
  intros e e'.
  assert (tasks e' !! length (tasks e) = Some (Task EmptyString Pending)) as Hj.
  { unfold e'. autorewrite with fields.
    rewrite lookup_app_r; rewrite drain_length; [|lia].
    by rewrite Nat.sub_diag. }
  split; [unfold e'; by autorewrite with fields|]. split; [done|].
  intros Hin.
  destruct (tasks_grow_run evs e' _ _ Hj) as (t' & Hj' & Hphrase & _).
  assert (audio_inv (run evs e')) as [Hok Hplayed].
  { apply audio_inv_run. unfold e'. rewrite <- (step_interrupt e).
    apply audio_inv_step, audio_inv_run, audio_inv_init. }
  rewrite Forall_forall in Hplayed.
  destruct (Hplayed _ Hin) as (text & p & Hlook & _).
  destruct (Hok _ _ _ Hlook) as [Hsp _].
  rewrite Hlook in Hj'. injection Hj' as <-.
  change (text = EmptyString) in Hphrase. subst text.
  assert (speakable EmptyString = false) as Hno by (vm_compute; reflexivity).
  congruence.
Qed.

(** ** An engine without TTS *)

Lemma silent_flushed d b st e : silent e → silent (flushed d b st e).
Proof. unfold silent. by autorewrite with fields. Qed.

Lemma silent_after_interrupt e : silent e → silent (after interrupt e).
Proof.
  unfold silent. intros (Hsp & Hlog & Hfs & Hpl & Hw).
  autorewrite with fields. rewrite after_interrupt.
  destruct (truthy (mute_callback e)), (unmute_callback e) eqn:Hu;
    autorewrite with fields; repeat split; try done.
  rewrite elem_of_app. intros [?|Hin]; [done|].
  apply list_elem_of_singleton in Hin. discriminate.
Qed.

Lemma silent_step e ev :
  kokoro e = false → audio_ok (kokoro e) (tasks e) → silent e →
  silent (step e ev).
Proof.
  intros Hk Hok Hs. destruct ev.
  - cbn [step]. unfold silent in *. by autorewrite with fields.
  - destruct (token_event_flushed token e) as (d & b & st & ->).
    by apply silent_flushed.
  - cbn [step]. destruct (after_try_dispatch_flushed true e) as (d & b & st & ->).
    by apply silent_flushed.
  - cbn [step]. unfold silent in *. by autorewrite with fields.
  - destruct (watchdog_event_flushed e) as (d & b & st & ->).
    by apply silent_flushed.
  - by apply silent_after_interrupt.
  - cbn [step]. rewrite after_stop.
    assert (silent (after interrupt (set_stop_event true e))) as Hint.
    { apply silent_after_interrupt. unfold silent in *.
      by autorewrite with fields. }
    destruct (outcome interrupt _) as [[]|x]; [|done].
    destruct Hint as (Hsp & Hlog & Hfs & Hpl & Hw).
    unfold silent. autorewrite with fields in *. repeat split; done.
  - cbn [step]. unfold silent in *. autorewrite with fields.
    destruct Hs as (Hsp & Hlog & Hfs & Hpl & Hw). repeat split; try done.
    unfold finish_generation.
    destruct (tasks e !! j) as [[text st]|]; [|done]. destruct st; try done.
    destruct (_generate_speech_file _ _ _ _) as [[path size]|] eqn:Hgen;
      autorewrite with fields; [|done].
    apply generate_speech_file_Some in Hgen as [Hk' _]. congruence.
  - cbn [step]. unfold silent in *. autorewrite with fields.
    destruct Hs as (Hsp & Hlog & Hfs & Hpl & Hw). repeat split; try done.
    rewrite Hfs. apply delete_empty.
  - cbn [step]. destruct Hs as (Hsp & Hlog & Hfs & Hpl & Hw).
    unfold _playback_worker, worker_loop_head, worker_after_await,
      worker_after_play, unmute_if_speaking. rewrite Hsp.
    destruct (worker e) as [|j|j p|] eqn:Hwk.
    + destruct (stop_event e).
      { unfold silent. by autorewrite with fields. }
      destruct (audio_queue e) as [|j q]; autorewrite with fields.
      { unfold silent. by rewrite Hwk. }
      rewrite Hsp. unfold silent. by autorewrite with fields.
    + unfold task_state_at.
      destruct (tasks e !! j) as [[text [|[p|]| |]]|] eqn:Hj;
        cbn [fmap option_fmap option_map state];
        try (unfold silent; autorewrite with fields; by rewrite ?Hwk).
      destruct (Hok _ _ _ Hj) as [_ Hk']. congruence.
    + by destruct (Hw j p).
    + unfold silent. by rewrite Hwk.
Qed.

Lemma silent_run evs e :
  kokoro e = false → audio_ok (kokoro e) (tasks e) → silent e →
  silent (run evs e).
Proof.
  revert e. induction evs as [|ev evs IH]; intros e Hk Hok Hs; [done|].
  cbn [run fold_left]. apply IH.
  - by rewrite kokoro_step.
  - rewrite kokoro_step. by apply audio_ok_step.
  - by apply silent_step.
Qed.

(** X11.  When loading the TTS engine failed ([self.kokoro] is [None]),
    the engine stays silent in every state it can reach: nothing is
    handed to the player, the mute hook is never called, Speaking is
    never set and no wave file is written. *)
Theorem no_tts_engine_no_sound (mute unmute : option callable)
    (evs : list event) :
  let e := run evs (init mute unmute false) in
  played e = [] ∧ (Mute ∉ hook_log e) ∧ is_speaking e = false ∧ fs e = ∅.
Proof.
  intros e.
  assert (silent (init mute unmute false)) as Hinit.
  { repeat split; try done. apply not_elem_of_nil. }
  assert (audio_ok (kokoro (init mute unmute false))
            (tasks (init mute unmute false))) as Hok.
  { by intros j text p Hj. }
  destruct (silent_run evs (init mute unmute false) eq_refl Hok Hinit)
    as (Hsp & Hlog & Hfs & Hpl & _).
  done.
Qed.

(** ** Interrupt, stop and the worker *)

Lemma run_cons ev evs e : run (ev :: evs) e = run evs (step e ev).
Proof. reflexivity. Qed.

Lemma run_nil e : run [] e = e.
Proof. reflexivity. Qed.

Lemma step_worker ok e : step e (EvWorker ok) = _playback_worker ok e.
Proof. reflexivity. Qed.

Lemma step_generated j fname r e :
  step e (EvGenerated j fname r) = finish_generation j fname r e.
Proof. reflexivity. Qed.

Lemma hooks_step e ev :
  mute_callback (step e ev) = mute_callback e ∧
  unmute_callback (step e ev) = unmute_callback e.
Proof.
  destruct ev.
  - cbn [step]. by autorewrite with fields.
  - destruct (token_event_flushed token e) as (d & b & st & ->).
    by autorewrite with fields.
  - cbn [step]. destruct (after_try_dispatch_flushed true e) as (d & b & st & ->).
    by autorewrite with fields.
  - cbn [step]. by autorewrite with fields.
  - destruct (watchdog_event_flushed e) as (d & b & st & ->).
    by autorewrite with fields.
  - cbn [step]. by autorewrite with fields.
  - cbn [step]. rewrite after_stop.
    destruct (outcome interrupt _) as [[]|x]; by autorewrite with fields.
  - cbn [step]. by autorewrite with fields.
  - cbn [step]. by autorewrite with fields.
  - cbn [step]. by autorewrite with fields.
Qed.

Lemma hooks_run evs e :
  mute_callback (run evs e) = mute_callback e ∧
  unmute_callback (run evs e) = unmute_callback e.
Proof.
  revert e. induction evs as [|ev evs IH]; intros e; [done|].
  rewrite run_cons. destruct (IH (step e ev)) as [-> ->]. apply hooks_step.
Qed.

Lemma drain_lookup_notin queue ts j :
  j ∉ queue → drain queue ts !! j = ts !! j.
Proof.
  revert ts. induction queue as [|i queue IH]; intros ts Hnot; [done|].
  cbn [drain]. apply not_elem_of_cons in Hnot as [Hne Hnot].
  rewrite IH by done. rewrite cancel_task_lookup. by destruct (decide (j = i)).
Qed.

Lemma awaited_not_queued e j :
  order_inv e → worker e = AwaitTask j →
  (j ∉ audio_queue e) ∧ j < length (tasks e).
Proof.
  intros [Hsorted Hknown] Hw. unfold pipeline, awaited in *. rewrite Hw in *.
  split.
  - assert (StronglySorted lt (j :: audio_queue e)) as Hs.
    { eapply StronglySorted_sublist; [|exact Hsorted].
      by apply sublist_inserts_l. }
    apply StronglySorted_cons in Hs as [Hall _].
    intros Hin. rewrite Forall_forall in Hall. specialize (Hall j Hin). lia.
  - rewrite Forall_forall in Hknown. apply Hknown.
    rewrite elem_of_app. right. apply list_elem_of_In. cbn [app In]. tauto.
Qed.

Lemma finish_generation_audio j fname n size text e :
  tasks e !! j = Some (Task text Pending) →
  kokoro e = true →
  speakable text = true →
  finish_generation j fname (TtsAudio (Some (S n)) size) e =
  set_fs (<[fname := size]> (fs e))
    (set_tasks (<[j := Task text (Returned (Some fname))]> (tasks e)) e).
Proof.
  intros Hj Hk Hsp. unfold finish_generation. rewrite Hj, Hk.
  unfold _generate_speech_file. unfold speakable in Hsp.
  apply negb_true_iff in Hsp. cbv zeta in *. cbn [negb]. by rewrite Hsp.
Qed.

Lemma worker_after_await_plays j p size e :
  task_state_at j e = Some (Returned (Some p)) →
  Py.is_empty p = false →
  fs e !! p = Some size →
  MIN_ARTIFACT_BYTES ≤ size →
  worker_after_await j e =
  set_worker (Playing j p)
    (log_played j
       (if is_speaking e then e
        else set_is_speaking true
               (if truthy (mute_callback e) then log_hook Mute e else e))).
Proof.
  intros Hst Hp Hfs Hsize. unfold worker_after_await. rewrite Hst, Hp, Hfs.
  apply Nat.ltb_ge in Hsize. by rewrite Hsize.
Qed.

(** X12.  An interrupt does not reach the phrase the worker has already
    taken from the queue: that task is neither cancelled nor dropped,
    and when its generation then completes with a playable file, the
    phrase is played after the interrupt. *)
Theorem interrupt_spares_phrase_in_flight (mute unmute : option callable)
    (evs : list event) (j : nat) (text fname : string) (n size : nat)
    (ok : bool) :
  let e := run evs (init mute unmute true) in
  worker e = AwaitTask j →
  tasks e !! j = Some (Task text Pending) →
  speakable text = true →
  fname ≠ EmptyString →
  MIN_ARTIFACT_BYTES ≤ size →
  let e1 := after interrupt e in
  let e3 := run [EvGenerated j fname (TtsAudio (Some (S n)) size); EvWorker ok]
              e1 in
  tasks e1 !! j = Some (Task text Pending) ∧
  worker e1 = AwaitTask j ∧
  played e3 = played e ++ [j] ∧
  worker e3 = Playing j fname.
Proof.
  intros e Hw Hj Hsp Hfn Hsize e1 e3.
  assert (order_inv e) as Hinv by apply order_inv_run, order_inv_init.
  destruct (awaited_not_queued e j Hinv Hw) as [Hnq Hlt].
  assert (tasks e1 !! j = Some (Task text Pending)) as Hj1.
  { unfold e1. autorewrite with fields.
    rewrite lookup_app_l by (by rewrite drain_length).
    by rewrite drain_lookup_notin. }
  assert (worker e1 = AwaitTask j) as Hw1
    by (unfold e1; by autorewrite with fields).
  assert (kokoro e1 = true) as Hk1.
  { unfold e1. autorewrite with fields. unfold e. by rewrite kokoro_run. }
  assert (played e1 = played e) as Hp1
    by (unfold e1; by autorewrite with fields).
  split; [done|]. split; [done|].
  unfold e3. rewrite !run_cons, run_nil, step_generated, step_worker.
  rewrite (finish_generation_audio j fname n size text e1) by done.
  set (e2 := set_fs _ _).
  assert (worker e2 = AwaitTask j) as Hw2
    by (unfold e2; by autorewrite with fields).
  assert (task_state_at j e2 = Some (Returned (Some fname))) as Hst2.
  { unfold task_state_at, e2. autorewrite with fields.
    rewrite list_lookup_insert_eq; [done|]. by eapply lookup_lt_Some. }
  assert (fs e2 !! fname = Some size) as Hfs2.
  { unfold e2. autorewrite with fields. by simplify_map_eq. }
  assert (played e2 = played e) as Hp2
    by (unfold e2; by autorewrite with fields).
  unfold _playback_worker. rewrite Hw2.
  rewrite (worker_after_await_plays j fname size e2); try done;
    [|by apply is_empty_false].
  autorewrite with fields.
  destruct (is_speaking e2), (truthy (mute_callback e2));
    autorewrite with fields; by rewrite Hp2.
Qed.

Lemma interrupt_spares_phrase_in_flight_witness :
  let e1 := after interrupt awaiting_hello in
  let e3 := run [EvGenerated 0 "/tmp/a.wav" (TtsAudio (Some 100) 244);
                 EvWorker true] e1 in
  tasks e1 !! 0 = Some (Task "Hello there." Pending) ∧
  worker e1 = AwaitTask 0 ∧
  played e3 = played awaiting_hello ++ [0] ∧
  worker e3 = Playing 0 "/tmp/a.wav".
Proof.
  apply (interrupt_spares_phrase_in_flight (Some Callable) (Some Callable)
           [EvSubmit "Hello there."; EvWorker true] 0 "Hello there."
           "/tmp/a.wav" 99 244 true).
  - vm_compute. reflexivity.
  - vm_compute. reflexivity.
  - vm_compute. reflexivity.
  - discriminate.
  - unfold MIN_ARTIFACT_BYTES. lia.
Defined.

Lemma outcome_stop e : outcome stop e = outcome interrupt (set_stop_event true e).
Proof.
  unfold outcome, stop, bind, modify.
  by destruct (interrupt (set_stop_event true e)) as [[[]|x] e1].
Qed.

(** X13.  An engine given a mute hook and no unmute hook cannot be
    interrupted or stopped cleanly: [interrupt] raises TypeError after it
    has drained the queue, without resetting Speaking, and [stop] raises
    the same error before it cancels the playback task, so the worker is
    left as it was with the stop event set. *)
Theorem interrupt_without_unmute_hook_raises (e : engine) :
  truthy (mute_callback e) = true →
  unmute_callback e = None →
  outcome interrupt e = Raise TypeError ∧
  audio_queue (after interrupt e) = [length (tasks e)] ∧
  is_speaking (after interrupt e) = is_speaking e ∧
  hook_log (after interrupt e) = hook_log e ∧
  outcome stop e = Raise TypeError ∧
  stop_event (after stop e) = true ∧
  worker (after stop e) = worker e.
Proof.
  intros Hm Hu.
  assert (outcome interrupt (set_stop_event true e) = Raise TypeError) as Hstop.
  { unfold outcome. rewrite interrupt_unfold. autorewrite with fields.
    by rewrite Hm, Hu. }
  split; [unfold outcome; rewrite interrupt_unfold; by rewrite Hm, Hu|].
  split; [by autorewrite with fields|].
  rewrite after_interrupt, Hm, Hu. autorewrite with fields.
  split; [done|]. split; [done|].
  rewrite outcome_stop, after_stop, Hstop. by autorewrite with fields.
Qed.

Lemma interrupt_without_unmute_hook_raises_witness :
  outcome interrupt mute_only = Raise TypeError ∧
  outcome stop mute_only = Raise TypeError ∧
  worker (after stop mute_only) = LoopHead.
Proof.
  destruct (interrupt_without_unmute_hook_raises mute_only)
    as (Hint & _ & _ & _ & Hstop & _ & Hw); [reflexivity | reflexivity |].
  split; [exact Hint|]. split; [exact Hstop | exact Hw].
Defined.

Lemma not_mute_unmute : Mute ∉ [Unmute].
Proof. intros Hin. apply list_elem_of_singleton in Hin. discriminate. Qed.

Lemma hook_log_after_interrupt_cases e :
  ∃ l, hook_log (after interrupt e) = hook_log e ++ l ∧ Mute ∉ l.
Proof.
  rewrite after_interrupt.
  destruct (truthy (mute_callback e)), (unmute_callback e);
    autorewrite with fields;
    first [ exists [Unmute]; split; [done | apply not_mute_unmute]
          | exists []; split; [by rewrite app_nil_r | apply not_elem_of_nil] ].
Qed.

Lemma exited_step e ev :
  worker e = Exited →
  worker (step e ev) = Exited ∧ played (step e ev) = played e ∧
  ∃ l, hook_log (step e ev) = hook_log e ++ l ∧ Mute ∉ l.
Proof.
  intros Hw.
  assert (∀ e', hook_log e' = hook_log e →
                ∃ l, hook_log e' = hook_log e ++ l ∧ Mute ∉ l) as Hnone.
  { intros e' ->. exists []. split; [by rewrite app_nil_r | apply not_elem_of_nil]. }
  destruct ev.
  - cbn [step]. autorewrite with fields. repeat split; try done.
    apply Hnone. by autorewrite with fields.
  - destruct (token_event_flushed token e) as (d & b & st & ->).
    autorewrite with fields. repeat split; try done.
    apply Hnone. by autorewrite with fields.
  - cbn [step]. destruct (after_try_dispatch_flushed true e) as (d & b & st & ->).
    autorewrite with fields. repeat split; try done.
    apply Hnone. by autorewrite with fields.
  - cbn [step]. autorewrite with fields. repeat split; try done.
    apply Hnone. by autorewrite with fields.
  - destruct (watchdog_event_flushed e) as (d & b & st & ->).
    autorewrite with fields. repeat split; try done.
    apply Hnone. by autorewrite with fields.
  - cbn [step]. autorewrite with fields. repeat split; try done.
    apply hook_log_after_interrupt_cases.
  - cbn [step]. rewrite after_stop.
    destruct (hook_log_after_interrupt_cases (set_stop_event true e))
      as (l & Hl & Hnot).
    autorewrite with fields in Hl.
    destruct (outcome interrupt _) as [[]|x]; autorewrite with fields;
      repeat split; try done; by exists l.
  - cbn [step]. autorewrite with fields. repeat split; try done.
    apply Hnone. by autorewrite with fields.
  - cbn [step]. autorewrite with fields. repeat split; try done.
    apply Hnone. by autorewrite with fields.
  - cbn [step]. unfold _playback_worker. rewrite Hw. repeat split; try done.
    by apply Hnone.
Qed.

Lemma exited_run evs e :
  worker e = Exited →
  worker (run evs e) = Exited ∧ played (run evs e) = played e ∧
  ∃ l, hook_log (run evs e) = hook_log e ++ l ∧ Mute ∉ l.
Proof.
  revert e. induction evs as [|ev evs IH]; intros e Hw.
  - repeat split; try done. exists [].
    split; [by rewrite app_nil_r | apply not_elem_of_nil].
  - rewrite run_cons.
    destruct (exited_step e ev Hw) as (Hw1 & Hp1 & l1 & Hl1 & Hn1).
    destruct (IH _ Hw1) as (Hw2 & Hp2 & l2 & Hl2 & Hn2).
    repeat split; [done | congruence |].
    exists (l1 ++ l2). split; [by rewrite Hl2, Hl1, app_assoc|].
    rewrite elem_of_app. tauto.
Qed.

(** X14.  Stop is final: when [stop] returns, the stop event is set,
    Speaking is false and the worker has left; whatever is submitted or
    generated afterwards, nothing more is played and the mute hook is not
    called again. *)
Theorem nothing_plays_after_stop (e : engine) (evs : list event) :
  outcome stop e = Ok () →
  let e' := after stop e in
  stop_event e' = true ∧ is_speaking e' = false ∧ worker e' = Exited ∧
  worker (run evs e') = Exited ∧
  played (run evs e') = played e ∧
  ∃ l, hook_log (run evs e') = hook_log e' ++ l ∧ Mute ∉ l.
Proof.
  intros Hok e'. rewrite outcome_stop in Hok.
  assert (e' = cancel_playback_task (after interrupt (set_stop_event true e)))
    as He'.
  { unfold e'. by rewrite after_stop, Hok. }
  assert (worker e' = Exited) as Hw by (rewrite He'; by autorewrite with fields).
  assert (played e' = played e) as Hp by (rewrite He'; by autorewrite with fields).
  destruct (exited_run evs e' Hw) as (Hw' & Hp' & Hl).
  split; [rewrite He'; by autorewrite with fields|].
  split.
  { rewrite He'. autorewrite with fields.
    by apply (interrupt_drains_and_resets (set_stop_event true e)). }
  split; [done|]. split; [done|]. split; [congruence | done].
Qed.

Lemma nothing_plays_after_stop_witness :
  let e' := after stop ready_to_play in
  let evs := [EvSubmit "Are you there?"; EvWorker true; EvWorker true] in
  stop_event e' = true ∧ is_speaking e' = false ∧ worker e' = Exited ∧
  worker (run evs e') = Exited ∧
  played (run evs e') = played ready_to_play ∧
  ∃ l, hook_log (run evs e') = hook_log e' ++ l ∧ Mute ∉ l.
Proof.
  apply (nothing_plays_after_stop ready_to_play). vm_compute. reflexivity.
Defined.

(** X15.  One playback cycle.  When the worker, at its loop head, finds
    at the head of the queue a task that returned an existing file of at
    least 100 bytes, three segments later it is back at the loop head:
    the task was handed to the player, its file is deleted, Speaking is
    still true (the unmute is left to the next turn of the loop), and the
    hooks called were the unmute made before awaiting, when Speaking was
    true, followed by mute.  Between two phrases played back to back the
    microphone is thus opened and muted again. *)
Theorem playback_cycle (e : engine) (j : nat) (queue' : list nat)
    (temp_path : string) (size : nat) (ok1 ok2 : bool) :
  worker e = LoopHead →
  stop_event e = false →
  audio_queue e = j :: queue' →
  task_state_at j e = Some (Returned (Some temp_path)) →
  temp_path ≠ EmptyString →
  fs e !! temp_path = Some size →
  MIN_ARTIFACT_BYTES ≤ size →
  let e' := run [EvWorker ok1; EvWorker ok2; EvWorker true] e in
  worker e' = LoopHead ∧
  audio_queue e' = queue' ∧
  played e' = played e ++ [j] ∧
  fs e' = delete temp_path (fs e) ∧
  is_speaking e' = true ∧
  hook_log e' = hook_log e ++ cycle_hooks e.
Proof.
  intros Hw Hstop Hq Htask Hpath Hfile Hsize e'.
  unfold e'. rewrite !run_cons, run_nil, !step_worker.
  assert (_playback_worker ok1 e =
          set_worker (AwaitTask j) (unmute_if_speaking (set_audio_queue queue' e)))
    as ->.
  { unfold _playback_worker, worker_loop_head. by rewrite Hw, Hstop, Hq. }
  set (e1 := set_worker (AwaitTask j) (unmute_if_speaking (set_audio_queue queue' e))).
  assert (worker e1 = AwaitTask j) as Hw1
    by (unfold e1; by autorewrite with fields).
  assert (task_state_at j e1 = Some (Returned (Some temp_path))) as Htask1.
  { unfold task_state_at, e1 in *. by autorewrite with fields. }
  assert (fs e1 !! temp_path = Some size) as Hfile1
    by (unfold e1; by autorewrite with fields).
  assert (is_speaking e1 = false) as Hsp1
    by (unfold e1; by autorewrite with fields).
  assert (_playback_worker ok2 e1 =
          set_worker (Playing j temp_path)
            (log_played j
               (set_is_speaking true
                  (if truthy (mute_callback e1) then log_hook Mute e1 else e1))))
    as ->.
  { unfold _playback_worker. rewrite Hw1.
    rewrite (worker_after_await_plays j temp_path size e1); try done;
      [by rewrite Hsp1 | by apply is_empty_false]. }
  set (e2 := set_worker (Playing j temp_path) _).
  assert (worker e2 = Playing j temp_path) as Hw2
    by (unfold e2; by autorewrite with fields).
  unfold _playback_worker. rewrite Hw2. unfold worker_after_play.
  autorewrite with fields. unfold e2. autorewrite with fields.
  assert (mute_callback e1 = mute_callback e) as Hm1
    by (unfold e1; by autorewrite with fields).
  rewrite Hm1. unfold cycle_hooks.
  destruct (truthy (mute_callback e)); autorewrite with fields;
    unfold e1; autorewrite with fields;
    repeat split; try done; by rewrite ?app_nil_r, ?app_assoc.
Qed.

Lemma playback_cycle_witness :
  let e' := run [EvWorker true; EvWorker true; EvWorker true] ready_to_play in
  worker e' = LoopHead ∧ audio_queue e' = [] ∧
  played e' = played ready_to_play ++ [0] ∧
  fs e' = delete "/tmp/a.wav" (fs ready_to_play) ∧
  is_speaking e' = true ∧
  hook_log e' = hook_log ready_to_play ++ cycle_hooks ready_to_play.
Proof.
  apply (playback_cycle ready_to_play 0 [] "/tmp/a.wav" 244 true true).
  - vm_compute. reflexivity.
  - vm_compute. reflexivity.
  - vm_compute. reflexivity.
  - vm_compute. reflexivity.
  - discriminate.
  - vm_compute. reflexivity.
  - unfold MIN_ARTIFACT_BYTES. lia.
Defined.

(** X16.  The worker does not stall on a task that has nothing to play.
    When the task at the head of the queue was cancelled, failed,
    returned no file name or an empty one, or its file is not there,
    the worker is back at the loop head two segments later with the rest
    of the queue: nothing was handed to the player, no file was touched,
    Speaking is false and the mute hook was not called. *)
Theorem unplayable_task_is_skipped (e : engine) (j : nat) (queue' : list nat)
    (ok1 ok2 : bool) :
  worker e = LoopHead →
  stop_event e = false →
  audio_queue e = j :: queue' →
  unplayable e j = true →
  let e' := run [EvWorker ok1; EvWorker ok2] e in
  worker e' = LoopHead ∧
  audio_queue e' = queue' ∧
  played e' = played e ∧
  fs e' = fs e ∧
  is_speaking e' = false ∧
  hook_log e' =
    hook_log e ++
    (if is_speaking e && truthy (unmute_callback e) then [Unmute] else []).
Proof.
  intros Hw Hstop Hq Hun e'.
  unfold e'. rewrite !run_cons, run_nil, !step_worker.
  assert (_playback_worker ok1 e =
          set_worker (AwaitTask j) (unmute_if_speaking (set_audio_queue queue' e)))
    as ->.
  { unfold _playback_worker, worker_loop_head. by rewrite Hw, Hstop, Hq. }
  set (e1 := set_worker (AwaitTask j) (unmute_if_speaking (set_audio_queue queue' e))).
  assert (worker e1 = AwaitTask j) as Hw1
    by (unfold e1; by autorewrite with fields).
  assert (task_state_at j e1 = task_state_at j e) as Htask1.
  { unfold task_state_at, e1. by autorewrite with fields. }
  assert (fs e1 = fs e) as Hfs1 by (unfold e1; by autorewrite with fields).
  assert (_playback_worker ok2 e1 = set_worker LoopHead e1) as ->.
  { unfold _playback_worker. rewrite Hw1.
    unfold worker_after_await. rewrite Htask1, Hfs1.
    unfold unplayable in Hun.
    destruct (task_state_at j e) as [[|[p|]| |]|]; try done.
    destruct (Py.is_empty p); [done|]. cbn [orb] in Hun.
    apply bool_decide_eq_true in Hun. by rewrite Hun. }
  unfold e1. by autorewrite with fields.
Qed.

Lemma unplayable_task_is_skipped_witness :
  let e' := run [EvWorker true; EvWorker true] empty_phrase_generated in
  worker e' = LoopHead ∧ audio_queue e' = [] ∧
  played e' = played empty_phrase_generated ∧
  fs e' = fs empty_phrase_generated ∧
  is_speaking e' = false ∧
  hook_log e' =
    hook_log empty_phrase_generated ++
    (if is_speaking empty_phrase_generated
        && truthy (unmute_callback empty_phrase_generated)
     then [Unmute] else []).
Proof.
  apply (unplayable_task_is_skipped empty_phrase_generated 0 [] true true);
    vm_compute; reflexivity.
Defined.

(** ** Playback and the microphone *)

Lemma playing_inv_frame e e' :
  mute_callback e' = mute_callback e → worker e' = worker e →
  is_speaking e' = is_speaking e → hook_log e' = hook_log e →
  playing_inv e → playing_inv e'.
Proof.
  unfold playing_inv, mic_muted. by intros -> -> -> ->.
Qed.

Lemma playing_inv_playback_worker ok e :
  playing_inv e → playing_inv (_playback_worker ok e).
Proof.
  intros [Hm Hw]. unfold playing_inv. autorewrite with fields.
  split; [done|].
  unfold _playback_worker, worker_loop_head, worker_after_await,
    worker_after_play.
  destruct (worker e) as [|j|j p|] eqn:Hwk.
  - destruct (stop_event e); [by autorewrite with fields|].
    destruct (audio_queue e) as [|j q]; autorewrite with fields;
      [by rewrite Hwk | done].
  - destruct (task_state_at j e) as [[|[p|]| |]|];
      autorewrite with fields; rewrite ?Hwk; try done.
    destruct (Py.is_empty p); [by autorewrite with fields|].
    destruct (fs e !! p) as [size|]; [|by autorewrite with fields].
    destruct (size <? MIN_ARTIFACT_BYTES); [by autorewrite with fields|].
    rewrite Hw, Hm. autorewrite with fields. unfold mic_muted.
    autorewrite with fields. split; [done | apply last_snoc].
  - by autorewrite with fields.
  - by rewrite Hwk.
Qed.

Lemma playing_inv_step e ev :
  ev ≠ EvInterrupt → ev ≠ EvStop → playing_inv e → playing_inv (step e ev).
Proof.
  intros Hint Hstop Hinv. destruct ev.
  - cbn [step]. apply (playing_inv_frame e); try done; by autorewrite with fields.
  - destruct (token_event_flushed token e) as (d & b & st & ->).
    apply (playing_inv_frame e); try done; by autorewrite with fields.
  - cbn [step]. destruct (after_try_dispatch_flushed true e) as (d & b & st & ->).
    apply (playing_inv_frame e); try done; by autorewrite with fields.
  - cbn [step]. apply (playing_inv_frame e); try done; by autorewrite with fields.
  - destruct (watchdog_event_flushed e) as (d & b & st & ->).
    apply (playing_inv_frame e); try done; by autorewrite with fields.
  - done.
  - done.
  - cbn [step]. apply (playing_inv_frame e); try done; by autorewrite with fields.
  - cbn [step]. apply (playing_inv_frame e); try done; by autorewrite with fields.
  - by apply playing_inv_playback_worker.
Qed.

Lemma playing_inv_run evs e :
  EvInterrupt ∉ evs → EvStop ∉ evs → playing_inv e → playing_inv (run evs e).
Proof.
  revert e. induction evs as [|ev evs IH]; intros e Hint Hstop Hinv; [done|].
  apply not_elem_of_cons in Hint as [Hint1 Hint].
  apply not_elem_of_cons in Hstop as [Hstop1 Hstop].
  rewrite run_cons. apply IH; try done. by apply playing_inv_step.
Qed.

(** X17.  The microphone is muted while audio plays, unless the playback
    is interrupted.  In every state an engine with both hooks reaches
    without interrupt or stop, when the worker is in the player process
    Speaking is true and the last hook called was mute.  An interrupt in
    such a state does not end the playback: the worker stays in the
    player process, while Speaking is reset and the microphone is
    opened. *)
Theorem microphone_is_muted_while_playing (tts_loaded : bool)
    (evs : list event) (j : nat) (p : string) :
  let e := run evs (init (Some Callable) (Some Callable) tts_loaded) in
  worker e = Playing j p →
  (EvInterrupt ∉ evs → EvStop ∉ evs → is_speaking e = true ∧ mic_muted e) ∧
  (let e' := after interrupt e in
   worker e' = Playing j p ∧ is_speaking e' = false ∧ ¬ mic_muted e').
Proof.
  intros e Hw. split.
  - intros Hint Hstop.
    assert (playing_inv e) as [_ Hinv].
    { by apply playing_inv_run. }
    by rewrite Hw in Hinv.
  - cbv zeta. autorewrite with fields. split; [done|].
    destruct (hooks_run evs (init (Some Callable) (Some Callable) tts_loaded))
      as [Hm Hu].
    fold e in Hm, Hu. rewrite after_interrupt, Hm, Hu.
    cbn [init mute_callback unmute_callback truthy].
    unfold mic_muted. autorewrite with fields. split; [done|].
    by rewrite last_snoc.
Qed.

Lemma microphone_is_muted_while_playing_witness :
  let e := run now_playing (init (Some Callable) (Some Callable) true) in
  (EvInterrupt ∉ now_playing → EvStop ∉ now_playing →
   is_speaking e = true ∧ mic_muted e) ∧
  (let e' := after interrupt e in
   worker e' = Playing 0 "/tmp/a.wav" ∧ is_speaking e' = false ∧ ¬ mic_muted e').
Proof.
  apply (microphone_is_muted_while_playing true now_playing 0 "/tmp/a.wav").
  vm_compute. reflexivity.
Defined.

(** X18.  As long as the player process does not fail, Speaking tells
    whether the microphone is muted: in every state that an engine with
    both hooks reaches, Speaking is true exactly when the last hook
    called was mute. *)
Theorem speaking_iff_muted_without_playback_failure (tts_loaded : bool)
    (evs : list event) :
  EvWorker false ∉ evs →
  let e := run evs (init (Some Callable) (Some Callable) tts_loaded) in
  is_speaking e = true ↔ mic_muted e.
Proof.
  intros Hevs e.
  assert (mute_tracks_speaking (init (Some Callable) (Some Callable) tts_loaded))
    as Hinit.
  { split; [done|]. split; [done|]. split; intros; discriminate. }
  assert (∀ e0, mute_tracks_speaking e0 → mute_tracks_speaking (run evs e0))
    as Hrun.
  { clear e Hinit. induction evs as [|ev evs IH]; intros e0 Hinv; [done|].
    apply not_elem_of_cons in Hevs as [Hev Hevs].
    rewrite run_cons. apply IH; [done|].
    apply mute_tracks_speaking_step; [congruence | done]. }
  by destruct (Hrun _ Hinit) as (_ & _ & Hiff).
Qed.

Lemma speaking_iff_muted_without_playback_failure_witness :
  let e := run b_finishes_first (init (Some Callable) (Some Callable) true) in
  is_speaking e = true ↔ mic_muted e.
Proof.
  apply (speaking_iff_muted_without_playback_failure true b_finishes_first).
  intros Hin. apply list_elem_of_In in Hin. unfold b_finishes_first in Hin.
  cbn [In] in Hin. intuition discriminate.
Defined.

(** ** The conversation loop *)

Lemma lower_app a b : Py.lower (a +:+ b) = Py.lower a +:+ Py.lower b.
Proof.
  induction a as [|c a IH]; [done|].
  rewrite string_app_cons. cbn [Py.lower]. by rewrite string_app_cons, IH.
Qed.

Lemma startswith_app sub s : startswith sub (sub +:+ s) = true.
Proof.
  induction sub as [|c sub IH]; [done|].
  rewrite string_app_cons. cbn [startswith]. by rewrite Ascii.eqb_refl, IH.
Qed.

Lemma contains_app sub a b : contains sub (a +:+ sub +:+ b) = true.
Proof.
  induction a as [|c a IH].
  - rewrite string_app_nil. destruct (sub +:+ b) eqn:Hs.
    + cbn [contains]. rewrite <- Hs, startswith_app. done.
    + cbn [contains]. rewrite <- Hs, startswith_app. done.
  - rewrite string_app_cons. cbn [contains]. rewrite IH. apply orb_true_r.
Qed.

Lemma is_command_inside a w b :
  Py.lower w = "stop" ∨ Py.lower w = "shut up" →
  is_command (a +:+ w +:+ b) = true.
Proof.
  intros Hw. unfold is_command. rewrite !lower_app.
  destruct Hw as [-> | ->]; rewrite contains_app; [done | apply orb_true_r].
Qed.

Lemma segmenter_step_frame e ev :
  segmenter_event ev →
  stop_event (step e ev) = stop_event e ∧ worker (step e ev) = worker e.
Proof.
  destruct ev; try done; intros _.
  - destruct (token_event_flushed token e) as (d & b & st & ->).
    by autorewrite with fields.
  - cbn [step]. destruct (after_try_dispatch_flushed true e) as (d & b & st & ->).
    by autorewrite with fields.
  - destruct (watchdog_event_flushed e) as (d & b & st & ->).
    by autorewrite with fields.
Qed.

Lemma segmenter_run_frame evs e :
  Forall segmenter_event evs →
  stop_event (run evs e) = stop_event e ∧ worker (run evs e) = worker e.
Proof.
  intros Hevs. revert e. induction Hevs as [|ev evs Hev _ IH]; intros e; [done|].
  rewrite run_cons. destruct (IH (step e ev)) as [-> ->].
  by apply segmenter_step_frame.
Qed.

Lemma token_events tokens : Forall segmenter_event (EvToken <$> tokens).
Proof. apply Forall_fmap, Forall_true. done. Qed.

Lemma outcome_interrupt_ok e :
  unmute_callback e ≠ None → outcome interrupt e = Ok ().
Proof.
  intros Hu. unfold outcome. rewrite interrupt_unfold.
  by destruct (truthy (mute_callback e)), (unmute_callback e).
Qed.

Lemma conversation_turn_unfold u s :
  unmute_callback (engine_of s) ≠ None →
  conversation_turn u s =
  let e0 := after interrupt (run (meanwhile u) (engine_of s)) in
  if is_command (user_text u)
  then (Ok (), Session e0 (rag_context s) (prompts s))
  else (outcome (generate_and_speak (user_text u) (reply u)) e0,
        Session (after (generate_and_speak (user_text u) (reply u)) e0)
          (retrieved u)
          (prompts s ++
           [messages (retrieved u) (history (engine_of s)) (user_text u)])).
Proof.
  intros Hu.
  assert (outcome interrupt (run (meanwhile u) (engine_of s)) = Ok ()) as Hok.
  { apply outcome_interrupt_ok. by rewrite (proj2 (hooks_run _ _)). }
  unfold conversation_turn, interrupt_session, speak, set_rag_context.
  cbn [engine_of rag_context prompts]. rewrite Hok. cbv zeta.
  cbn [engine_of rag_context prompts].
  autorewrite with fields. by rewrite run_history.
Qed.

Lemma generate_and_speak_frame user_input llm e :
  let e' := after (generate_and_speak user_input llm) e in
  unmute_callback e' = unmute_callback e ∧
  stop_event e' = stop_event e ∧ worker e' = worker e.
Proof.
  intros e'. unfold e', after. rewrite generate_and_speak_unfold.
  destruct llm as [|tokens []]; cbn [snd]; unfold remember;
    autorewrite with fields; rewrite ?(proj2 (hooks_run _ _)).
  - done.
  - destruct (segmenter_run_frame ((EvToken <$> tokens) ++ [EvStreamEnd]) e)
      as [-> ->]; [|done].
    apply Forall_app. split; [apply token_events | by repeat constructor].
  - by destruct (segmenter_run_frame (EvToken <$> tokens) e (token_events _))
      as [-> ->].
Qed.

Lemma conversation_turn_hook u s :
  unmute_callback (engine_of s) ≠ None →
  unmute_callback (engine_of (snd (conversation_turn u s))) ≠ None.
Proof.
  intros Hu. rewrite conversation_turn_unfold by done. cbv zeta.
  destruct (is_command (user_text u)); cbn [snd engine_of].
  - autorewrite with fields. by rewrite (proj2 (hooks_run _ _)).
  - rewrite (proj1 (generate_and_speak_frame _ _ _)). autorewrite with fields.
    by rewrite (proj2 (hooks_run _ _)).
Qed.

(** X19.  An utterance that contains "stop" or "shut up", in any letter
    case and even inside another word, is a command: the turn only
    interrupts the engine.  Nothing is sent to the LLM, the retrieved
    context is not stored and the history is not touched. *)
Theorem command_utterance_only_interrupts (u : utterance) (s : session)
    (a w b : string) :
  user_text u = a +:+ w +:+ b →
  Py.lower w = "stop" ∨ Py.lower w = "shut up" →
  unmute_callback (engine_of s) ≠ None →
  let s' := snd (conversation_turn u s) in
  fst (conversation_turn u s) = Ok () ∧
  prompts s' = prompts s ∧
  rag_context s' = rag_context s ∧
  history (engine_of s') = history (engine_of s) ∧
  engine_of s' = after interrupt (run (meanwhile u) (engine_of s)).
Proof.
  intros Htext Hw Hu s'. unfold s'.
  rewrite conversation_turn_unfold by done. cbv zeta.
  rewrite Htext, is_command_inside by done. cbn [fst snd engine_of prompts rag_context].
  autorewrite with fields. by rewrite run_history.
Qed.

Lemma command_utterance_only_interrupts_witness :
  let s := start true in
  let s' := snd (conversation_turn unstoppable s) in
  fst (conversation_turn unstoppable s) = Ok () ∧
  prompts s' = prompts s ∧
  rag_context s' = rag_context s ∧
  history (engine_of s') = history (engine_of s) ∧
  engine_of s' = after interrupt (run (meanwhile unstoppable) (engine_of s)).
Proof.
  apply (command_utterance_only_interrupts unstoppable (start true)
           "You are un" "STOP" "pable").
  - reflexivity.
  - left. reflexivity.
  - discriminate.
Defined.

(** X20.  One failure of the LLM ends the conversation: when the reply
    to an utterance that is not a command fails, the TypeError raised by
    [generate_and_speak] leaves the loop.  The utterances that follow are
    not processed and the cleanup is not reached: the stop event is as
    it was, and the last thing queued is the fallback phrase. *)
Theorem llm_failure_ends_the_loop (u : utterance) (rest : list utterance)
    (w : wait_end) (s : session) :
  is_command (user_text u) = false →
  (∀ tokens, reply u ≠ Stream tokens true) →
  unmute_callback (engine_of s) ≠ None →
  let e0 := run (meanwhile u) (engine_of s) in
  let s' := snd (run_conversation_loop (u :: rest) w s) in
  fst (run_conversation_loop (u :: rest) w s) = LoopRaises TypeError ∧
  prompts s' =
    prompts s ++ [messages (retrieved u) (history (engine_of s)) (user_text u)] ∧
  stop_event (engine_of s') = stop_event e0 ∧
  last (tasks (engine_of s')) = Some (Task FALLBACK_PHRASE Pending).
Proof.
  intros Hcmd Hfail Hu e0 s'. unfold s'. cbn [run_conversation_loop].
  rewrite conversation_turn_unfold by done. cbv zeta. rewrite Hcmd.
  set (e1 := after interrupt (run (meanwhile u) (engine_of s))).
  destruct (generate_and_speak_frame (user_text u) (reply u) e1)
    as (_ & Hstop & Hwork).
  assert (stop_event e1 = stop_event e0 ∧ worker e1 = worker e0) as [Hs1 Hw1]
    by (unfold e1, e0; by autorewrite with fields).
  unfold outcome, after in *. rewrite generate_and_speak_unfold in *.
  destruct (reply u) as [|tokens []] eqn:Hreply; [|by destruct (Hfail tokens)|];
    cbn [fst snd engine_of prompts] in *;
    repeat split; try done; try congruence;
    autorewrite with fields; apply last_snoc.
Qed.

Lemma llm_failure_ends_the_loop_witness :
  let s := start true in
  let s' := snd (run_conversation_loop [unanswered; unstoppable]
                   KeyboardInterrupt s) in
  fst (run_conversation_loop [unanswered; unstoppable] KeyboardInterrupt s)
  = LoopRaises TypeError ∧
  prompts s' =
    prompts s ++ [messages (retrieved unanswered) (history (engine_of s))
                    (user_text unanswered)] ∧
  stop_event (engine_of s') = stop_event (run (meanwhile unanswered) (engine_of s)) ∧
  last (tasks (engine_of s')) = Some (Task FALLBACK_PHRASE Pending).
Proof.
  apply (llm_failure_ends_the_loop unanswered [unstoppable] KeyboardInterrupt
           (start true)).
  - vm_compute. reflexivity.
  - intros tokens. discriminate.
  - discriminate.
Defined.

Lemma history_generate_and_speak user_input llm e :
  length (history e) ≤ HISTORY_CAP →
  length (history (after (generate_and_speak user_input llm) e)) ≤ HISTORY_CAP.
Proof.
  intros Hlen.
  change (after (generate_and_speak user_input llm) e)
    with (apply_op e (OpSpeak user_input llm)).
  rewrite apply_op_history by done. apply last_n_length.
Qed.

Lemma length_messages rag h user_input :
  length (messages rag h user_input) = length h + 2.
Proof.
  unfold messages. cbn [length]. rewrite length_app, length_map. cbn. lia.
Qed.

Lemma conversation_turn_prompts u s :
  unmute_callback (engine_of s) ≠ None →
  length (history (engine_of s)) ≤ HISTORY_CAP →
  Forall (λ p, length p ≤ HISTORY_CAP + 2) (prompts s) →
  let s' := snd (conversation_turn u s) in
  length (history (engine_of s')) ≤ HISTORY_CAP ∧
  Forall (λ p, length p ≤ HISTORY_CAP + 2) (prompts s').
Proof.
  intros Hu Hlen Hall s'. unfold s'.
  rewrite conversation_turn_unfold by done. cbv zeta.
  destruct (is_command (user_text u)); cbn [snd engine_of prompts].
  - autorewrite with fields. by rewrite run_history.
  - split.
    + apply history_generate_and_speak. autorewrite with fields.
      by rewrite run_history.
    + apply Forall_app. split; [done|]. apply Forall_singleton.
      rewrite length_messages. lia.
Qed.

Lemma loop_prompts us w s :
  unmute_callback (engine_of s) ≠ None →
  length (history (engine_of s)) ≤ HISTORY_CAP →
  Forall (λ p, length p ≤ HISTORY_CAP + 2) (prompts s) →
  Forall (λ p, length p ≤ HISTORY_CAP + 2)
    (prompts (snd (run_conversation_loop us w s))).
Proof.
  revert s. induction us as [|u us IH]; intros s Hu Hlen Hall;
    [by destruct w|].
  cbn [run_conversation_loop].
  destruct (conversation_turn_prompts u s Hu Hlen Hall) as [Hlen' Hall'].
  pose proof (conversation_turn_hook u s Hu) as Hu'.
  destruct (conversation_turn u s) as [[[]|x] s1]; cbn [snd] in *; [|done].
  by apply IH.
Qed.

(** X21.  However long the conversation, every prompt sent to the LLM
    has at most 10 messages: the system instruction, at most 8 turns of
    history and the user's utterance. *)
Theorem prompts_are_bounded (tts_loaded : bool) (us : list utterance)
    (w : wait_end) :
  Forall (λ p, length p ≤ HISTORY_CAP + 2)
    (prompts (snd (run_conversation_loop us w (start tts_loaded)))).
Proof. apply loop_prompts; [done | cbn; lia | constructor]. Qed.

Lemma conversation_turn_answered u s :
  unmute_callback (engine_of s) ≠ None →
  fst (conversation_turn u s) = Ok () ↔ answered u.
Proof.
  intros Hu. rewrite conversation_turn_unfold by done. cbv zeta.
  unfold answered, outcome. rewrite generate_and_speak_unfold.
  destruct (is_command (user_text u)); [cbn [fst]; tauto|].
  destruct (reply u) as [|tokens []]; cbn [fst]; split;
    try done; eauto; by intros [?|[tokens' ?]].
Qed.

Lemma stop_event_step e ev :
  ev ≠ EvStop → stop_event (step e ev) = stop_event e.
Proof.
  intros Hev. destruct ev.
  - cbn [step]. by autorewrite with fields.
  - destruct (token_event_flushed token e) as (d & b & st & ->).
    by autorewrite with fields.
  - cbn [step]. destruct (after_try_dispatch_flushed true e) as (d & b & st & ->).
    by autorewrite with fields.
  - cbn [step]. by autorewrite with fields.
  - destruct (watchdog_event_flushed e) as (d & b & st & ->).
    by autorewrite with fields.
  - cbn [step]. by autorewrite with fields.
  - done.
  - cbn [step]. by autorewrite with fields.
  - cbn [step]. by autorewrite with fields.
  - cbn [step]. by autorewrite with fields.
Qed.

Lemma stop_event_run evs e :
  EvStop ∉ evs → stop_event (run evs e) = stop_event e.
Proof.
  revert e. induction evs as [|ev evs IH]; intros e Hevs; [done|].
  apply not_elem_of_cons in Hevs as [Hev Hevs].
  rewrite run_cons, IH by done. apply stop_event_step. congruence.
Qed.

Lemma conversation_turn_stop_event u s :
  unmute_callback (engine_of s) ≠ None →
  EvStop ∉ meanwhile u →
  stop_event (engine_of (snd (conversation_turn u s))) = stop_event (engine_of s).
Proof.
  intros Hu Hevs. rewrite conversation_turn_unfold by done. cbv zeta.
  destruct (is_command (user_text u)); cbn [snd engine_of].
  - autorewrite with fields. by apply stop_event_run.
  - destruct (generate_and_speak_frame (user_text u) (reply u)
                (after interrupt (run (meanwhile u) (engine_of s))))
      as (_ & -> & _).
    autorewrite with fields. by apply stop_event_run.
Qed.

Lemma loop_cancelled us s :
  unmute_callback (engine_of s) ≠ None →
  Forall answered us →
  let sc := snd (run_conversation_loop us CancelledError s) in
  fst (run_conversation_loop us CancelledError s) = LoopCancelled ∧
  unmute_callback (engine_of sc) ≠ None ∧
  run_conversation_loop us KeyboardInterrupt s =
    (match outcome stop (engine_of sc) with
     | Ok _ => LoopReturns
     | Raise x => LoopRaises x
     end,
     Session (after stop (engine_of sc)) (rag_context sc) (prompts sc)) ∧
  (Forall (λ u, EvStop ∉ meanwhile u) us →
   stop_event (engine_of sc) = stop_event (engine_of s)).
Proof.
  revert s. induction us as [|u us IH]; intros s Hu Hans sc; [done|].
  apply Forall_cons in Hans as [Hu1 Hans].
  unfold sc. cbn [run_conversation_loop].
  pose proof (conversation_turn_answered u s Hu) as Hturn.
  pose proof (conversation_turn_hook u s Hu) as Hu'.
  pose proof (conversation_turn_stop_event u s Hu) as Hstop.
  apply Hturn in Hu1.
  destruct (conversation_turn u s) as [[[]|x] s1]; cbn [fst snd] in *; [|done].
  destruct (IH s1 Hu' Hans) as (Hc & Hhook & Hk & Hse).
  repeat split; try done.
  intros Hquiet. apply Forall_cons in Hquiet as [Hq1 Hquiet].
  rewrite Hse by done. by apply Hstop.
Qed.

Lemma loop_returns us w s :
  unmute_callback (engine_of s) ≠ None →
  fst (run_conversation_loop us w s) = LoopReturns ↔
  Forall answered us ∧ w = KeyboardInterrupt.
Proof.
  revert s. induction us as [|u us IH]; intros s Hu.
  - cbn [run_conversation_loop]. destruct w; cbn [fst].
    + rewrite outcome_stop, outcome_interrupt_ok by (by autorewrite with fields).
      by intuition constructor.
    + split; [done | by intros [_ ?]].
  - cbn [run_conversation_loop].
    pose proof (conversation_turn_answered u s Hu) as Hturn.
    pose proof (conversation_turn_hook u s Hu) as Hu'.
    destruct (conversation_turn u s) as [[[]|x] s1]; cbn [fst snd] in *.
    + rewrite (IH s1 Hu'), Forall_cons. tauto.
    + rewrite Forall_cons. split; [done|]. intros [[Hu1 _] _].
      by apply Hturn in Hu1.
Qed.

(** X22.  The cleanup is reached only through a KeyboardInterrupt at the
    wait for the next utterance.  The loop returns exactly when every
    utterance is a command or gets a complete reply and the wait ends in
    KeyboardInterrupt; the engine is then stopped: the stop event is set,
    Speaking is false and the playback worker has left.  When the wait
    is cancelled instead, the CancelledError leaves the loop and [stop]
    is not run: the engine is left as the last turn left it, with the
    stop event as it was before the loop. *)
Theorem cleanup_only_after_keyboard_interrupt (us : list utterance)
    (w : wait_end) (s : session) :
  unmute_callback (engine_of s) ≠ None →
  let sk := snd (run_conversation_loop us KeyboardInterrupt s) in
  let sc := snd (run_conversation_loop us CancelledError s) in
  (fst (run_conversation_loop us w s) = LoopReturns ↔
   Forall answered us ∧ w = KeyboardInterrupt) ∧
  (Forall answered us →
   stop_event (engine_of sk) = true ∧ is_speaking (engine_of sk) = false ∧
   worker (engine_of sk) = Exited ∧
   fst (run_conversation_loop us CancelledError s) = LoopCancelled ∧
   engine_of sk = after stop (engine_of sc) ∧
   (Forall (λ u, EvStop ∉ meanwhile u) us →
    stop_event (engine_of sc) = stop_event (engine_of s))).
Proof.
  intros Hu sk sc. split; [by apply loop_returns|]. intros Hans.
  destruct (loop_cancelled us s Hu Hans) as (Hc & Hhook & Hk & Hse).
  fold sc in Hhook, Hk, Hse.
  assert (engine_of sk = after stop (engine_of sc)) as Hsk.
  { unfold sk. by rewrite Hk. }
  assert (outcome interrupt (set_stop_event true (engine_of sc)) = Ok ()) as Hok.
  { apply outcome_interrupt_ok. by autorewrite with fields. }
  assert (after stop (engine_of sc) =
          cancel_playback_task
            (after interrupt (set_stop_event true (engine_of sc)))) as Hstop.
  { by rewrite after_stop, Hok. }
  rewrite Hsk, Hstop. autorewrite with fields.
  repeat split; try done.
  by apply (interrupt_drains_and_resets (set_stop_event true (engine_of sc))).
Qed.

Lemma cleanup_only_after_keyboard_interrupt_witness :
  let s := start true in
  let sk := snd (run_conversation_loop [unstoppable] KeyboardInterrupt s) in
  let sc := snd (run_conversation_loop [unstoppable] CancelledError s) in
  (fst (run_conversation_loop [unstoppable] CancelledError s) = LoopReturns ↔
   Forall answered [unstoppable] ∧ CancelledError = KeyboardInterrupt) ∧
  (Forall answered [unstoppable] →
   stop_event (engine_of sk) = true ∧ is_speaking (engine_of sk) = false ∧
   worker (engine_of sk) = Exited ∧
   fst (run_conversation_loop [unstoppable] CancelledError s) = LoopCancelled ∧
   engine_of sk = after stop (engine_of sc) ∧
   (Forall (λ u, EvStop ∉ meanwhile u) [unstoppable] →
    stop_event (engine_of sc) = stop_event (engine_of s))).
Proof.
  apply (cleanup_only_after_keyboard_interrupt [unstoppable] CancelledError
           (start true)).
  discriminate.
Defined.

(** ** The index and the retrieval *)

Lemma length_string_app a b :
  String.length (a +:+ b) = String.length a + String.length b.
Proof.
  induction a as [|c a IH]; [done|].
  rewrite string_app_cons. cbn [String.length]. by rewrite IH.
Qed.

Lemma length_join_cons sep p ps :
  String.length p ≤ String.length (Py.join sep (p :: ps)).
Proof.
  rewrite join_cons. destruct ps; [done|]. rewrite length_string_app. lia.
Qed.

Lemma length_slice_last {A} k (a : list A) :
  length (slice_last k a) = if k =? 0 then length a else min k (length a).
Proof.
  unfold slice_last. destruct (k =? 0); [done|]. rewrite length_drop. lia.
Qed.

Lemma slice_last_subseteq {A} k (a : list A) x : x ∈ slice_last k a → x ∈ a.
Proof.
  unfold slice_last. destruct (k =? 0); [done|]. intros Hx.
  rewrite <- (take_drop (length a - k) a). apply elem_of_app. by right.
Qed.

Lemma lookup_all_ok chunks indices :
  Forall (λ i, i < length chunks) indices →
  ∃ parts, lookup_all chunks indices = Ok parts ∧
           length parts = length indices ∧
           Forall (λ p, p ∈ chunks) parts.
Proof.
  induction 1 as [|i indices Hi _ (parts & Hparts & Hlen & Hin)].
  - by exists [].
  - destruct (lookup_lt_is_Some_2 chunks i Hi) as [c Hc].
    exists (c :: parts). cbn [lookup_all]. rewrite Hc, Hparts.
    split; [done|]. split; [cbn; lia|].
    constructor; [by eapply list_elem_of_lookup_2 | done].
Qed.

(** X23.  [retrieve_context] never raises and has no relevance
    threshold.  With an empty index it returns the empty string.
    Otherwise, for the ranking of any query, it returns chunks of the
    index joined by blank lines: [top_k] of them, or all when there are
    fewer, and also all when [top_k] is 0, since [a[-0:]] is the whole
    array.  With the default [top_k] a non-empty index always gives
    context, at least as long as one chunk. *)
Theorem retrieve_context_returns_chunks (chunks : list string)
    (argsort : list nat) (top_k : nat) :
  argsort ≡ₚ seq 0 (length chunks) →
  retrieve_context [] argsort top_k = Ok EmptyString ∧
  (chunks ≠ [] →
   ∃ part parts,
     retrieve_context chunks argsort top_k = Ok (Py.join blank_line (part :: parts)) ∧
     Forall (λ p, p ∈ chunks) (part :: parts) ∧
     length (part :: parts) =
       (if top_k =? 0 then length chunks else min top_k (length chunks)) ∧
     String.length part ≤ String.length (Py.join blank_line (part :: parts))).
Proof.
  intros Hperm. split; [done|]. intros Hne.
  set (top_indices := reverse (slice_last top_k argsort)).
  assert (length argsort = length chunks) as Hlen.
  { by rewrite Hperm, length_seq. }
  assert (Forall (λ i, i < length chunks) top_indices) as Hvalid.
  { apply Forall_forall. intros i Hi. unfold top_indices in Hi.
    apply elem_of_reverse, slice_last_subseteq in Hi.
    rewrite Hperm in Hi. apply elem_of_seq in Hi. lia. }
  destruct (lookup_all_ok chunks top_indices Hvalid) as (parts & Hparts & Hl & Hin).
  assert (length parts =
          if top_k =? 0 then length chunks else min top_k (length chunks)) as Hsize.
  { rewrite Hl. unfold top_indices.
    by rewrite length_reverse, length_slice_last, Hlen. }
  destruct chunks as [|c chunks]; [done|].
  destruct parts as [|part parts].
  { cbn [length] in Hsize. destruct (top_k =? 0) eqn:Hk; [done|].
    apply Nat.eqb_neq in Hk. lia. }
  exists part, parts. unfold retrieve_context. fold top_indices.
  rewrite Hparts. cbn [rbind]. repeat split; try done.
  apply length_join_cons.
Qed.

Lemma retrieve_context_returns_chunks_witness :
  retrieve_context [] [1; 0] 2 = Ok EmptyString ∧
  (load_and_index syllabus ≠ [] →
   ∃ part parts,
     retrieve_context (load_and_index syllabus) [1; 0] 2
     = Ok (Py.join blank_line (part :: parts)) ∧
     Forall (λ p, p ∈ load_and_index syllabus) (part :: parts) ∧
     length (part :: parts) =
       (if 2 =? 0 then length (load_and_index syllabus)
        else min 2 (length (load_and_index syllabus))) ∧
     String.length part ≤ String.length (Py.join blank_line (part :: parts))).
Proof.
  apply (retrieve_context_returns_chunks (load_and_index syllabus) [1; 0] 2).
  assert (length (load_and_index syllabus) = 2) as -> by (vm_compute; reflexivity).
  cbn [seq]. apply perm_swap.
Defined.

Lemma contains_blank_cons c s :
  contains blank_line (String c s) =
  (Ascii.eqb (ascii_of_nat 10) c
   && match s with
      | String d _ => Ascii.eqb (ascii_of_nat 10) d
      | EmptyString => false
      end)
  || contains blank_line s.
Proof.
  unfold blank_line. cbn [contains startswith].
  destruct s as [|d s]; [done|]. by rewrite andb_true_r.
Qed.

Lemma contains_blank_snoc p c :
  contains blank_line (p +:+ String c EmptyString) =
  contains blank_line p
  || (match Py.last_char p with
      | Some x => Ascii.eqb (ascii_of_nat 10) x
      | None => false
      end && Ascii.eqb (ascii_of_nat 10) c).
Proof.
  induction p as [|a p IH].
  - rewrite string_app_nil, contains_blank_cons. cbn. by rewrite andb_false_r.
  - rewrite string_app_cons, !contains_blank_cons, IH.
    destruct p as [|b p].
    + rewrite string_app_nil. cbn.
      destruct (Ascii.eqb _ a), (Ascii.eqb _ c); done.
    + rewrite string_app_cons, (last_char_cons a (String b p)).
      cbn [Py.is_empty].
      destruct (Ascii.eqb _ a), (Ascii.eqb _ b), (contains blank_line _);
        cbn [andb orb]; try done.
Qed.

Lemma piece_ok_empty s : piece_ok EmptyString s.
Proof. split; [done | by intros x Hx]. Qed.

Lemma piece_ok_snoc piece c s :
  piece_ok piece (String c s) →
  contains blank_line (piece +:+ String c EmptyString) = false.
Proof.
  intros [Hp Hlast]. rewrite contains_blank_snoc, Hp. cbn [orb].
  destruct (Py.last_char piece) as [x|]; [|done].
  destruct (Ascii.eqb _ x) eqn:Hx; [|done]. by rewrite (Hlast x).
Qed.

Lemma split_paragraphs_no_blank_line s :
  (∀ piece, piece_ok piece s →
     Forall (λ p, contains blank_line p = false) (split_paragraphs_from piece s)) ∧
  (∀ piece c, piece_ok piece (String c s) →
     Forall (λ p, contains blank_line p = false)
       (split_paragraphs_from piece (String c s))).
Proof.
  induction s as [|d s [IH1 IH2]].
  - split.
    + intros piece [Hp _]. by repeat constructor.
    + intros piece c Hok. cbn [split_paragraphs_from].
      repeat constructor. by eapply piece_ok_snoc.
  - split; [intros piece; apply IH2|].
    intros piece c Hok. cbn [split_paragraphs_from].
    destruct (Ascii.eqb c _ && Ascii.eqb d _) eqn:Hsep.
    + constructor; [apply Hok | apply IH1, piece_ok_empty].
    + apply IH2. split; [by eapply piece_ok_snoc|].
      intros x Hx Hnl. rewrite last_char_app in Hx. cbn in Hx.
      injection Hx as <-. rewrite Ascii.eqb_sym in Hnl. rewrite Hnl in Hsep.
      cbn [andb] in Hsep. by rewrite Ascii.eqb_sym.
Qed.

Lemma startswith_rstrip sub s :
  startswith sub (Py.rstrip s) = true → startswith sub s = true.
Proof.
  revert s. induction sub as [|a sub IH]; intros s; [done|].
  destruct s as [|c s]; [done|]. rewrite rstrip_cons.
  destruct (Py.isspace c && Py.is_empty (Py.rstrip s)); [done|].
  cbn [startswith]. intros H. apply andb_true_iff in H as [-> H].
  by apply IH.
Qed.

Lemma contains_blank_rstrip s :
  contains blank_line (Py.rstrip s) = true → contains blank_line s = true.
Proof.
  induction s as [|c s IH]; [done|].
  intros H. cbn [contains]. apply orb_true_iff.
  destruct (Py.isspace c && Py.is_empty (Py.rstrip s)) eqn:Hc.
  - rewrite rstrip_cons, Hc in H. done.
  - pose proof (startswith_rstrip blank_line (String c s)) as Hstart.
    rewrite rstrip_cons, Hc in H, Hstart.
    cbn [contains] in H. apply orb_true_iff in H as [H|H].
    + left. by apply Hstart.
    + right. by apply IH.
Qed.

Lemma contains_blank_lstrip s :
  contains blank_line (Py.lstrip s) = true → contains blank_line s = true.
Proof.
  induction s as [|c s IH]; [done|].
  cbn [Py.lstrip]. destruct (Py.isspace c); [|done].
  intros H. cbn [contains]. rewrite IH by done. apply orb_true_r.
Qed.

Lemma lstrip_first_char s c :
  Py.first_char (Py.lstrip s) = Some c → Py.isspace c = false.
Proof.
  induction s as [|d s IH]; [done|].
  cbn [Py.lstrip]. destruct (Py.isspace d) eqn:Hd; [done|].
  cbn. congruence.
Qed.

Lemma rstrip_first_char s c :
  Py.first_char (Py.rstrip s) = Some c → Py.first_char s = Some c.
Proof.
  destruct s as [|d s]; [done|]. rewrite rstrip_cons.
  by destruct (Py.isspace d && Py.is_empty (Py.rstrip s)).
Qed.

(** X24.  What [load_and_index] keeps are trimmed paragraphs: every chunk
    is a paragraph of the text with the white space at its ends removed,
    has more than 50 characters, begins and ends with a character that is
    not white space, and contains no blank line. *)
Theorem indexed_chunks_are_trimmed_paragraphs (text chunk : string) :
  chunk ∈ load_and_index text →
  (∃ raw, raw ∈ split_paragraphs_from EmptyString text ∧ chunk = Py.strip raw) ∧
  MIN_CHUNK_CHARS < String.length chunk ∧
  (∀ c, Py.first_char chunk = Some c → Py.isspace c = false) ∧
  (∀ c, Py.last_char chunk = Some c → Py.isspace c = false) ∧
  contains blank_line chunk = false.
Proof.
  unfold load_and_index. intros Hin.
  apply list_elem_of_filter in Hin as [Hlen Hin].
  apply list_elem_of_fmap in Hin as (raw & -> & Hraw).
  split; [by exists raw|]. split; [done|].
  split; [|split].
  - intros c Hc. unfold Py.strip in Hc.
    by apply rstrip_first_char, lstrip_first_char in Hc.
  - apply strip_last_char.
  - destruct (split_paragraphs_no_blank_line text) as [Hall _].
    specialize (Hall EmptyString (piece_ok_empty text)).
    rewrite Forall_forall in Hall. specialize (Hall raw Hraw).
    destruct (contains blank_line (Py.strip raw)) eqn:Hc; [|done].
    unfold Py.strip in Hc.
    apply contains_blank_rstrip, contains_blank_lstrip in Hc. congruence.
Qed.

Lemma indexed_chunks_are_trimmed_paragraphs_witness :
  let chunk :=
    "The water cycle moves water from the sea to the sky and back to the land again." in
  (∃ raw, raw ∈ split_paragraphs_from EmptyString syllabus ∧ chunk = Py.strip raw) ∧
  MIN_CHUNK_CHARS < String.length chunk ∧
  (∀ c, Py.first_char chunk = Some c → Py.isspace c = false) ∧
  (∀ c, Py.last_char chunk = Some c → Py.isspace c = false) ∧
  contains blank_line chunk = false.
Proof.
  apply (indexed_chunks_are_trimmed_paragraphs syllabus).
  vm_compute. apply list_elem_of_In. cbn [In]. tauto.
Defined.
